(** * Strassen's algorithm on square matrices: a model of [matrix.cpp]

    The class [Matrix] of [Algorithms/Strassen's/src/matrix.cpp] keeps a
    size [m_size] and a flat row-major buffer [m_data].  Its methods are
    modelled over a store of matrix objects, so that receivers and
    reference parameters are locations and every write of the source is a
    write into that store. *)

From Stdlib Require Import ZArith NArith Lia List Bool.
From stdpp Require Import base list.

Set Default Proof Using "Type".
Open Scope N_scope.

(** ** Machine integers *)

Module Int.

(** [int] is 32 bits wide.  The language leaves signed overflow undefined;
    the arithmetic is taken as the processor computes it, in two's
    complement with wrap-around. *)
Definition min_int : Z := (- 2 ^ 31)%Z.
Definition max_int : Z := (2 ^ 31 - 1)%Z.

Definition wrap (z : Z) : Z := ((z + 2 ^ 31) mod 2 ^ 32 - 2 ^ 31)%Z.

Definition in_range (z : Z) : Prop := (min_int <= z <= max_int)%Z.

Definition add (x y : Z) : Z := wrap (x + y).
Definition sub (x y : Z) : Z := wrap (x - y).
Definition mul (x y : Z) : Z := wrap (x * y).

End Int.

Module Size.

(** [size_t] is 64 bits wide and unsigned. *)
Definition modulus : N := 2 ^ 64.

Definition wrap (n : N) : N := n mod modulus.

Definition add (a b : N) : N := wrap (a + b).
Definition sub (a b : N) : N := wrap (a + modulus - b).
Definition mul (a b : N) : N := wrap (a * b).
Definition div (a b : N) : N := a / b.

End Size.

(** ** The part of [double] that the constructor's check touches

    The check is [std::fmod(std::log2(s), 1) != 0].  The size is converted
    to [double], which has 53 significant bits; [std::log2] computes the
    logarithm of that double and rounds it to a double again.  A finite
    value is written [log2 p - m] for a positive integer [p] and an
    integer [m], which covers the logarithm of every double that a size
    converts to, its remainder modulo one, and the constants 0 and 1. *)

Module Double.

Inductive double : Type :=
| NaN
| Inf (negative : bool)
| Log2 (p : positive) (m : Z).

Definition zero : double := Log2 1 0.
Definition one : double := Log2 2 0.

(** The conversion of a [size_t] to [double], given as the integer that
    the double is: a size of more than 53 binary digits is rounded to the
    nearest integer with 53 significant digits, and to the one whose last
    significant digit is even when two are equally near. *)
Definition of_size (s : N) : N :=
  let excess := N.size s - 53 in
  if excess =? 0 then s
  else
    let q := N.shiftr s excess in
    let r := N.land s (N.ones excess) in
    let half := N.shiftl 1 (excess - 1) in
    N.shiftl (if (half <? r) || ((r =? half) && N.odd q) then q + 1 else q)
             excess.

(** The logarithm to base 2 of the double that [s] converts to: minus
    infinity at 0.  This is the value that [std::log2(s)] has to round. *)
Definition log2 (s : N) : double :=
  match of_size s with
  | N0 => Inf true
  | Npos p => Log2 p 0
  end.

Definition is_power_of_two (p : positive) : bool :=
  Npos p =? 2 ^ N.log2 (Npos p).

(** The power of two nearest to [p]. *)
Definition nearest_power (p : positive) : positive :=
  let n := N.log2 (Npos p) in
  let below : N := 2 ^ n in
  let above : N := 2 ^ (n + 1) in
  let nearest : N :=
    if Npos p - below <=? above - Npos p then below else above in
  match nearest with
  | N0 => p
  | Npos q => q
  end.

(** The value that [std::log2] returns for the logarithm [x].  The
    logarithm of a power of two is a whole number and is returned as it
    is.  The logarithm of another integer below [2 ^ 32] differs from
    every whole number by more than [2 ^ -32], far more than the rounding
    of the library, so that the value returned is not a whole number
    either: it is kept as it is, its distance to the next double being of
    no consequence to the check.  From [2 ^ 32] on, the logarithm of an
    integer that is no power of two can be so close to a whole number that
    the library returns that number; whether it does is up to the library,
    and is asked of [whole]. *)
Definition rounded (whole : positive -> bool) (x : double) : double :=
  match x with
  | Log2 p m =>
      if is_power_of_two p || (Npos p <? 2 ^ 32) then x
      else if whole p then Log2 (nearest_power p) m else x
  | _ => x
  end.

(** [2 ^ m <= p], that is [0 <= log2 p - m]. *)
Definition nonneg (p : positive) (m : Z) : bool :=
  match m with
  | Zpos k => (2 ^ Npos k <=? Npos p)%N
  | _ => true
  end.

(** The floor and the ceiling of [log2 p]. *)
Definition floor_log2 (p : positive) : Z := Z.log2 (Zpos p).
Definition ceil_log2 (p : positive) : Z := Z.log2_up (Zpos p).

(** [std::fmod(x, 1)]: the argument minus its integer part (rounded
    towards zero); not a number when the argument is infinite. *)
Definition fmod_1 (x : double) : double :=
  match x with
  | NaN => NaN
  | Inf _ => NaN
  | Log2 p m => if nonneg p m then Log2 p (floor_log2 p)
                else Log2 p (ceil_log2 p)
  end.

(** [log2 p - m = 0], that is [p = 2 ^ m]. *)
Definition is_zero (p : positive) (m : Z) : bool :=
  match m with
  | Z0 => (p =? 1)%positive
  | Zpos k => (Npos p =? 2 ^ Npos k)%N
  | Zneg _ => false
  end.

(** [x != 0]: a NaN is different from everything. *)
Definition ne_zero (x : double) : bool :=
  match x with
  | NaN => true
  | Inf _ => true
  | Log2 p m => negb (is_zero p m)
  end.

End Double.

(** ** Matrices, the object store and the monad of the methods *)

(** Modelled from the spec: the class declaration ([matrix.hpp]) is not
    among the sources.  A matrix has a size and an ordered sequence of
    signed integers in row-major order, which is how [matrix.cpp] uses
    [m_size] (a [size_t]) and [m_data] (a vector of [int]). *)
Record Matrix : Type := mkMatrix { m_size : N; m_data : list Z }.

Abbreviation loc := nat (only parsing).

(** A reference [int &]: the object and the offset into its buffer. *)
Definition int_ref : Type := (loc * N)%type.

(** Entries of the call trace: which multiplication routine was entered,
    and at which size.  The trace is kept beside the objects as a record
    of the run; no method reads it. *)
Inductive call : Type :=
| call_multiply (s : N)
| call_strassen (s : N).

(** The operations of a run on whole matrices, each with the values of its
    operands at the time of the call.  They are recorded beside the objects
    as the trace is; no method reads them. *)
Inductive step : Type :=
| step_plus (a b : Matrix)
| step_minus (a b : Matrix)
| step_multiply (a b : Matrix)
| step_strassen (a b : Matrix)
| step_combine (r11 r12 r21 r22 : Matrix).

(** An operator with operands that construct objects, by its line in
    [matrix.cpp] and its place among such operators on that line. *)
Definition site : Type := (nat * nat)%type.

(** What the program leaves to the platform it runs on. *)
Record platform : Type := mkPlatform {
  (* whether std::log2 returns a whole number for a double whose logarithm
     is so close to one that this is up to the rounding of the library *)
  log2_whole : positive -> bool;
  (* the integers from which the random values are taken, call after call *)
  random_int : nat -> Z;
  (* whether the compiler evaluates the right operand of the operator at
     a site before the left one *)
  right_first : site -> bool
}.

Record state : Type := mkState {
  objs : list Matrix;      (* the matrix objects constructed so far *)
  trace : list call;       (* routine entries, most recent first *)
  steps : list step;       (* operations, most recent first *)
  drawn : nat;             (* how many random values were taken *)
  host : platform
}.

(** [Undefined] stands for what the language leaves undefined (a dangling
    reference, unchecked indexing past the end); [OutOfFuel] for a bound
    on the recursion depth that was too small. *)
Inductive error : Type :=
| InvalidArgument
| OutOfRange
| Undefined
| OutOfFuel.

Inductive result (A : Type) : Type :=
| Ok (a : A)
| Err (e : error).
Arguments Ok {A} a.
Arguments Err {A} e.

Definition M (A : Type) : Type := state -> result A * state.

Definition ret {A} (a : A) : M A := fun st => (Ok a, st).

Definition bind {A B} (m : M A) (f : A -> M B) : M B :=
  fun st => match m st with
            | (Ok a, st') => f a st'
            | (Err e, st') => (Err e, st')
            end.

Definition throw {A} (e : error) : M A := fun st => (Err e, st).

Notation "'do' x <- m ; k" := (bind m (fun x => k))
  (at level 10, x name, m at level 100, k at level 200,
   format "'[v' 'do'  x  <-  m ; '/' k ']'").
Notation "'do_' m ; k" := (bind m (fun _ => k))
  (at level 10, m at level 100, k at level 200,
   format "'[v' 'do_'  m ; '/' k ']'").

Definition set_objs (st : state) (o : list Matrix) : state :=
  {| objs := o; trace := trace st; steps := steps st;
     drawn := drawn st; host := host st |}.

Definition log (c : call) : M unit := fun st =>
  (Ok tt, {| objs := objs st; trace := c :: trace st; steps := steps st;
             drawn := drawn st; host := host st |}).

Definition add_step (e : step) (st : state) : state :=
  {| objs := objs st; trace := trace st; steps := e :: steps st;
     drawn := drawn st; host := host st |}.

(** The platform of the run. *)
Definition ask : M platform := fun st => (Ok (host st), st).

(** The step [what a b] is recorded for the matrices that [this] and
    [other] hold. *)
Definition record (what : Matrix -> Matrix -> step) (this other : loc)
  : M unit := fun st =>
  match objs st !! this, objs st !! other with
  | Some a, Some b => (Ok tt, add_step (what a b) st)
  | _, _ => (Ok tt, st)
  end.

(** The same for [combine] and its four arguments. *)
Definition record_combine (R_11 R_12 R_21 R_22 : loc) : M unit := fun st =>
  match objs st !! R_11, objs st !! R_12, objs st !! R_21, objs st !! R_22
  with
  | Some a, Some b, Some c, Some d =>
      (Ok tt, add_step (step_combine a b c d) st)
  | _, _, _, _ => (Ok tt, st)
  end.

(** [x.f(y)]: the object expression [x] is evaluated before the argument
    [y].  (The source relies on C++17, which fixes this order: it declares
    its [std::uniform_int_distribution] without template arguments.) *)
Definition call_on (x y : M loc) (f : loc -> loc -> M loc) : M loc :=
  do a <- x; do b <- y; f a b.

(** [x + y] and [x - y] where the operands construct objects: the language
    does not say which operand is evaluated first, and the compiler decides
    it for each such operator of the program.  One operand is evaluated
    completely before the other, which is what compilers do; the language
    would also let the calls inside the two operands take turns. *)
Definition binary (here : site) (op : loc -> loc -> M loc) (x y : M loc)
  : M loc :=
  do on <- ask;
  if right_first on here
  then do b <- y; do a <- x; op a b
  else do a <- x; do b <- y; op a b.

(** [for (size_t i = 0; i < hi; ++i) body(i)].  The bound is read once:
    the loops of the source run up to [m_size], [m_data.size()] or a
    local constant, none of which their bodies change. *)
Fixpoint for_loop (n : nat) (i : N) (body : N -> M unit) : M unit :=
  match n with
  | O => ret tt
  | S n' => do_ body i; for_loop n' (N.succ i) body
  end.

Definition for_range (hi : N) (body : N -> M unit) : M unit :=
  for_loop (N.to_nat hi) 0 body.

(** *** Objects and their buffers *)

Definition alloc (m : Matrix) : M loc := fun st =>
  (Ok (length (objs st)), set_objs st (objs st ++ [m])).

Definition deref (l : loc) : M Matrix := fun st =>
  match objs st !! l with
  | Some m => (Ok m, st)
  | None => (Err Undefined, st)
  end.

Definition set_data (l : loc) (d : list Z) : M unit := fun st =>
  match objs st !! l with
  | Some m => (Ok tt, set_objs st (<[l := mkMatrix (m_size m) d]> (objs st)))
  | None => (Err Undefined, st)
  end.

(** [m_data.size()] *)
Definition vec_size (d : list Z) : N := N.of_nat (length d).

(** [m_data.push_back(x)] *)
Definition push_back (l : loc) (x : Z) : M unit :=
  do m <- deref l; set_data l (m_data m ++ [x]).

(** [m_data[i]] as a value: unchecked. *)
Definition load (r : int_ref) : M Z :=
  do m <- deref (fst r);
  match m_data m !! N.to_nat (snd r) with
  | Some x => ret x
  | None => throw Undefined
  end.

(** [m_data[i] = x]: unchecked. *)
Definition store (r : int_ref) (x : Z) : M unit :=
  do m <- deref (fst r);
  if decide (N.to_nat (snd r) < length (m_data m))%nat
  then set_data (fst r) (<[N.to_nat (snd r) := x]> (m_data m))
  else throw Undefined.

(** ** The methods of [Matrix] *)

(** [distribution(gen)] for [std::uniform_int_distribution(-9, 9)] over a
    generator seeded from [std::random_device]: a value between -9 and 9
    that the program does not determine.  It is the next of the platform's
    random integers, brought into that range; every sequence of values in
    the range comes from some platform, and no value outside of it from
    any. *)
Definition draw : M Z := fun st =>
  (Ok (random_int (host st) (drawn st) mod 19 - 9)%Z,
   {| objs := objs st; trace := trace st; steps := steps st;
      drawn := S (drawn st); host := host st |}).

Definition randomize (this : loc) : M unit :=
  do m <- deref this;
  for_range (vec_size (m_data m)) (fun i =>
    do x <- draw; store (this, i) x).

(** The constructor [Matrix(size_t s, bool empty)]. *)
Definition Matrix_ctor (s : N) (empty : bool) : M loc :=
  do on <- ask;
  if Double.ne_zero
       (Double.fmod_1 (Double.rounded (log2_whole on) (Double.log2 s)))
  then throw InvalidArgument
  else
    do this <- alloc (mkMatrix s []);
    do_ for_range (Size.mul s s) (fun _ => push_back this 0%Z);
    do_ (if empty then ret tt else randomize this);
    ret this.

(** Modelled from the spec: the default value of [empty] is in the class
    declaration ([matrix.hpp]), which is not among the sources; a matrix
    is constructed empty, all elements zero, unless randomization is asked
    for.  This is [Matrix x(s)], as every call inside the class writes
    it. *)
Definition new_matrix (s : N) : M loc := Matrix_ctor s true.

Definition get_index (this : loc) (r c : N) : M N :=
  do m <- deref this;
  let i := Size.add (Size.mul r (m_size m)) c in
  if i <? vec_size (m_data m) then ret i else throw OutOfRange.

Definition at_ref (this : loc) (r c : N) : M int_ref :=
  do i <- get_index this r c; ret (this, i).

Definition at_ (this : loc) (r c : N) : M Z :=
  do i <- get_index this r c; load (this, i).

Definition partition (this : loc) (row_start col_start : N) : M loc :=
  do m <- deref this;
  let s := Size.div (m_size m) 2 in
  do sub_matrix <- new_matrix s;
  do_ for_range s (fun i =>
        for_range s (fun j =>
          do x <- at_ this (Size.add i row_start) (Size.add j col_start);
          do r <- at_ref sub_matrix i j;
          store r x));
  ret sub_matrix.

Definition determine_quad (k : N) (R_11 R_12 R_21 R_22 : loc) (i j : N)
  : M Z :=
  if (i <? k) && (j <? k)
  then do r <- at_ref R_11 i j; load r
  else if (i <? k) && (k <=? j)
  then do r <- at_ref R_12 i (Size.sub j k); load r
  else if (k <=? i) && (j <? k)
  then do r <- at_ref R_21 (Size.sub i k) j; load r
  else do r <- at_ref R_22 (Size.sub i k) (Size.sub j k); load r.

Definition combine (this R_11 R_12 R_21 R_22 : loc) : M unit :=
  do m <- deref this;
  do_ record_combine R_11 R_12 R_21 R_22;
  let k := Size.div (m_size m) 2 in
  for_range (m_size m) (fun i =>
    for_range (m_size m) (fun j =>
      do x <- determine_quad k R_11 R_12 R_21 R_22 i j;
      do r <- at_ref this i j;
      store r x)).

(** [operator+] and [operator-] differ in the scalar operation only. *)
Definition elementwise (what : Matrix -> Matrix -> step) (op : Z -> Z -> Z)
  (this other : loc) : M loc :=
  do a <- deref this;
  do b <- deref other;
  if negb (m_size a =? m_size b) then throw InvalidArgument
  else
    do_ record what this other;
    do result <- new_matrix (m_size a);
    do_ for_range (vec_size (m_data a)) (fun i =>
          do x <- load (this, i);
          do y <- load (other, i);
          store (result, i) (op x y));
    ret result.

Definition operator_plus : loc -> loc -> M loc :=
  elementwise step_plus Int.add.
Definition operator_minus : loc -> loc -> M loc :=
  elementwise step_minus Int.sub.

(** [multiply] calls itself on matrices of half the size; [fuel] bounds
    the depth of these calls. *)
Fixpoint multiply_rec (fuel : nat) (this other : loc) : M loc :=
  match fuel with
  | O => throw OutOfFuel
  | S fuel =>
    do m <- deref this;
    do_ log (call_multiply (m_size m));
    do_ record step_multiply this other;
    do result <- new_matrix (m_size m);
    if m_size m =? 1
    then
      do x <- at_ this 0 0;
      do y <- at_ other 0 0;
      do r <- at_ref result 0 0;
      do_ store r (Int.mul x y);
      ret result
    else
      let k := Size.div (m_size m) 2 in
      do R_11 <- binary (112, 0)%nat operator_plus
        (call_on (partition this 0 0) (partition other 0 0)
                 (multiply_rec fuel))
        (call_on (partition this 0 k) (partition other k 0)
                 (multiply_rec fuel));
      do R_12 <- binary (115, 0)%nat operator_plus
        (call_on (partition this 0 0) (partition other 0 k)
                 (multiply_rec fuel))
        (call_on (partition this 0 k) (partition other k k)
                 (multiply_rec fuel));
      do R_21 <- binary (118, 0)%nat operator_plus
        (call_on (partition this k 0) (partition other 0 0)
                 (multiply_rec fuel))
        (call_on (partition this k k) (partition other k 0)
                 (multiply_rec fuel));
      do R_22 <- binary (121, 0)%nat operator_plus
        (call_on (partition this k 0) (partition other 0 k)
                 (multiply_rec fuel))
        (call_on (partition this k k) (partition other k k)
                 (multiply_rec fuel));
      do_ combine result R_11 R_12 R_21 R_22;
      ret result
  end.

(** A size below [2 ^ 64] is halved to 1 or to 0 in at most 64 steps. *)
Definition depth (s : N) : nat := S (N.size_nat s).

Definition multiply (this other : loc) : M loc :=
  do m <- deref this;
  multiply_rec (depth (m_size m)) this other.

Definition strassen (this other : loc) : M loc :=
  do m <- deref this;
  do_ log (call_strassen (m_size m));
  do_ record step_strassen this other;
  if m_size m =? 1 then multiply this other
  else
    do result <- new_matrix (m_size m);
    let k := Size.div (m_size m) 2 in
    do P1 <- call_on
      (partition this 0 0)
      (binary (138, 0)%nat operator_minus
              (partition other 0 k) (partition other k k))
      multiply;
    do P2 <- call_on
      (binary (139, 0)%nat operator_plus
              (partition this 0 0) (partition this 0 k))
      (partition other k k)
      multiply;
    do P3 <- call_on
      (binary (140, 0)%nat operator_plus
              (partition this k 0) (partition this k k))
      (partition other 0 0)
      multiply;
    do P4 <- call_on
      (partition this k k)
      (binary (141, 0)%nat operator_minus
              (partition other k 0) (partition other 0 0))
      multiply;
    do P5 <- call_on
      (binary (142, 0)%nat operator_plus
              (partition this 0 0) (partition this k k))
      (binary (142, 1)%nat operator_plus
              (partition other 0 0) (partition other k k))
      multiply;
    do P6 <- call_on
      (binary (143, 0)%nat operator_minus
              (partition this 0 k) (partition this k k))
      (binary (143, 1)%nat operator_plus
              (partition other k 0) (partition other k k))
      multiply;
    do P7 <- call_on
      (binary (144, 0)%nat operator_minus
              (partition this 0 0) (partition this k 0))
      (binary (144, 1)%nat operator_plus
              (partition other 0 0) (partition other 0 k))
      multiply;
    (* R_11 = ((P5 + P4) - P2) + P6 *)
    do t <- operator_plus P5 P4;
    do t <- operator_minus t P2;
    do R_11 <- operator_plus t P6;
    do R_12 <- operator_plus P1 P2;
    do R_21 <- operator_plus P3 P4;
    (* R_22 = ((P5 + P1) - P3) - P7 *)
    do t <- operator_plus P5 P1;
    do t <- operator_minus t P3;
    do R_22 <- operator_minus t P7;
    do_ combine result R_11 R_12 R_21 R_22;
    ret result.

Definition operator_times (this other : loc) : M loc :=
  do a <- deref this;
  do b <- deref other;
  if negb (m_size a =? m_size b) then throw InvalidArgument
  else strassen this other.

(** ** Running a method on given matrices *)

(** The state in which the objects [ms] have been constructed on the
    platform [on] and nothing else has happened. *)
Definition init_on (on : platform) (ms : list Matrix) : state :=
  {| objs := ms; trace := []; steps := []; drawn := 0; host := on |}.

(** A platform whose compiler evaluates the left operand first, whose
    library rounds no logarithm to a whole number and whose random integers
    are all 0; and one that differs in evaluating the right operand
    first, as g++ does. *)
Definition left_to_right : platform :=
  {| log2_whole := fun _ => false; random_int := fun _ => 0%Z;
     right_first := fun _ => false |}.

Definition right_to_left : platform :=
  {| log2_whole := fun _ => false; random_int := fun _ => 0%Z;
     right_first := fun _ => true |}.

Definition init (ms : list Matrix) : state := init_on left_to_right ms.

(** The matrix that a call returned, if it returned one. *)
Definition returned (r : result loc * state) : result Matrix :=
  match r with
  | (Ok l, st) => match objs st !! l with
                  | Some m => Ok m
                  | None => Err Undefined
                  end
  | (Err e, _) => Err e
  end.

Definition A2 : Matrix := mkMatrix 2 [1; 2; 3; 4]%Z.
Definition B2 : Matrix := mkMatrix 2 [5; 6; 7; 8]%Z.

(** The four quadrants of [m], combined into the matrix at [r]. *)
Definition quadrants_then_combine (m r : loc) : M unit :=
  do x <- deref m;
  let half := Size.div (m_size x) 2 in
  do q11 <- partition m 0 0;
  do q12 <- partition m 0 half;
  do q21 <- partition m half 0;
  do q22 <- partition m half half;
  combine r q11 q12 q21 q22.

(** [(a + b) - b] *)
Definition plus_then_minus (a b : loc) : M loc :=
  do s <- operator_plus a b; operator_minus s b.

(** The algorithm in the words of the specification: the operands are cut
    into their quadrants, each of the seven products is a recursive call,
    and the four quadrants of the result are combined. *)
Fixpoint strassen_as_specified (fuel : nat) (this other : loc) : M loc :=
  match fuel with
  | O => throw OutOfFuel
  | S fuel =>
    do m <- deref this;
    do_ log (call_strassen (m_size m));
    if m_size m =? 1 then multiply this other
    else
      let k := Size.div (m_size m) 2 in
      do A11 <- partition this 0 0;
      do A12 <- partition this 0 k;
      do A21 <- partition this k 0;
      do A22 <- partition this k k;
      do B11 <- partition other 0 0;
      do B12 <- partition other 0 k;
      do B21 <- partition other k 0;
      do B22 <- partition other k k;
      do t <- operator_minus B12 B22;
      do P1 <- strassen_as_specified fuel A11 t;
      do t <- operator_plus A11 A12;
      do P2 <- strassen_as_specified fuel t B22;
      do t <- operator_plus A21 A22;
      do P3 <- strassen_as_specified fuel t B11;
      do t <- operator_minus B21 B11;
      do P4 <- strassen_as_specified fuel A22 t;
      do t <- operator_plus A11 A22;
      do u <- operator_plus B11 B22;
      do P5 <- strassen_as_specified fuel t u;
      do t <- operator_minus A12 A22;
      do u <- operator_plus B21 B22;
      do P6 <- strassen_as_specified fuel t u;
      do t <- operator_minus A11 A21;
      do u <- operator_plus B11 B12;
      do P7 <- strassen_as_specified fuel t u;
      do t <- operator_plus P5 P4;
      do t <- operator_minus t P2;
      do R_11 <- operator_plus t P6;
      do R_12 <- operator_plus P1 P2;
      do R_21 <- operator_plus P3 P4;
      do t <- operator_plus P5 P1;
      do t <- operator_minus t P3;
      do R_22 <- operator_minus t P7;
      do result <- new_matrix (m_size m);
      do_ combine result R_11 R_12 R_21 R_22;
      ret result
  end.

Definition A1 : Matrix := mkMatrix 1 [7]%Z.
Definition B1 : Matrix := mkMatrix 1 [6]%Z.

Definition A4 : Matrix :=
  mkMatrix 4 [1; 2; 3; 4; 5; 6; 7; 8; 9; 10; 11; 12; 13; 14; 15; 16]%Z.
Definition I4 : Matrix :=
  mkMatrix 4 [1; 0; 0; 0; 0; 1; 0; 0; 0; 0; 1; 0; 0; 0; 0; 1]%Z.

(** ** What the methods compute

    Functional descriptions of the results, in the words of the
    specification: entries in row-major order, the quadrants of a matrix,
    the matrix assembled from four quadrants, element-wise sum and
    difference, and the product as a triple loop of sums of products. *)

Definition entry (m : Matrix) (i j : N) : Z :=
  nth (N.to_nat (i * m_size m + j)) (m_data m) 0%Z.

Definition indices (n : N) : list N := N.of_nat <$> seq 0 (N.to_nat n).

Definition grid (n : N) (g : N -> N -> Z) : list Z :=
  (fun p => g (p / n) (p mod n)) <$> indices (n * n).

Definition tabulate (n : N) (g : N -> N -> Z) : Matrix :=
  mkMatrix n (grid n g).

Definition zeros (n : N) : Matrix :=
  mkMatrix n (replicate (N.to_nat (Size.mul n n)) 0%Z).

Definition quadrant (m : Matrix) (row_start col_start : N) : Matrix :=
  tabulate (m_size m / 2)
    (fun i j => entry m (i + row_start) (j + col_start)).

Definition quad_entry (half : N) (Q11 Q12 Q21 Q22 : Matrix) (i j : N) : Z :=
  if i <? half
  then if j <? half then entry Q11 i j else entry Q12 i (j - half)
  else if j <? half then entry Q21 (i - half) j
       else entry Q22 (i - half) (j - half).

Definition assemble (Q11 Q12 Q21 Q22 : Matrix) : Matrix :=
  let half := m_size Q11 in
  tabulate (2 * half) (quad_entry half Q11 Q12 Q21 Q22).

Definition pointwise (op : Z -> Z -> Z) (a b : Matrix) : Matrix :=
  mkMatrix (m_size a) (zip_with op (m_data a) (m_data b)).

Definition madd : Matrix -> Matrix -> Matrix := pointwise Int.add.
Definition msub : Matrix -> Matrix -> Matrix := pointwise Int.sub.

(** The reference product: for every row [i] and column [j], the sum over
    [l] of [a(i,l) * b(l,j)], accumulated in an [int]. *)
Definition product_entry (a b : Matrix) (i j : N) : Z :=
  fold_left (fun acc l => Int.add acc (Int.mul (entry a i l) (entry b l j)))
            (indices (m_size a)) 0%Z.

Definition product (a b : Matrix) : Matrix :=
  tabulate (m_size a) (product_entry a b).

(** The product by blocks: the four quadrants of the result from eight
    products of quadrants, [mul] being the product of the half-size
    matrices. *)
Definition block_product (mul : Matrix -> Matrix -> Matrix) (a b : Matrix)
  : Matrix :=
  let k := m_size a / 2 in
  let A11 := quadrant a 0 0 in let A12 := quadrant a 0 k in
  let A21 := quadrant a k 0 in let A22 := quadrant a k k in
  let B11 := quadrant b 0 0 in let B12 := quadrant b 0 k in
  let B21 := quadrant b k 0 in let B22 := quadrant b k k in
  assemble (madd (mul A11 B11) (mul A12 B21))
           (madd (mul A11 B12) (mul A12 B22))
           (madd (mul A21 B11) (mul A22 B21))
           (madd (mul A21 B12) (mul A22 B22)).

(** Strassen's seven products and the four quadrants assembled from them,
    with the chained sums and differences taken from left to right. *)
Definition strassen_product (mul : Matrix -> Matrix -> Matrix) (a b : Matrix)
  : Matrix :=
  let k := m_size a / 2 in
  let A11 := quadrant a 0 0 in let A12 := quadrant a 0 k in
  let A21 := quadrant a k 0 in let A22 := quadrant a k k in
  let B11 := quadrant b 0 0 in let B12 := quadrant b 0 k in
  let B21 := quadrant b k 0 in let B22 := quadrant b k k in
  let P1 := mul A11 (msub B12 B22) in
  let P2 := mul (madd A11 A12) B22 in
  let P3 := mul (madd A21 A22) B11 in
  let P4 := mul A22 (msub B21 B11) in
  let P5 := mul (madd A11 A22) (madd B11 B22) in
  let P6 := mul (msub A12 A22) (madd B21 B22) in
  let P7 := mul (msub A11 A21) (madd B11 B12) in
  assemble (madd (msub (madd P5 P4) P2) P6)
           (madd P1 P2)
           (madd P3 P4)
           (msub (msub (madd P5 P1) P3) P7).

(** The same sum over the integers, without any wrap-around. *)
Fixpoint sum_upto (n : nat) (f : N -> Z) : Z :=
  match n with
  | O => 0%Z
  | S n' => (sum_upto n' f + f (N.of_nat n'))%Z
  end.

Definition dot (a b : Matrix) (i j : N) : Z :=
  sum_upto (N.to_nat (m_size a)) (fun l => (entry a i l * entry b l j)%Z).

Definition power_of_two (s : N) : Prop := exists k : N, s = 2 ^ k.

(** A matrix of size [2 ^ k] whose buffer holds [size * size] values of
    type [int] and can be addressed with a [size_t]. *)
Definition well_formed (k : nat) (m : Matrix) : Prop :=
  (k <= 31)%nat /\
  m_size m = 2 ^ N.of_nat k /\
  length (m_data m) = N.to_nat (m_size m * m_size m) /\
  Forall Int.in_range (m_data m).

Definition eqm (a b : Z) : Prop := (a mod 2 ^ 32 = b mod 2 ^ 32)%Z.

(** ** Assertions about runs *)

(** The entries of the trace at size [n] or above: every entry of
    [strassen], and the entries of [multiply] at a size of at least [n]. *)
Definition at_level (n : N) (c : call) : bool :=
  match c with
  | call_strassen _ => true
  | call_multiply s => n <=? s
  end.

Definition calls_from (n : N) (st : state) : list call :=
  List.filter (at_level n) (trace st).

(** The recorded steps on matrices of size [n] or above: every step of
    [strassen], and the other steps whose first operand has a size of at
    least [n]. *)
Definition step_level (n : N) (e : step) : bool :=
  match e with
  | step_strassen _ _ => true
  | step_plus a _ | step_minus a _ | step_multiply a _ => n <=? m_size a
  | step_combine a _ _ _ => n <=? m_size a
  end.

Definition steps_from (n : N) (st : state) : list step :=
  List.filter (step_level n) (steps st).

(** The steps that a run of [strassen] on [a] and [b], of a size above 1,
    records at the half size, first to last: its own entry; for each of
    the seven products the sum or difference that makes the receiver,
    the one that makes the argument, and the call of [multiply] on the
    two; the sums and differences for the four quadrants, each chain from
    left to right; and [combine] on the four. *)
Definition strassen_run_steps (a b : Matrix) : list step :=
  let k := m_size a / 2 in
  let A11 := quadrant a 0 0 in let A12 := quadrant a 0 k in
  let A21 := quadrant a k 0 in let A22 := quadrant a k k in
  let B11 := quadrant b 0 0 in let B12 := quadrant b 0 k in
  let B21 := quadrant b k 0 in let B22 := quadrant b k k in
  let P1 := product A11 (msub B12 B22) in
  let P2 := product (madd A11 A12) B22 in
  let P3 := product (madd A21 A22) B11 in
  let P4 := product A22 (msub B21 B11) in
  let P5 := product (madd A11 A22) (madd B11 B22) in
  let P6 := product (msub A12 A22) (madd B21 B22) in
  let P7 := product (msub A11 A21) (madd B11 B12) in
  [ step_strassen a b;
    step_minus B12 B22; step_multiply A11 (msub B12 B22);
    step_plus A11 A12; step_multiply (madd A11 A12) B22;
    step_plus A21 A22; step_multiply (madd A21 A22) B11;
    step_minus B21 B11; step_multiply A22 (msub B21 B11);
    step_plus A11 A22; step_plus B11 B22;
    step_multiply (madd A11 A22) (madd B11 B22);
    step_minus A12 A22; step_plus B21 B22;
    step_multiply (msub A12 A22) (madd B21 B22);
    step_minus A11 A21; step_plus B11 B12;
    step_multiply (msub A11 A21) (madd B11 B12);
    step_plus P5 P4; step_minus (madd P5 P4) P2;
    step_plus (msub (madd P5 P4) P2) P6;
    step_plus P1 P2;
    step_plus P3 P4;
    step_plus P5 P1; step_minus (madd P5 P1) P3;
    step_minus (msub (madd P5 P1) P3) P7;
    step_combine (madd (msub (madd P5 P4) P2) P6) (madd P1 P2)
                 (madd P3 P4) (msub (msub (madd P5 P1) P3) P7) ].

(** The entries that a call of [strassen] at size [s] adds to the trace,
    at the level of its products: its own entry, then the entries of
    [multiply] for the products. *)
Definition strassen_level (s : N) : N := if s =? 1 then 1 else s / 2.

Definition strassen_entries (s : N) : list call :=
  (if s =? 1 then [call_multiply 1]
   else replicate 7 (call_multiply (s / 2))) ++ [call_strassen s].

(** The run of [m] from [st] returns normally and [Q] holds of the value
    and the final state. *)
Definition wp {A} (m : M A) (Q : A -> state -> Prop) (st : state) : Prop :=
  match m st with
  | (Ok a, st') => Q a st'
  | (Err _, _) => False
  end.

(** [st'] has every object of [st], unchanged, and possibly new ones. *)
Definition extends (st st' : state) : Prop := objs st `prefix_of` objs st'.

(** [l] is an object that [st] did not have and that holds [R] in [st']. *)
Definition allocated (st : state) (R : Matrix) (l : loc) (st' : state)
  : Prop :=
  extends st st' /\ (length (objs st) <= l)%nat /\ objs st' !! l = Some R.

(** Whatever the outcome of [m], a property [Inv] of the store that held
    before the run holds after it, and a returned value satisfies [Q]. *)
Definition keeps {A} (Inv : list Matrix -> Prop) (m : M A) (Q : A -> Prop)
  : Prop :=
  forall st, Inv (objs st) ->
    Inv (objs (snd (m st))) /\
    match fst (m st) with Ok a => Q a | Err _ => True end.

(** Every object of [h] is in [h'], unchanged. *)
Definition unchanged (h h' : list Matrix) : Prop :=
  forall l x, h !! l = Some x -> h' !! l = Some x.

(** Every object of [h] is in [h'] with the size it had and a buffer of
    the length it had. *)
Definition same_shape (h h' : list Matrix) : Prop :=
  forall l m, h !! l = Some m ->
    exists d, h' !! l = Some (mkMatrix (m_size m) d) /\
              length d = length (m_data m).

(** [h'] differs from [h] at most in the object at [t]. *)
Definition changed_at_most (t : loc) (h h' : list Matrix) : Prop :=
  length h' = length h /\ forall l, l <> t -> h' !! l = h !! l.

(** The state [st] with the object at [t] replaced by a matrix of size [n]
    over the buffer [d]. *)
Definition with_object (st : state) (t : loc) (n : N) (d : list Z) : state :=
  set_objs st (<[t := mkMatrix n d]> (objs st)).

(** The buffer in which the first [p] cells of [d0] were overwritten by
    those of [G]. *)
Definition overwritten (G d0 : list Z) (p : nat) : list Z :=
  take p G ++ drop p d0.

(** ** Compositions of the operations *)

(** [m.at_ref(r, c) = x] *)
Definition assign_at (this : loc) (r c : N) (x : Z) : M unit :=
  do ref <- at_ref this r c; store ref x.

(** [combine] into [this], then [this.partition(r, c)]. *)
Definition combine_then_partition (this q11 q12 q21 q22 : loc) (r c : N)
  : M loc :=
  do_ combine this q11 q12 q21 q22; partition this r c.

(** [(a + b) + c] and [a + (b + c)] *)
Definition sum_left (a b c : loc) : M loc :=
  do s <- operator_plus a b; operator_plus s c.

Definition sum_right (a b c : loc) : M loc :=
  do s <- operator_plus b c; operator_plus a s.

(** [(a - b) + b] *)
Definition minus_then_plus (a b : loc) : M loc :=
  do d <- operator_minus a b; operator_plus d b.

(** [a * (b + c)] and [a * b + a * c] *)
Definition times_sum (a b c : loc) : M loc :=
  do s <- operator_plus b c; operator_times a s.

Definition sum_of_times (a b c : loc) : M loc :=
  do p <- operator_times a b;
  do q <- operator_times a c;
  operator_plus p q.

(** [(a + b) * c] and [a * c + b * c] *)
Definition sum_times (a b c : loc) : M loc :=
  do s <- operator_plus a b; operator_times s c.

Definition sum_of_times_right (a b c : loc) : M loc :=
  do p <- operator_times a c;
  do q <- operator_times b c;
  operator_plus p q.

(** [(a * b) * c] and [a * (b * c)] *)
Definition times_left (a b c : loc) : M loc :=
  do p <- operator_times a b; operator_times p c.

Definition times_right (a b c : loc) : M loc :=
  do q <- operator_times b c; operator_times a q.

(** The identity matrix of size [n]. *)
Definition identity (n : N) : Matrix :=
  tabulate n (fun i j => if i =? j then 1%Z else 0%Z).

(** The entries that a call of [multiply] at size [2 ^ k] adds to the
    trace, most recent first: those of its eight products at half the size,
    then its own. *)
Fixpoint multiply_calls (k : nat) : list call :=
  match k with
  | O => [call_multiply 1]
  | S k' =>
      concat (replicate 8 (multiply_calls k')) ++
      [call_multiply (2 ^ N.of_nat (S k'))]
  end.

(** The calls of [multiply] at size 1 in a trace: each of them multiplies
    two elements. *)
Definition scalar_products (t : list call) : nat :=
  length (List.filter
            (fun c => match c with
                      | call_multiply s => s =? 1
                      | call_strassen _ => false
                      end) t).

(** Four matrices of size 1, to be combined. *)
Definition Q_1 : Matrix := mkMatrix 1 [1]%Z.
Definition Q_2 : Matrix := mkMatrix 1 [2]%Z.
Definition Q_3 : Matrix := mkMatrix 1 [3]%Z.
Definition Q_4 : Matrix := mkMatrix 1 [4]%Z.

(** The next [n] values that [randomize] draws in the state [st]. *)
Definition random_values (st : state) (n : nat) : list Z :=
  (fun i => (random_int (host st) (drawn st + i)%nat mod 19 - 9)%Z)
    <$> seq 0 n.

Definition B4 : Matrix :=
  mkMatrix 4 [1; 0; 2; 0; 0; 1; 0; 2; 3; 0; 4; 0; 0; 3; 0; 4]%Z.

(** The run of [m] from [st] ends with the error [e]. *)
Definition fails {A} (e : error) (m : M A) (st : state) : Prop :=
  exists st', m st = (Err e, st').

(** The block of the first [n] rows and columns of [m]. *)
Definition corner (n : N) (m : Matrix) : Matrix :=
  tabulate n (fun i j => entry m i j).

(** ** Printing

    [print] writes to [std::cout].  Characters are bytes, and the stream
    is the sequence of the bytes written so far, kept beside the state of
    the objects. *)

Definition space : Byte.byte := Byte.x20.
Definition newline : Byte.byte := Byte.x0a.
Definition minus_sign : Byte.byte := Byte.x2d.

Definition digit (d : N) : Byte.byte :=
  match d with
  | 0 => Byte.x30 | 1 => Byte.x31 | 2 => Byte.x32 | 3 => Byte.x33
  | 4 => Byte.x34 | 5 => Byte.x35 | 6 => Byte.x36 | 7 => Byte.x37
  | 8 => Byte.x38 | _ => Byte.x39
  end.

(** The decimal digits of [n] before those of [acc], most significant
    first; [fuel] bounds their number, and an [int] has at most ten. *)
Fixpoint decimal (fuel : nat) (n : N) (acc : list Byte.byte)
  : list Byte.byte :=
  match fuel with
  | O => acc
  | S fuel' =>
      let acc' := digit (n mod 10) :: acc in
      if n / 10 =? 0 then acc' else decimal fuel' (n / 10) acc'
  end.

(** [std::cout << x] for an [int] [x]. *)
Definition show_int (x : Z) : list Byte.byte :=
  let ds := decimal 10 (Z.abs_N x) [] in
  if (x <? 0)%Z then minus_sign :: ds else ds.

(** [std::setw(w)] on the next field: padded with spaces on the left to
    [w] characters, and never cut. *)
Definition setw (w : nat) (s : list Byte.byte) : list Byte.byte :=
  replicate (w - length s) space ++ s.

Record console : Type := mkConsole {
  written : list Byte.byte;   (* what std::cout has received, in order *)
  world : state
}.

Definition IO (A : Type) : Type := console -> result A * console.

Definition io_ret {A} (a : A) : IO A := fun c => (Ok a, c).

Definition io_bind {A B} (m : IO A) (f : A -> IO B) : IO B :=
  fun c => match m c with
           | (Ok a, c') => f a c'
           | (Err e, c') => (Err e, c')
           end.

(** A method of the class, run on the objects. *)
Definition lift {A} (m : M A) : IO A := fun c =>
  match m (world c) with
  | (r, st') => (r, mkConsole (written c) st')
  end.

(** [std::cout << s] *)
Definition put (s : list Byte.byte) : IO unit := fun c =>
  (Ok tt, mkConsole (written c ++ s) (world c)).

Fixpoint io_for_loop (n : nat) (i : N) (body : N -> IO unit) : IO unit :=
  match n with
  | O => io_ret tt
  | S n' => io_bind (body i) (fun _ => io_for_loop n' (N.succ i) body)
  end.

Definition io_for_range (hi : N) (body : N -> IO unit) : IO unit :=
  io_for_loop (N.to_nat hi) 0 body.

Definition print (this : loc) : IO unit :=
  io_bind (lift (deref this)) (fun m =>
  io_bind
    (io_for_range (m_size m) (fun i =>
       io_bind
         (io_for_range (m_size m) (fun j =>
            io_bind (lift (at_ this i j)) (fun x =>
            put (setw 4 (show_int x) ++ [space]))))
         (fun _ => put [newline])))
    (fun _ => put [newline])).

(** The text of a matrix: each element in a field of four characters and
    a space, a line per row, and an empty line at the end. *)
Definition field (x : Z) : list Byte.byte := setw 4 (show_int x) ++ [space].

Definition row_text (m : Matrix) (i : N) : list Byte.byte :=
  concat ((fun j => field (entry m i j)) <$> indices (m_size m)) ++ [newline].

Definition matrix_text (m : Matrix) : list Byte.byte :=
  concat (row_text m <$> indices (m_size m)) ++ [newline].

(** * Proofs *)

(** ** Arithmetic of [int] *)

Lemma wrap_in_range z : Int.in_range (Int.wrap z).
Proof.
  unfold Int.in_range, Int.wrap, Int.min_int, Int.max_int.
  pose proof (Z.mod_pos_bound (z + 2 ^ 31) (2 ^ 32)) as H. lia.
Qed.

Lemma wrap_id z : Int.in_range z -> Int.wrap z = z.
Proof.
  unfold Int.in_range, Int.wrap, Int.min_int, Int.max_int. intros H.
  rewrite Z.mod_small; lia.
Qed.

Lemma wrap_eqm z : eqm (Int.wrap z) z.
Proof.
  unfold eqm, Int.wrap.
  rewrite Zminus_mod_idemp_l. f_equal. lia.
Qed.

Lemma eqm_wrap a b : eqm a b -> Int.wrap a = Int.wrap b.
Proof.
  unfold eqm, Int.wrap. intros H.
  rewrite <- (Zplus_mod_idemp_l a), <- (Zplus_mod_idemp_l b), H. reflexivity.
Qed.

#[local] Instance eqm_equiv : Equivalence eqm.
Proof.
  unfold eqm. split.
  - intros x. reflexivity.
  - intros x y H. symmetry. exact H.
  - intros x y z H1 H2. congruence.
Qed.

#[local] Instance eqm_add : Proper (eqm ==> eqm ==> eqm) Z.add.
Proof.
  unfold eqm. intros a a' Ha b b' Hb.
  rewrite (Z.add_mod a), (Z.add_mod a') by lia. rewrite Ha, Hb. reflexivity.
Qed.

#[local] Instance eqm_sub : Proper (eqm ==> eqm ==> eqm) Z.sub.
Proof.
  unfold eqm. intros a a' Ha b b' Hb.
  rewrite (Zminus_mod a), (Zminus_mod a'). rewrite Ha, Hb. reflexivity.
Qed.

#[local] Instance eqm_mul : Proper (eqm ==> eqm ==> eqm) Z.mul.
Proof.
  unfold eqm. intros a a' Ha b b' Hb.
  rewrite (Z.mul_mod a), (Z.mul_mod a') by lia. rewrite Ha, Hb. reflexivity.
Qed.

#[local] Instance wrap_proper : Proper (eqm ==> eq) Int.wrap.
Proof. intros a b H. apply eqm_wrap, H. Qed.

#[local] Instance sum_upto_proper n :
  Proper (pointwise_relation N eqm ==> eqm) (sum_upto n).
Proof.
  intros f g H. induction n as [|n IH]; simpl.
  - reflexivity.
  - rewrite IH, (H (N.of_nat n)). reflexivity.
Qed.

Lemma wrap_wrap z : Int.wrap (Int.wrap z) = Int.wrap z.
Proof. apply eqm_wrap, wrap_eqm. Qed.

(** ** Sums *)

Lemma sum_upto_ext n f g :
  (forall l, l < N.of_nat n -> f l = g l) -> sum_upto n f = sum_upto n g.
Proof.
  induction n as [|n IH]; intros H; simpl; [reflexivity|].
  rewrite IH, (H (N.of_nat n)) by (intros; try apply H; lia). reflexivity.
Qed.

Lemma sum_upto_plus n f g :
  sum_upto n (fun l => (f l + g l)%Z) = (sum_upto n f + sum_upto n g)%Z.
Proof. induction n as [|n IH]; simpl; [reflexivity|]. rewrite IH. ring. Qed.

Lemma sum_upto_minus n f g :
  sum_upto n (fun l => (f l - g l)%Z) = (sum_upto n f - sum_upto n g)%Z.
Proof. induction n as [|n IH]; simpl; [reflexivity|]. rewrite IH. ring. Qed.

Lemma sum_upto_split a b f :
  sum_upto (a + b) f =
  (sum_upto a f + sum_upto b (fun l => f (N.of_nat a + l)%N))%Z.
Proof.
  induction b as [|b IH].
  - rewrite Nat.add_0_r. simpl. ring.
  - rewrite Nat.add_succ_r. simpl. rewrite IH.
    replace (N.of_nat (a + b)) with (N.of_nat a + N.of_nat b) by lia. ring.
Qed.

(** ** Row-major tables *)

Lemma length_indices n : length (indices n) = N.to_nat n.
Proof. unfold indices. rewrite length_fmap, length_seq. reflexivity. Qed.

Lemma lookup_indices n (p : nat) :
  (p < N.to_nat n)%nat -> indices n !! p = Some (N.of_nat p).
Proof.
  intros H. unfold indices.
  rewrite list_lookup_fmap, lookup_seq_lt by exact H. reflexivity.
Qed.

Lemma indices_succ n : indices (N.succ n) = indices n ++ [n].
Proof.
  unfold indices. rewrite N2Nat.inj_succ, seq_S, fmap_app. simpl.
  rewrite N2Nat.id. reflexivity.
Qed.

Lemma length_grid n g : length (grid n g) = N.to_nat (n * n).
Proof. unfold grid. rewrite length_fmap. apply length_indices. Qed.

Lemma div_row_major n i j : j < n -> (i * n + j) / n = i.
Proof. intros H. symmetry. apply (N.div_unique _ _ _ j); lia. Qed.

Lemma mod_row_major n i j : j < n -> (i * n + j) mod n = j.
Proof. intros H. symmetry. apply (N.mod_unique _ _ i); lia. Qed.

Lemma row_major_lt n i j : i < n -> j < n -> i * n + j < n * n.
Proof. nia. Qed.

Lemma lookup_grid n g i j :
  i < n -> j < n -> grid n g !! N.to_nat (i * n + j) = Some (g i j).
Proof.
  intros Hi Hj. unfold grid.
  pose proof (row_major_lt n i j Hi Hj).
  rewrite list_lookup_fmap, lookup_indices by lia. simpl.
  rewrite N2Nat.id, div_row_major, mod_row_major by assumption.
  reflexivity.
Qed.

Lemma entry_tabulate n g i j :
  i < n -> j < n -> entry (tabulate n g) i j = g i j.
Proof.
  intros Hi Hj. unfold entry. simpl.
  rewrite nth_lookup, lookup_grid by assumption. reflexivity.
Qed.

Lemma grid_ext n g g' :
  (forall i j, i < n -> j < n -> g i j = g' i j) -> grid n g = grid n g'.
Proof.
  intros H. unfold grid. apply list_eq. intros p.
  rewrite !list_lookup_fmap.
  destruct (indices (n * n) !! p) as [q|] eqn:Hq; [|reflexivity]. simpl.
  assert (q < n * n) as Hlt.
  { pose proof (lookup_lt_Some _ _ _ Hq) as Hp.
    rewrite length_indices in Hp.
    rewrite lookup_indices in Hq by exact Hp. injection Hq as <-. lia. }
  assert (0 < n) by (destruct n; lia).
  f_equal. apply H.
  - apply N.Div0.div_lt_upper_bound. lia.
  - apply N.mod_lt. lia.
Qed.

Lemma grid_entry m :
  0 < m_size m ->
  length (m_data m) = N.to_nat (m_size m * m_size m) ->
  grid (m_size m) (entry m) = m_data m.
Proof.
  intros Hpos Hlen. apply list_eq. intros p. unfold grid.
  rewrite list_lookup_fmap.
  destruct (decide (p < N.to_nat (m_size m * m_size m))%nat) as [Hp|Hp].
  - rewrite lookup_indices by exact Hp. simpl. unfold entry.
    rewrite nth_lookup.
    replace (N.of_nat p / m_size m * m_size m + N.of_nat p mod m_size m)
      with (N.of_nat p).
    + rewrite Nat2N.id.
      destruct (lookup_lt_is_Some_2 (m_data m) p) as [x Hx]; [lia|].
      rewrite Hx. reflexivity.
    + rewrite (N.div_mod' (N.of_nat p) (m_size m)) at 1. lia.
  - rewrite (lookup_ge_None_2 (indices _)) by (rewrite length_indices; lia).
    rewrite lookup_ge_None_2 by lia. reflexivity.
Qed.

Lemma tabulate_entry m :
  0 < m_size m ->
  length (m_data m) = N.to_nat (m_size m * m_size m) ->
  tabulate (m_size m) (entry m) = m.
Proof.
  intros Hpos Hlen. unfold tabulate. rewrite grid_entry by assumption.
  destruct m; reflexivity.
Qed.

(** ** Runs of the monad *)

Lemma set_objs_id st : set_objs st (objs st) = st.
Proof. destruct st; reflexivity. Qed.

Lemma set_objs_twice st a b : set_objs (set_objs st a) b = set_objs st b.
Proof. reflexivity. Qed.

Lemma bind_ok {A B} (m : M A) (f : A -> M B) st a st' :
  m st = (Ok a, st') -> bind m f st = f a st'.
Proof. intros H. unfold bind. rewrite H. reflexivity. Qed.

Lemma bind_err {A B} (m : M A) (f : A -> M B) st e st' :
  m st = (Err e, st') -> bind m f st = (Err e, st').
Proof. intros H. unfold bind. rewrite H. reflexivity. Qed.

Lemma wp_bind {A B} (m : M A) (f : A -> M B) Q st :
  wp m (fun a st' => wp (f a) Q st') st -> wp (bind m f) Q st.
Proof.
  unfold wp, bind. destruct (m st) as [[a|e] st']; intros H; exact H.
Qed.

Lemma wp_ret {A} (a : A) (Q : A -> state -> Prop) st : Q a st -> wp (ret a) Q st.
Proof. intros H. exact H. Qed.

Lemma wp_run {A} (m : M A) (Q : A -> state -> Prop) st a st' :
  m st = (Ok a, st') -> Q a st' -> wp m Q st.
Proof. intros H HQ. unfold wp. rewrite H. exact HQ. Qed.

Lemma wp_inv {A} (m : M A) (Q : A -> state -> Prop) st :
  wp m Q st -> exists a st', m st = (Ok a, st') /\ Q a st'.
Proof.
  unfold wp. destruct (m st) as [[a|e] st']; intros H; [|contradiction].
  exists a, st'. split; [reflexivity | exact H].
Qed.

Lemma wp_mono {A} (m : M A) (Q Q' : A -> state -> Prop) st :
  wp m Q st -> (forall a st', Q a st' -> Q' a st') -> wp m Q' st.
Proof.
  unfold wp. destruct (m st) as [[a|e] st']; intros H HQ; [|contradiction].
  apply HQ, H.
Qed.

(** A loop whose [k]-th iteration leads from [S k] to [S (k + 1)]. *)
Lemma for_loop_progress body (S : N -> state) cnt i st0 st1 :
  st0 = S i -> st1 = S (i + N.of_nat cnt) ->
  (forall k, i <= k -> k < i + N.of_nat cnt ->
             body k (S k) = (Ok tt, S (N.succ k))) ->
  for_loop cnt i body st0 = (Ok tt, st1).
Proof.
  revert i st0. induction cnt as [|cnt IH]; intros i st0 -> -> Hstep.
  - simpl. replace (i + N.of_nat 0) with i by lia. reflexivity.
  - simpl. erewrite bind_ok by (apply Hstep; lia).
    apply IH; [reflexivity | f_equal; lia |].
    intros k Hk1 Hk2. apply Hstep; lia.
Qed.

Lemma for_range_progress body (S : N -> state) hi st0 st1 :
  st0 = S 0 -> st1 = S hi ->
  (forall k, k < hi -> body k (S k) = (Ok tt, S (N.succ k))) ->
  for_range hi body st0 = (Ok tt, st1).
Proof.
  intros -> -> Hstep. unfold for_range.
  apply (for_loop_progress body S); [reflexivity | f_equal; lia |].
  intros k _ Hk. apply Hstep. lia.
Qed.

(** ** One object of the store under construction *)

Section WithObject.
Variables (st : state) (t : loc) (n : N).
Hypothesis Ht : (t < length (objs st))%nat.

Lemma lookup_with_object d :
  objs (with_object st t n d) !! t = Some (mkMatrix n d).
Proof using Ht. simpl. apply list_lookup_insert_eq, Ht. Qed.

Lemma lookup_with_object_ne d l :
  l <> t -> objs (with_object st t n d) !! l = objs st !! l.
Proof. intros H. simpl. apply list_lookup_insert_ne. congruence. Qed.

Lemma with_object_twice d d' :
  with_object (with_object st t n d) t n d' = with_object st t n d'.
Proof.
  unfold with_object. rewrite set_objs_twice. simpl.
  rewrite list_insert_insert_eq. reflexivity.
Qed.

Lemma deref_with_object d :
  deref t (with_object st t n d) = (Ok (mkMatrix n d), with_object st t n d).
Proof using Ht. unfold deref. rewrite lookup_with_object. reflexivity. Qed.

Lemma store_with_object d p x :
  (N.to_nat p < length d)%nat ->
  store (t, p) x (with_object st t n d) =
  (Ok tt, with_object st t n (<[N.to_nat p := x]> d)).
Proof using Ht.
  intros Hp. unfold store. simpl fst. simpl snd.
  erewrite bind_ok by apply deref_with_object. cbn [m_data].
  rewrite decide_True by exact Hp.
  unfold set_data. rewrite lookup_with_object. simpl m_size.
  f_equal. apply with_object_twice.
Qed.

Lemma load_with_object d p x :
  d !! N.to_nat p = Some x ->
  load (t, p) (with_object st t n d) = (Ok x, with_object st t n d).
Proof using Ht.
  intros Hp. unfold load. simpl fst. simpl snd.
  erewrite bind_ok by apply deref_with_object. cbn [m_data].
  rewrite Hp. reflexivity.
Qed.

Hypothesis Hn : n * n < Size.modulus.

Lemma get_index_with_object d i j :
  length d = N.to_nat (n * n) -> i < n -> j < n ->
  get_index t i j (with_object st t n d) =
  (Ok (i * n + j), with_object st t n d).
Proof using Ht Hn.
  intros Hd Hi Hj. unfold get_index.
  erewrite bind_ok by apply deref_with_object. cbn [m_size m_data].
  pose proof (row_major_lt n i j Hi Hj) as Hlt.
  assert (Size.add (Size.mul i n) j = i * n + j) as ->.
  { unfold Size.add, Size.mul, Size.wrap.
    rewrite (N.mod_small (i * n)) by lia. apply N.mod_small. lia. }
  unfold vec_size. rewrite Hd, N2Nat.id.
  destruct (N.ltb_spec (i * n + j) (n * n)); [reflexivity | lia].
Qed.

End WithObject.

Lemma with_object_id st t m :
  objs st !! t = Some m -> with_object st t (m_size m) (m_data m) = st.
Proof.
  intros H. unfold with_object.
  replace (mkMatrix (m_size m) (m_data m)) with m by (destruct m; reflexivity).
  rewrite list_insert_id by exact H. apply set_objs_id.
Qed.

Lemma length_with_object st t n d :
  length (objs (with_object st t n d)) = length (objs st).
Proof. simpl. apply length_insert. Qed.

(** ** Filling a buffer cell by cell *)

Lemma overwritten_step G d0 p x :
  G !! p = Some x -> (p < length d0)%nat ->
  <[p := x]> (overwritten G d0 p) = overwritten G d0 (S p).
Proof.
  intros HG Hp. unfold overwritten.
  pose proof (lookup_lt_Some _ _ _ HG) as HpG.
  destruct (lookup_lt_is_Some_2 d0 p Hp) as [y Hy].
  rewrite (take_S_r _ _ _ HG), (drop_S _ _ _ Hy).
  rewrite insert_app_r_alt by (rewrite length_take; lia).
  rewrite length_take, Nat.min_l, Nat.sub_diag by lia. simpl.
  rewrite <- app_assoc. reflexivity.
Qed.

Lemma length_overwritten G d0 p :
  length G = length d0 -> length (overwritten G d0 p) = length d0.
Proof.
  intros H. unfold overwritten.
  rewrite length_app, length_take, length_drop. lia.
Qed.

Lemma overwritten_0 G d0 : overwritten G d0 0 = d0.
Proof. reflexivity. Qed.

Lemma overwritten_all G d0 p :
  length G = length d0 -> p = length G -> overwritten G d0 p = G.
Proof.
  intros H ->. unfold overwritten.
  rewrite take_ge, drop_ge by lia. apply app_nil_r.
Qed.

Section Fill.
Variables (st : state) (t : loc) (n : N) (d0 : list Z).
Variables (f : N -> N -> M Z) (g : N -> N -> Z).
Hypothesis Ht : (t < length (objs st))%nat.
Hypothesis Hn : n * n < Size.modulus.
Hypothesis Hd0 : length d0 = N.to_nat (n * n).
Hypothesis Hf : forall i j d, i < n -> j < n ->
  length d = N.to_nat (n * n) ->
  f i j (with_object st t n d) = (Ok (g i j), with_object st t n d).

Let cell (i j : N) : M unit :=
  do x <- f i j; do r <- at_ref t i j; store r x.

Let progress (p : N) : state :=
  with_object st t n (overwritten (grid n g) d0 (N.to_nat p)).

Lemma fill_cell i j :
  i < n -> j < n ->
  cell i j (progress (i * n + j)) = (Ok tt, progress (i * n + N.succ j)).
Proof using Ht Hn Hd0 Hf.
  intros Hi Hj. unfold cell, progress.
  pose proof (row_major_lt n i j Hi Hj) as Hlt.
  assert (length (overwritten (grid n g) d0 (N.to_nat (i * n + j)))
          = N.to_nat (n * n)) as Hlen.
  { rewrite length_overwritten; [exact Hd0|]. rewrite length_grid; lia. }
  erewrite bind_ok by (apply Hf; assumption).
  unfold at_ref.
  erewrite bind_ok;
    [|erewrite bind_ok by (apply get_index_with_object; assumption);
      reflexivity].
  rewrite store_with_object by (try assumption; lia).
  rewrite overwritten_step by (try apply lookup_grid; try assumption; lia).
  do 3 f_equal. lia.
Qed.

Lemma fill_row i :
  i < n ->
  for_range n (cell i) (progress (i * n)) =
  (Ok tt, progress (N.succ i * n)).
Proof using Ht Hn Hd0 Hf.
  intros Hi.
  apply (for_range_progress _ (fun j => progress (i * n + j))).
  - f_equal. lia.
  - f_equal. lia.
  - intros j Hj. apply fill_cell; assumption.
Qed.

Lemma fill_run :
  for_range n (fun i => for_range n (cell i)) (with_object st t n d0) =
  (Ok tt, with_object st t n (grid n g)).
Proof using Ht Hn Hd0 Hf.
  apply (for_range_progress _ (fun i => progress (i * n))).
  - unfold progress. rewrite N.mul_0_l. reflexivity.
  - unfold progress. rewrite overwritten_all; [reflexivity| |].
    + rewrite length_grid. lia.
    + rewrite length_grid. reflexivity.
  - intros i Hi. apply fill_row, Hi.
Qed.

End Fill.

(** ** The constructor's check *)

Lemma is_zero_floor_log2 p :
  Double.is_zero p (Double.floor_log2 p) = true <-> power_of_two (Npos p).
Proof.
  unfold Double.floor_log2, power_of_two. split.
  - destruct (Z.log2 (Z.pos p)) as [|k|k] eqn:E; unfold Double.is_zero;
      intros H.
    + apply Pos.eqb_eq in H. subst p. exists 0. reflexivity.
    + apply N.eqb_eq in H. exists (Npos k). exact H.
    + discriminate.
  - intros [k Hk].
    assert (Z.pos p = 2 ^ Z.of_N k)%Z as HZ.
    { change (Z.pos p) with (Z.of_N (Npos p)). rewrite Hk, N2Z.inj_pow.
      reflexivity. }
    rewrite HZ, Z.log2_pow2 by lia.
    destruct k as [|k]; unfold Double.is_zero, Z.of_N.
    + apply Pos.eqb_eq. change (2 ^ 0) with 1 in Hk. congruence.
    + apply N.eqb_eq. exact Hk.
Qed.

Lemma exact_check_power_of_two p :
  Double.ne_zero (Double.fmod_1 (Double.Log2 p 0)) = false
  <-> power_of_two (Npos p).
Proof.
  simpl. rewrite negb_false_iff. apply is_zero_floor_log2.
Qed.

Lemma is_power_of_two_spec p :
  Double.is_power_of_two p = true <-> power_of_two (Npos p).
Proof.
  unfold Double.is_power_of_two, power_of_two. rewrite N.eqb_eq. split.
  - intros H. eexists. exact H.
  - intros [k Hk]. rewrite Hk, N.log2_pow2 by lia. reflexivity.
Qed.

Lemma of_size_small s : s < 2 ^ 53 -> Double.of_size s = s.
Proof.
  intros H. unfold Double.of_size. cbv zeta.
  replace (N.size s - 53 =? 0) with true; [reflexivity|].
  symmetry. apply N.eqb_eq. apply N.sub_0_le.
  destruct (N.eq_dec s 0) as [->|Hne]; [simpl; lia|].
  rewrite N.size_log2 by exact Hne.
  apply N.le_succ_l. apply N.log2_lt_pow2; lia.
Qed.

Lemma of_size_pow2 k : Double.of_size (2 ^ k) = 2 ^ k.
Proof.
  destruct (N.lt_ge_cases k 53) as [Hk|Hk].
  - apply of_size_small. apply N.pow_lt_mono_r; lia.
  - unfold Double.of_size. cbv zeta.
    assert (2 ^ k <> 0) as Hne by (apply N.pow_nonzero; lia).
    rewrite N.size_log2 by exact Hne. rewrite N.log2_pow2 by lia.
    set (e := N.succ k - 53). assert (e <> 0) as He by lia.
    assert (e <= k) as Hek by lia.
    replace (e =? 0) with false by (symmetry; apply N.eqb_neq; exact He).
    rewrite N.land_ones.
    assert (2 ^ k = 2 ^ (k - e) * 2 ^ e) as Hsplit
      by (rewrite <- N.pow_add_r; f_equal; lia).
    assert ((2 ^ k) mod 2 ^ e = 0) as ->.
    { rewrite Hsplit. apply N.Div0.mod_mul. }
    rewrite N.shiftl_1_l.
    assert (2 ^ (e - 1) <> 0) as Hh by (apply N.pow_nonzero; lia).
    replace (2 ^ (e - 1) <? 0) with false by (symmetry; apply N.ltb_ge; lia).
    replace (0 =? 2 ^ (e - 1)) with false by (symmetry; apply N.eqb_neq; lia).
    cbn [orb andb].
    rewrite N.shiftr_div_pow2, N.shiftl_mul_pow2.
    rewrite Hsplit at 1. rewrite N.div_mul by (apply N.pow_nonzero; lia).
    symmetry. exact Hsplit.
Qed.

(** The check passes on every power of two, whatever the library. *)
Lemma check_power_of_two whole s :
  power_of_two s ->
  Double.ne_zero (Double.fmod_1 (Double.rounded whole (Double.log2 s)))
  = false.
Proof.
  intros Hs. pose proof Hs as [k Hk]. unfold Double.log2.
  rewrite Hk, of_size_pow2, <- Hk.
  destruct s as [|p]; [symmetry in Hk; apply N.pow_eq_0_iff in Hk; lia|].
  unfold Double.rounded.
  replace (Double.is_power_of_two p) with true
    by (symmetry; apply is_power_of_two_spec, Hs).
  cbn [orb]. apply exact_check_power_of_two, Hs.
Qed.

(** Below [2 ^ 32] it fails on everything else, whatever the library. *)
Lemma check_not_power_of_two whole s :
  ~ power_of_two s -> s < 2 ^ 32 ->
  Double.ne_zero (Double.fmod_1 (Double.rounded whole (Double.log2 s)))
  = true.
Proof.
  intros Hs Hlt. unfold Double.log2.
  rewrite of_size_small
    by (eapply N.lt_trans; [exact Hlt | reflexivity]).
  destruct s as [|p]; [reflexivity|].
  unfold Double.rounded.
  replace (N.pos p <? 2 ^ 32) with true by (symmetry; apply N.ltb_lt, Hlt).
  rewrite orb_true_r.
  destruct (Double.ne_zero _) eqn:E; [reflexivity|].
  apply exact_check_power_of_two in E. contradiction.
Qed.

(** ** Well-formed matrices *)

Lemma pow2_bounds (k : nat) :
  (k <= 31)%nat ->
  1 <= 2 ^ N.of_nat k /\ 2 ^ N.of_nat k <= 2 ^ 31 /\
  2 ^ N.of_nat k * 2 ^ N.of_nat k < Size.modulus.
Proof.
  intros Hk.
  assert (2 ^ N.of_nat k <= 2 ^ 31) as Hle
    by (apply N.pow_le_mono_r; lia).
  assert (2 ^ N.of_nat k <> 0) as Hne by (apply N.pow_nonzero; lia).
  unfold Size.modulus.
  change (2 ^ 64) with (2 ^ 31 * 2 ^ 31 * 4). change (2 ^ 31) with 2147483648 in *.
  split; [lia|]. split; [exact Hle|]. nia.
Qed.

Lemma pow2_succ (k : nat) : 2 ^ N.of_nat (S k) = 2 * 2 ^ N.of_nat k.
Proof. rewrite Nat2N.inj_succ. apply N.pow_succ_r'. Qed.

Lemma well_formed_bounds k m :
  well_formed k m ->
  1 <= m_size m /\ m_size m * m_size m < Size.modulus /\
  power_of_two (m_size m).
Proof.
  intros (Hk & Hs & _ & _). rewrite Hs.
  destruct (pow2_bounds k Hk) as (H1 & H2 & H3).
  split; [exact H1|]. split; [exact H3|]. exists (N.of_nat k). reflexivity.
Qed.

Lemma well_formed_half k m :
  well_formed (S k) m -> m_size m / 2 = 2 ^ N.of_nat k /\ m_size m = 2 * (m_size m / 2).
Proof.
  intros (Hk & Hs & _ & _). rewrite Hs, pow2_succ.
  replace (2 * 2 ^ N.of_nat k / 2) with (2 ^ N.of_nat k).
  - split; reflexivity.
  - rewrite N.mul_comm, N.div_mul by lia. reflexivity.
Qed.

Lemma well_formed_tabulate k g :
  (k <= 31)%nat -> (forall i j, Int.in_range (g i j)) ->
  well_formed k (tabulate (2 ^ N.of_nat k) g).
Proof.
  intros Hk Hg. split; [exact Hk|]. split; [reflexivity|]. split.
  - apply length_grid.
  - simpl. unfold grid. apply Forall_fmap, Forall_forall. intros; apply Hg.
Qed.

Lemma well_formed_entry k m i j :
  well_formed k m -> Int.in_range (entry m i j).
Proof.
  intros (_ & _ & _ & Hr). unfold entry. rewrite nth_lookup.
  destruct (m_data m !! _) as [x|] eqn:E; simpl.
  - eapply Forall_lookup_1; eassumption.
  - unfold Int.in_range, Int.min_int, Int.max_int. lia.
Qed.

Lemma well_formed_eq k m m' :
  well_formed k m -> well_formed k m' ->
  (forall i j, i < m_size m -> j < m_size m -> entry m i j = entry m' i j) ->
  m = m'.
Proof.
  intros Hm Hm' H.
  destruct (well_formed_bounds _ _ Hm) as (H1 & _ & _).
  destruct (well_formed_bounds _ _ Hm') as (H1' & _ & _).
  destruct Hm as (_ & Hs & Hl & _), Hm' as (_ & Hs' & Hl' & _).
  rewrite <- (tabulate_entry m), <- (tabulate_entry m') by (assumption || lia).
  unfold tabulate. rewrite Hs' , <- Hs. f_equal. apply grid_ext, H.
Qed.

(** ** The constructor *)

Lemma with_object_alloc st m0 n d :
  with_object (set_objs st (objs st ++ [m0])) (length (objs st)) n d =
  set_objs st (objs st ++ [mkMatrix n d]).
Proof.
  unfold with_object. rewrite set_objs_twice. simpl. f_equal.
  rewrite insert_app_r_alt by lia. rewrite Nat.sub_diag. reflexivity.
Qed.

Lemma push_back_with_object st t n d x :
  (t < length (objs st))%nat ->
  push_back t x (with_object st t n d) = (Ok tt, with_object st t n (d ++ [x])).
Proof.
  intros Ht. unfold push_back.
  erewrite bind_ok by (apply deref_with_object, Ht). cbn [m_data].
  unfold set_data. rewrite lookup_with_object by exact Ht. cbn [m_size].
  f_equal. apply with_object_twice.
Qed.

Lemma length_alloc st m :
  length (objs (set_objs st (objs st ++ [m]))) = S (length (objs st)).
Proof. simpl. rewrite length_app. simpl. lia. Qed.

Lemma push_back_loop st s hi :
  for_range hi (fun _ => push_back (length (objs st)) 0%Z)
    (set_objs st (objs st ++ [mkMatrix s []])) =
  (Ok tt, set_objs st (objs st ++ [mkMatrix s (replicate (N.to_nat hi) 0%Z)])).
Proof.
  set (st1 := set_objs st (objs st ++ [mkMatrix s []])).
  apply (for_range_progress _ (fun p =>
    with_object st1 (length (objs st)) s (replicate (N.to_nat p) 0%Z))).
  - unfold st1. rewrite with_object_alloc. reflexivity.
  - unfold st1. rewrite with_object_alloc. reflexivity.
  - intros p _. rewrite push_back_with_object
      by (unfold st1; rewrite length_alloc; lia).
    rewrite N2Nat.inj_succ, replicate_S_end. reflexivity.
Qed.

Lemma new_matrix_run st s :
  power_of_two s ->
  new_matrix s st = (Ok (length (objs st)), set_objs st (objs st ++ [zeros s])).
Proof.
  intros Hs. unfold new_matrix, Matrix_ctor.
  erewrite bind_ok by reflexivity.
  rewrite (check_power_of_two _ s Hs).
  erewrite bind_ok by reflexivity.
  erewrite bind_ok by apply push_back_loop.
  reflexivity.
Qed.

Lemma new_matrix_invalid st s e :
  ~ power_of_two s -> s < 2 ^ 32 ->
  Matrix_ctor s e st = (Err InvalidArgument, st).
Proof.
  intros Hs Hlt. unfold Matrix_ctor.
  erewrite bind_ok by reflexivity.
  rewrite (check_not_power_of_two _ s Hs Hlt). reflexivity.
Qed.

(** ** Reading an element *)

Lemma entry_lookup m p :
  (p < length (m_data m))%nat ->
  m_data m !! p = Some (nth p (m_data m) 0%Z).
Proof.
  intros Hp. rewrite nth_lookup.
  destruct (lookup_lt_is_Some_2 (m_data m) p Hp) as [x Hx].
  rewrite Hx. reflexivity.
Qed.

Section Reading.
Variables (st : state) (l : loc) (m : Matrix).
Hypothesis Hl : objs st !! l = Some m.
Hypothesis Hlen : length (m_data m) = N.to_nat (m_size m * m_size m).
Hypothesis Hsz : m_size m * m_size m < Size.modulus.

Lemma get_index_run i j :
  i < m_size m -> j < m_size m ->
  get_index l i j st = (Ok (i * m_size m + j), st).
Proof using Hl Hlen Hsz.
  intros Hi Hj. pose proof (lookup_lt_Some _ _ _ Hl) as Hlt.
  pose proof (get_index_with_object st l (m_size m) Hlt Hsz (m_data m) i j
                Hlen Hi Hj) as H.
  rewrite (with_object_id st l m Hl) in H. exact H.
Qed.

Lemma load_run p :
  (N.to_nat p < length (m_data m))%nat ->
  load (l, p) st = (Ok (nth (N.to_nat p) (m_data m) 0%Z), st).
Proof using Hl.
  intros Hp. pose proof (lookup_lt_Some _ _ _ Hl) as Hlt.
  pose proof (load_with_object st l (m_size m) Hlt (m_data m) p _
                (entry_lookup m _ Hp)) as H.
  rewrite (with_object_id st l m Hl) in H. exact H.
Qed.

Lemma at_run i j :
  i < m_size m -> j < m_size m -> at_ l i j st = (Ok (entry m i j), st).
Proof using Hl Hlen Hsz.
  intros Hi Hj. unfold at_.
  erewrite bind_ok by (apply get_index_run; assumption).
  pose proof (row_major_lt _ i j Hi Hj).
  apply load_run. lia.
Qed.

Lemma at_ref_load_run i j :
  i < m_size m -> j < m_size m ->
  (do r <- at_ref l i j; load r) st = (Ok (entry m i j), st).
Proof using Hl Hlen Hsz.
  intros Hi Hj. unfold at_ref.
  erewrite bind_ok;
    [|erewrite bind_ok by (apply get_index_run; assumption); reflexivity].
  pose proof (row_major_lt _ i j Hi Hj).
  apply load_run. lia.
Qed.

End Reading.

Lemma fill_run_at st t n d0 f g :
  objs st !! t = Some (mkMatrix n d0) ->
  n * n < Size.modulus ->
  length d0 = N.to_nat (n * n) ->
  (forall i j d, i < n -> j < n -> length d = N.to_nat (n * n) ->
     f i j (with_object st t n d) = (Ok (g i j), with_object st t n d)) ->
  for_range n (fun i => for_range n (fun j =>
     do x <- f i j; do r <- at_ref t i j; store r x)) st =
  (Ok tt, with_object st t n (grid n g)).
Proof.
  intros Hl Hn Hd0 Hf.
  pose proof (fill_run st t n d0 f g (lookup_lt_Some _ _ _ Hl) Hn Hd0 Hf) as H.
  pose proof (with_object_id st t _ Hl) as E. cbn [m_size m_data] in E.
  rewrite E in H. exact H.
Qed.

Lemma size_add_small a b : a + b < Size.modulus -> Size.add a b = a + b.
Proof. intros H. apply N.mod_small, H. Qed.

Lemma size_sub_small a b :
  b <= a -> a < Size.modulus -> Size.sub a b = a - b.
Proof.
  intros H1 H2. unfold Size.sub, Size.wrap.
  replace (a + Size.modulus - b) with (a - b + 1 * Size.modulus) by lia.
  rewrite N.Div0.mod_add. apply N.mod_small. lia.
Qed.

(** ** partition *)

Lemma partition_run st this m k r c :
  objs st !! this = Some m -> well_formed (S k) m ->
  r + m_size m / 2 <= m_size m -> c + m_size m / 2 <= m_size m ->
  partition this r c st =
  (Ok (length (objs st)), set_objs st (objs st ++ [quadrant m r c])).
Proof.
  intros Hl Hwf Hr Hc.
  destruct (well_formed_bounds _ _ Hwf) as (H1 & Hsz & _).
  destruct (well_formed_half _ _ Hwf) as (Hh & Hd).
  pose proof Hwf as (Hk & _ & Hlen & _).
  destruct (pow2_bounds k ltac:(lia)) as (Hh1 & _ & Hhsz).
  pose proof (lookup_lt_Some _ _ _ Hl) as Hthis.
  unfold partition, quadrant, Size.div.
  erewrite bind_ok by (unfold deref; rewrite Hl; reflexivity).
  set (h := m_size m / 2) in *.
  erewrite bind_ok by (apply new_matrix_run; exists (N.of_nat k); exact Hh).
  set (st1 := set_objs st (objs st ++ [zeros h])).
  erewrite bind_ok.
  2:{ apply (fill_run_at st1 (length (objs st)) h
               (replicate (N.to_nat (Size.mul h h)) 0%Z)
               (fun i j => at_ this (Size.add i r) (Size.add j c))
               (fun i j => entry m (i + r) (j + c))).
      - unfold st1. simpl. apply list_lookup_middle. reflexivity.
      - rewrite Hh. exact Hhsz.
      - rewrite length_replicate. unfold Size.mul, Size.wrap.
        rewrite N.mod_small by (rewrite Hh; exact Hhsz). reflexivity.
      - intros i j d Hi Hj Hlend.
        rewrite !size_add_small by nia.
        apply (at_run _ this m); try assumption; try lia.
        rewrite lookup_with_object_ne by lia.
        unfold st1. simpl. rewrite lookup_app_l by exact Hthis. exact Hl. }
  unfold st1. rewrite with_object_alloc. reflexivity.
Qed.

Lemma well_formed_quadrant k m r c :
  well_formed (S k) m -> well_formed k (quadrant m r c).
Proof.
  intros Hwf. destruct (well_formed_half _ _ Hwf) as (Hh & _).
  unfold quadrant. rewrite Hh.
  apply well_formed_tabulate; [destruct Hwf; lia|].
  intros i j. eapply well_formed_entry, Hwf.
Qed.

Lemma entry_quadrant k m r c i j :
  well_formed (S k) m -> i < 2 ^ N.of_nat k -> j < 2 ^ N.of_nat k ->
  entry (quadrant m r c) i j = entry m (i + r) (j + c).
Proof.
  intros Hwf Hi Hj. destruct (well_formed_half _ _ Hwf) as (Hh & _).
  unfold quadrant. rewrite Hh, entry_tabulate by assumption. reflexivity.
Qed.

(** ** The record of the steps *)

Lemma record_run what st a b A B :
  objs st !! a = Some A -> objs st !! b = Some B ->
  record what a b st = (Ok tt, add_step (what A B) st).
Proof. intros Ha Hb. unfold record. rewrite Ha, Hb. reflexivity. Qed.

Lemma record_combine_run st q11 q12 q21 q22 Q11 Q12 Q21 Q22 :
  objs st !! q11 = Some Q11 -> objs st !! q12 = Some Q12 ->
  objs st !! q21 = Some Q21 -> objs st !! q22 = Some Q22 ->
  record_combine q11 q12 q21 q22 st =
  (Ok tt, add_step (step_combine Q11 Q12 Q21 Q22) st).
Proof.
  intros H11 H12 H21 H22. unfold record_combine.
  rewrite H11, H12, H21, H22. reflexivity.
Qed.

(** A run on the state in which a step was recorded is a run on the
    objects of the state before. *)
Ltac after_step st e :=
  let st' := fresh "st" in
  let E := fresh "E" in
  let Ho := fresh "Ho" in
  remember (add_step e st) as st' eqn:E;
  assert (objs st' = objs st) as Ho by (rewrite E; reflexivity);
  rewrite <- Ho in *; clear E Ho;
  let old := fresh "before" in
  rename st into old; rename st' into st.

(** ** combine *)

Lemma combine_run st this m k q11 q12 q21 q22 Q11 Q12 Q21 Q22 :
  objs st !! this = Some m -> well_formed (S k) m ->
  objs st !! q11 = Some Q11 -> objs st !! q12 = Some Q12 ->
  objs st !! q21 = Some Q21 -> objs st !! q22 = Some Q22 ->
  well_formed k Q11 -> well_formed k Q12 ->
  well_formed k Q21 -> well_formed k Q22 ->
  this <> q11 -> this <> q12 -> this <> q21 -> this <> q22 ->
  combine this q11 q12 q21 q22 st =
  (Ok tt, set_objs (add_step (step_combine Q11 Q12 Q21 Q22) st)
                   (<[this := assemble Q11 Q12 Q21 Q22]> (objs st))).
Proof.
  intros Hl Hwf H11 H12 H21 H22 W11 W12 W21 W22 N11 N12 N21 N22.
  destruct (well_formed_bounds _ _ Hwf) as (H1 & Hsz & _).
  destruct (well_formed_half _ _ Hwf) as (Hh & Hd).
  pose proof Hwf as (Hk & _ & Hlen & _).
  unfold combine, Size.div.
  erewrite bind_ok by (unfold deref; rewrite Hl; reflexivity).
  erewrite bind_ok by (apply record_combine_run; eassumption).
  after_step st (step_combine Q11 Q12 Q21 Q22).
  set (h := m_size m / 2) in *. clearbody h.
  assert (forall q Q, well_formed k Q -> objs st !! q = Some Q -> this <> q ->
            forall d i j, i < h -> j < h ->
            (do r <- at_ref q i j; load r) (with_object st this (m_size m) d) =
            (Ok (entry Q i j), with_object st this (m_size m) d)) as Hread.
  { intros q Q WQ HQ Hne d i j Hi Hj.
    destruct (well_formed_bounds _ _ WQ) as (_ & HQsz & _).
    destruct WQ as (_ & HQs & HQlen & _).
    apply (at_ref_load_run _ q Q); try assumption; try lia.
    rewrite lookup_with_object_ne by congruence. exact HQ. }
  rewrite (fill_run_at st this (m_size m) (m_data m)
             (determine_quad h q11 q12 q21 q22)
             (quad_entry h Q11 Q12 Q21 Q22)).
  - unfold with_object, assemble, tabulate. do 3 f_equal.
    destruct W11 as (_ & -> & _). rewrite <- Hh, <- Hd. reflexivity.
  - rewrite Hl. destruct m; reflexivity.
  - exact Hsz.
  - exact Hlen.
  - intros i j d Hi Hj Hlend. unfold determine_quad, quad_entry.
    assert (m_size m < Size.modulus) by nia.
    destruct (N.ltb_spec i h), (N.ltb_spec j h); cbn [andb].
    + apply Hread; assumption.
    + destruct (N.leb_spec h j); [|lia].
      rewrite size_sub_small by lia. apply Hread; (assumption || lia).
    + destruct (N.leb_spec h i); [|lia]. cbn [andb].
      rewrite size_sub_small by lia. apply Hread; (assumption || lia).
    + destruct (N.leb_spec h i); [|lia]. cbn [andb].
      rewrite !size_sub_small by lia. apply Hread; (assumption || lia).
Qed.

Lemma well_formed_assemble k Q11 Q12 Q21 Q22 :
  (S k <= 31)%nat ->
  well_formed k Q11 -> well_formed k Q12 ->
  well_formed k Q21 -> well_formed k Q22 ->
  well_formed (S k) (assemble Q11 Q12 Q21 Q22).
Proof.
  intros Hk W11 W12 W21 W22. unfold assemble.
  pose proof W11 as (? & Hs & ?). rewrite Hs, <- pow2_succ.
  apply well_formed_tabulate; [exact Hk|].
  intros i j. unfold quad_entry.
  destruct (i <? _), (j <? _); eapply well_formed_entry; eassumption.
Qed.

Lemma entry_assemble k Q11 Q12 Q21 Q22 i j :
  well_formed k Q11 -> i < 2 * 2 ^ N.of_nat k -> j < 2 * 2 ^ N.of_nat k ->
  entry (assemble Q11 Q12 Q21 Q22) i j =
  quad_entry (2 ^ N.of_nat k) Q11 Q12 Q21 Q22 i j.
Proof.
  intros (_ & Hs & _) Hi Hj. unfold assemble. rewrite Hs.
  rewrite entry_tabulate by assumption. reflexivity.
Qed.

(** ** Element-wise sum and difference *)

Lemma lookup_pointwise (op : Z -> Z -> Z) (da db : list Z) (p : nat) :
  (p < length da)%nat -> length db = length da ->
  zip_with op da db !! p = Some (op (nth p da 0%Z) (nth p db 0%Z)).
Proof.
  intros Hp Hl. rewrite lookup_zip_with, !nth_lookup.
  destruct (lookup_lt_is_Some_2 da p Hp) as [x ->].
  destruct (lookup_lt_is_Some_2 db p ltac:(lia)) as [y ->]. reflexivity.
Qed.

Lemma elementwise_run what op st a b A B k :
  objs st !! a = Some A -> objs st !! b = Some B ->
  well_formed k A -> well_formed k B ->
  elementwise what op a b st =
  (Ok (length (objs st)),
   set_objs (add_step (what A B) st) (objs st ++ [pointwise op A B])).
Proof.
  intros Ha Hb WA WB.
  destruct (well_formed_bounds _ _ WA) as (H1 & Hsz & Hp2).
  destruct WA as (Hk & HsA & HlA & _), WB as (_ & HsB & HlB & _).
  pose proof (lookup_lt_Some _ _ _ Ha) as Hlta.
  pose proof (lookup_lt_Some _ _ _ Hb) as Hltb.
  assert (length (m_data B) = length (m_data A)) as Hlen by congruence.
  unfold elementwise, pointwise.
  erewrite bind_ok by (unfold deref; rewrite Ha; reflexivity).
  erewrite bind_ok by (unfold deref; rewrite Hb; reflexivity).
  replace (m_size A =? m_size B) with true
    by (symmetry; apply N.eqb_eq; congruence).
  cbn [negb].
  erewrite bind_ok by (apply record_run; eassumption).
  after_step st (what A B).
  erewrite bind_ok by (apply new_matrix_run, Hp2).
  set (st1 := set_objs st (objs st ++ [zeros (m_size A)])).
  set (t := length (objs st)).
  set (G := zip_with op (m_data A) (m_data B)).
  set (d0 := replicate (N.to_nat (Size.mul (m_size A) (m_size A))) 0%Z).
  assert (length d0 = length (m_data A)) as Hd0.
  { unfold d0. rewrite length_replicate. unfold Size.mul, Size.wrap.
    rewrite N.mod_small by exact Hsz. symmetry. exact HlA. }
  assert (length G = length (m_data A)) as HG.
  { unfold G. rewrite length_zip_with. lia. }
  erewrite bind_ok.
  2:{ apply (for_range_progress _ (fun p =>
        with_object st1 t (m_size A) (overwritten G d0 (N.to_nat p)))).
      - unfold st1, t. rewrite with_object_alloc. reflexivity.
      - reflexivity.
      - intros p Hp. unfold vec_size in Hp.
        assert (forall l L, objs st !! l = Some L ->
                  objs (with_object st1 t (m_size A)
                          (overwritten G d0 (N.to_nat p))) !! l = Some L) as Hold.
        { intros l L HL. pose proof (lookup_lt_Some _ _ _ HL).
          rewrite lookup_with_object_ne by (unfold t; lia).
          unfold st1. simpl. rewrite lookup_app_l by assumption. exact HL. }
        erewrite bind_ok by (apply (load_run _ a A); [apply Hold, Ha | lia]).
        erewrite bind_ok by (apply (load_run _ b B); [apply Hold, Hb | lia]).
        rewrite store_with_object.
        + rewrite overwritten_step; [| apply lookup_pointwise; lia | lia].
          rewrite N2Nat.inj_succ. reflexivity.
        + unfold st1, t. rewrite length_alloc. lia.
        + rewrite length_overwritten; lia. }
  cbn [ret]. unfold ret. do 2 f_equal.
  rewrite overwritten_all; [| lia | unfold vec_size; lia].
  unfold st1, t. rewrite with_object_alloc. reflexivity.
Qed.

Lemma well_formed_pointwise k op A B :
  well_formed k A -> well_formed k B ->
  (forall x y, Int.in_range (op x y)) ->
  well_formed k (pointwise op A B).
Proof.
  intros (Hk & HsA & HlA & _) (_ & HsB & HlB & _) Hop.
  split; [exact Hk|]. split; [exact HsA|]. split.
  - simpl. rewrite length_zip_with. rewrite HlA, HlB, HsA, HsB. lia.
  - simpl. apply Forall_forall. intros z Hz.
    apply list_elem_of_lookup in Hz as [p Hz].
    rewrite lookup_zip_with in Hz.
    destruct (m_data A !! p); [|discriminate].
    destruct (m_data B !! p); [|discriminate].
    injection Hz as <-. apply Hop.
Qed.

Lemma entry_pointwise k op A B i j :
  well_formed k A -> well_formed k B ->
  i < 2 ^ N.of_nat k -> j < 2 ^ N.of_nat k ->
  entry (pointwise op A B) i j = op (entry A i j) (entry B i j).
Proof.
  intros (Hk & HsA & HlA & _) (_ & HsB & HlB & _) Hi Hj.
  rewrite <- HsA in Hi, Hj.
  pose proof (row_major_lt _ i j Hi Hj).
  unfold entry, pointwise. cbn [m_size m_data].
  rewrite (nth_lookup (zip_with _ _ _)), lookup_pointwise by lia.
  rewrite HsB, <- HsA. reflexivity.
Qed.

(** ** The reference product *)

Lemma in_range_eqm x y : Int.in_range x -> eqm x y -> x = Int.wrap y.
Proof. intros Hx H. rewrite <- (wrap_id x Hx). apply eqm_wrap, H. Qed.

Lemma fold_products (f : N -> Z) (n : nat) :
  let r := fold_left (fun acc l => Int.add acc (Int.wrap (f l)))
                     (indices (N.of_nat n)) 0%Z in
  Int.in_range r /\ eqm r (sum_upto n f).
Proof.
  induction n as [|n [IH1 IH2]]; cbn zeta.
  - split; [unfold Int.in_range, Int.min_int, Int.max_int; simpl; lia|].
    reflexivity.
  - rewrite Nat2N.inj_succ, indices_succ, fold_left_app. simpl.
    unfold Int.add at 1 3. split; [apply wrap_in_range|].
    rewrite !wrap_eqm, IH2. reflexivity.
Qed.

Lemma product_entry_dot a b i j :
  product_entry a b i j = Int.wrap (dot a b i j).
Proof.
  unfold product_entry, dot, Int.mul.
  destruct (fold_products (fun l => (entry a i l * entry b l j)%Z)
              (N.to_nat (m_size a))) as [H1 H2].
  rewrite N2Nat.id in H1, H2. apply in_range_eqm; assumption.
Qed.

Lemma well_formed_product k a b :
  well_formed k a -> well_formed k (product a b).
Proof.
  intros (Hk & Hs & _). unfold product. rewrite Hs.
  apply well_formed_tabulate; [exact Hk|].
  intros i j. rewrite product_entry_dot. apply wrap_in_range.
Qed.

Lemma entry_product k a b i j :
  well_formed k a -> i < 2 ^ N.of_nat k -> j < 2 ^ N.of_nat k ->
  entry (product a b) i j = Int.wrap (dot a b i j).
Proof.
  intros (_ & Hs & _) Hi Hj. rewrite <- Hs in Hi, Hj. unfold product.
  rewrite entry_tabulate by assumption. apply product_entry_dot.
Qed.

(** The sum over [2 * h] indices, cut at [h]. *)
Lemma dot_halves k a b i j :
  m_size a = 2 * 2 ^ N.of_nat k ->
  dot a b i j =
  (sum_upto (N.to_nat (2 ^ N.of_nat k))
     (fun l => entry a i l * entry b l j) +
   sum_upto (N.to_nat (2 ^ N.of_nat k))
     (fun l => entry a i (l + 2 ^ N.of_nat k)%N *
               entry b (l + 2 ^ N.of_nat k)%N j))%Z.
Proof.
  intros Hs. unfold dot. rewrite Hs.
  replace (N.to_nat (2 * 2 ^ N.of_nat k))
    with (N.to_nat (2 ^ N.of_nat k) + N.to_nat (2 ^ N.of_nat k))%nat by lia.
  rewrite sum_upto_split, N2Nat.id. f_equal.
  apply sum_upto_ext. intros l _. rewrite (N.add_comm l). reflexivity.
Qed.

Lemma dot_ext k a b fa fb i j :
  well_formed k a ->
  (forall l, l < 2 ^ N.of_nat k -> entry a i l = fa l) ->
  (forall l, l < 2 ^ N.of_nat k -> entry b l j = fb l) ->
  dot a b i j = sum_upto (N.to_nat (2 ^ N.of_nat k)) (fun l => fa l * fb l)%Z.
Proof.
  intros (_ & Hs & _) Ha Hb. unfold dot. rewrite Hs.
  apply sum_upto_ext. intros l Hl. rewrite Ha, Hb by lia. reflexivity.
Qed.

Lemma well_formed_madd k a b :
  well_formed k a -> well_formed k b -> well_formed k (madd a b).
Proof.
  intros Ha Hb. apply well_formed_pointwise; try assumption.
  intros x y. apply wrap_in_range.
Qed.

Lemma well_formed_msub k a b :
  well_formed k a -> well_formed k b -> well_formed k (msub a b).
Proof.
  intros Ha Hb. apply well_formed_pointwise; try assumption.
  intros x y. apply wrap_in_range.
Qed.

Lemma entry_madd k A B i j :
  well_formed k A -> well_formed k B ->
  i < 2 ^ N.of_nat k -> j < 2 ^ N.of_nat k ->
  entry (madd A B) i j = Int.add (entry A i j) (entry B i j).
Proof. apply entry_pointwise. Qed.

Lemma entry_msub k A B i j :
  well_formed k A -> well_formed k B ->
  i < 2 ^ N.of_nat k -> j < 2 ^ N.of_nat k ->
  entry (msub A B) i j = Int.sub (entry A i j) (entry B i j).
Proof. apply entry_pointwise. Qed.

Lemma m_size_well_formed k m : well_formed k m -> m_size m = 2 ^ N.of_nat k.
Proof. intros (_ & H & _). exact H. Qed.

Lemma m_size_assemble Q11 Q12 Q21 Q22 :
  m_size (assemble Q11 Q12 Q21 Q22) = 2 * m_size Q11.
Proof. reflexivity. Qed.

Lemma eq_eqm a b : a = b -> eqm a b.
Proof. intros ->. reflexivity. Qed.

Ltac wf_solve :=
  solve [ repeat first
            [ eassumption
            | apply well_formed_quadrant
            | apply well_formed_madd
            | apply well_formed_msub
            | apply well_formed_product ]
        | lia ].

(** Entries of sums, differences and quadrants, down to the operands. *)
Ltac entries k :=
  repeat first
    [ rewrite (entry_madd k) by wf_solve
    | rewrite (entry_msub k) by wf_solve
    | rewrite (entry_quadrant k) by wf_solve ].

(** The entry [(i, j)] of a sum or difference of quadrants, written over
    the entries of the matrix the quadrants were cut from. *)
Ltac operand_entry X i j :=
  lazymatch X with
  | madd ?A ?B =>
      let x := operand_entry A i j in
      let y := operand_entry B i j in constr:(Int.add x y)
  | msub ?A ?B =>
      let x := operand_entry A i j in
      let y := operand_entry B i j in constr:(Int.sub x y)
  | quadrant ?m ?r ?c => constr:(entry m (i + r)%N (j + c)%N)
  | _ => constr:(entry X i j)
  end.

(** Every [dot] of the goal as a sum over entries of the operands. *)
Ltac dots k :=
  repeat match goal with
  | |- context [dot ?X ?Y ?i ?j] =>
      let fa := constr:(fun l : N =>
                  ltac:(let t := operand_entry X i l in exact t)) in
      let fb := constr:(fun l : N =>
                  ltac:(let t := operand_entry Y l j in exact t)) in
      rewrite (dot_ext k X Y fa fb i j)
        by first [ wf_solve
                 | intros ? ?; entries k; reflexivity ]
  end.

(** Both sides as one sum each, compared term by term. *)
Ltac sums :=
  unfold Int.add, Int.sub; apply eqm_wrap;
  repeat (rewrite wrap_eqm || setoid_rewrite wrap_eqm);
  apply eq_eqm;
  repeat (rewrite <- sum_upto_plus || rewrite <- sum_upto_minus);
  apply sum_upto_ext; intros ? ?; cbv beta;
  rewrite ?N.add_0_r; rewrite ?N.sub_add by lia; ring.

Section Blocks.
Variables (k : nat) (a b : Matrix).
Hypothesis Ha : well_formed (S k) a.
Hypothesis Hb : well_formed (S k) b.

Ltac quadrant_case :=
  entries k; rewrite !(entry_product k) by wf_solve; dots k; sums.

Ltac by_quadrants :=
  let Hha := fresh "Hha" in let Hsa := fresh "Hsa" in
  let Hk := fresh "Hk" in let i := fresh "i" in let j := fresh "j" in
  let Hi := fresh "Hi" in let Hj := fresh "Hj" in
  destruct (well_formed_half _ _ Ha) as (Hha & _);
  pose proof Ha as (Hk & Hsa & _); rewrite pow2_succ in Hsa;
  rewrite Hha; cbv zeta;
  apply (well_formed_eq (S k));
    [apply well_formed_assemble; [lia | wf_solve ..] | wf_solve |];
  intros i j Hi Hj;
  rewrite m_size_assemble in Hi, Hj;
  rewrite (m_size_well_formed k) in Hi, Hj by wf_solve;
  rewrite (entry_assemble k) by wf_solve;
  rewrite (entry_product (S k)) by (rewrite ?pow2_succ; wf_solve);
  rewrite (dot_halves k) by exact Hsa;
  unfold quad_entry;
  destruct (N.ltb_spec i (2 ^ N.of_nat k)),
           (N.ltb_spec j (2 ^ N.of_nat k)).

Lemma block_product_correct : block_product product a b = product a b.
Proof using Ha Hb. unfold block_product. by_quadrants; quadrant_case. Qed.

Lemma strassen_product_correct :
  strassen_product product a b = product a b.
Proof using Ha Hb. unfold strassen_product. by_quadrants; quadrant_case. Qed.

End Blocks.

(** ** Steps of a run *)

Lemma extends_refl st : extends st st.
Proof. unfold extends. reflexivity. Qed.

Lemma extends_trans st1 st2 st3 :
  extends st1 st2 -> extends st2 st3 -> extends st1 st3.
Proof. unfold extends. intros H1 H2. etransitivity; eassumption. Qed.

Lemma extends_lookup st st' l m :
  extends st st' -> objs st !! l = Some m -> objs st' !! l = Some m.
Proof. intros H Hl. eapply prefix_lookup_Some; eassumption. Qed.

Lemma extends_length st st' :
  extends st st' -> (length (objs st) <= length (objs st'))%nat.
Proof. apply prefix_length. Qed.

Lemma prefix_insert_fresh (h0 h : list Matrix) l x :
  h0 `prefix_of` h -> (length h0 <= l)%nat -> h0 `prefix_of` <[l := x]> h.
Proof.
  intros [t ->] Hl. rewrite insert_app_r_alt by exact Hl.
  apply prefix_app_r. reflexivity.
Qed.

Lemma extends_update st0 st st' l x :
  extends st0 st ->
  objs st' = <[l := x]> (objs st) ->
  (length (objs st0) <= l)%nat ->
  extends st0 st'.
Proof.
  unfold extends. intros H1 Ho Hl.
  rewrite Ho. apply prefix_insert_fresh; assumption.
Qed.

Lemma allocated_alloc st m :
  allocated st m (length (objs st)) (set_objs st (objs st ++ [m])).
Proof.
  split; [|split].
  - unfold extends. simpl. apply prefix_app_r. reflexivity.
  - reflexivity.
  - simpl. apply list_lookup_middle. reflexivity.
Qed.

Lemma wp_deref st l m (Q : Matrix -> state -> Prop) :
  objs st !! l = Some m -> Q m st -> wp (deref l) Q st.
Proof. intros Hl HQ. unfold wp, deref. rewrite Hl. exact HQ. Qed.

Lemma wp_new_matrix st s (Q : loc -> state -> Prop) :
  power_of_two s ->
  (forall l st', allocated st (zeros s) l st' -> trace st' = trace st ->
                 Q l st') ->
  wp (new_matrix s) Q st.
Proof.
  intros Hs HQ. eapply wp_run; [apply new_matrix_run, Hs|].
  apply HQ; [apply allocated_alloc | reflexivity].
Qed.

Lemma wp_partition st this m k r c (Q : loc -> state -> Prop) :
  objs st !! this = Some m -> well_formed (S k) m ->
  r + m_size m / 2 <= m_size m -> c + m_size m / 2 <= m_size m ->
  (forall l st', allocated st (quadrant m r c) l st' -> trace st' = trace st ->
                 Q l st') ->
  wp (partition this r c) Q st.
Proof.
  intros Hl Hwf Hr Hc HQ.
  eapply wp_run; [eapply partition_run; eassumption|].
  apply HQ; [apply allocated_alloc | reflexivity].
Qed.

Lemma wp_plus st a b A B k (Q : loc -> state -> Prop) :
  objs st !! a = Some A -> objs st !! b = Some B ->
  well_formed k A -> well_formed k B ->
  (forall l st', allocated st (madd A B) l st' -> trace st' = trace st ->
                 Q l st') ->
  wp (operator_plus a b) Q st.
Proof.
  intros Ha Hb WA WB HQ.
  eapply wp_run; [eapply elementwise_run; eassumption|].
  apply HQ; [exact (allocated_alloc (add_step _ st) _) | reflexivity].
Qed.

Lemma wp_minus st a b A B k (Q : loc -> state -> Prop) :
  objs st !! a = Some A -> objs st !! b = Some B ->
  well_formed k A -> well_formed k B ->
  (forall l st', allocated st (msub A B) l st' -> trace st' = trace st ->
                 Q l st') ->
  wp (operator_minus a b) Q st.
Proof.
  intros Ha Hb WA WB HQ.
  eapply wp_run; [eapply elementwise_run; eassumption|].
  apply HQ; [exact (allocated_alloc (add_step _ st) _) | reflexivity].
Qed.

Lemma wp_combine st this m k q11 q12 q21 q22 Q11 Q12 Q21 Q22
      (Q : unit -> state -> Prop) :
  objs st !! this = Some m -> well_formed (S k) m ->
  objs st !! q11 = Some Q11 -> objs st !! q12 = Some Q12 ->
  objs st !! q21 = Some Q21 -> objs st !! q22 = Some Q22 ->
  well_formed k Q11 -> well_formed k Q12 ->
  well_formed k Q21 -> well_formed k Q22 ->
  this <> q11 -> this <> q12 -> this <> q21 -> this <> q22 ->
  (forall st', objs st' = <[this := assemble Q11 Q12 Q21 Q22]> (objs st) ->
               trace st' = trace st -> Q tt st') ->
  wp (combine this q11 q12 q21 q22) Q st.
Proof.
  intros. eapply wp_run; [eapply combine_run; eassumption|].
  auto.
Qed.

Lemma wp_log st c (Q : unit -> state -> Prop) :
  (forall st', extends st st' -> trace st' = c :: trace st -> Q tt st') ->
  wp (log c) Q st.
Proof.
  intros HQ. unfold wp, log. apply HQ; [|reflexivity].
  unfold extends. reflexivity.
Qed.

Lemma wp_ask st (Q : platform -> state -> Prop) :
  Q (host st) st -> wp ask Q st.
Proof. intros HQ. exact HQ. Qed.

Lemma wp_record what st a b (Q : unit -> state -> Prop) :
  (forall st', extends st st' -> trace st' = trace st -> Q tt st') ->
  wp (record what a b) Q st.
Proof.
  intros HQ. unfold wp, record.
  destruct (objs st !! a), (objs st !! b);
    (apply HQ; [unfold extends; reflexivity | reflexivity]).
Qed.

(** Either operand of a binary operator may be the first. *)
Lemma wp_binary here op (x y : M loc) (Q : loc -> state -> Prop) st :
  wp (do a <- x; do b <- y; op a b) Q st ->
  wp (do b <- y; do a <- x; op a b) Q st ->
  wp (binary here op x y) Q st.
Proof.
  intros H1 H2. unfold binary. apply wp_bind, wp_ask.
  destruct (right_first (host st) here); assumption.
Qed.

(** *** The operations with the steps they record *)

Lemma wp_log_steps st c (Q : unit -> state -> Prop) :
  (forall st', extends st st' -> trace st' = c :: trace st ->
               steps st' = steps st -> Q tt st') ->
  wp (log c) Q st.
Proof.
  intros HQ. unfold wp, log. apply HQ; [|reflexivity|reflexivity].
  unfold extends. reflexivity.
Qed.

Lemma wp_record_steps what st a b A B (Q : unit -> state -> Prop) :
  objs st !! a = Some A -> objs st !! b = Some B ->
  (forall st', extends st st' -> trace st' = trace st ->
               steps st' = what A B :: steps st -> Q tt st') ->
  wp (record what a b) Q st.
Proof.
  intros Ha Hb HQ. eapply wp_run; [apply record_run; eassumption|].
  apply HQ; [unfold extends; reflexivity | reflexivity | reflexivity].
Qed.

Lemma wp_new_matrix_steps st s (Q : loc -> state -> Prop) :
  power_of_two s ->
  (forall l st', allocated st (zeros s) l st' -> trace st' = trace st ->
                 steps st' = steps st -> Q l st') ->
  wp (new_matrix s) Q st.
Proof.
  intros Hs HQ. eapply wp_run; [apply new_matrix_run, Hs|].
  apply HQ; [apply allocated_alloc | reflexivity | reflexivity].
Qed.

Lemma wp_partition_steps st this m k r c (Q : loc -> state -> Prop) :
  objs st !! this = Some m -> well_formed (S k) m ->
  r + m_size m / 2 <= m_size m -> c + m_size m / 2 <= m_size m ->
  (forall l st', allocated st (quadrant m r c) l st' -> trace st' = trace st ->
                 steps st' = steps st -> Q l st') ->
  wp (partition this r c) Q st.
Proof.
  intros Hl Hwf Hr Hc HQ.
  eapply wp_run; [eapply partition_run; eassumption|].
  apply HQ; [apply allocated_alloc | reflexivity | reflexivity].
Qed.

Lemma wp_plus_steps st a b A B k (Q : loc -> state -> Prop) :
  objs st !! a = Some A -> objs st !! b = Some B ->
  well_formed k A -> well_formed k B ->
  (forall l st', allocated st (madd A B) l st' -> trace st' = trace st ->
                 steps st' = step_plus A B :: steps st -> Q l st') ->
  wp (operator_plus a b) Q st.
Proof.
  intros Ha Hb WA WB HQ.
  eapply wp_run; [eapply elementwise_run; eassumption|].
  apply HQ; [exact (allocated_alloc (add_step _ st) _) | reflexivity
            | reflexivity].
Qed.

Lemma wp_minus_steps st a b A B k (Q : loc -> state -> Prop) :
  objs st !! a = Some A -> objs st !! b = Some B ->
  well_formed k A -> well_formed k B ->
  (forall l st', allocated st (msub A B) l st' -> trace st' = trace st ->
                 steps st' = step_minus A B :: steps st -> Q l st') ->
  wp (operator_minus a b) Q st.
Proof.
  intros Ha Hb WA WB HQ.
  eapply wp_run; [eapply elementwise_run; eassumption|].
  apply HQ; [exact (allocated_alloc (add_step _ st) _) | reflexivity
            | reflexivity].
Qed.

Lemma wp_combine_steps st this m k q11 q12 q21 q22 Q11 Q12 Q21 Q22
      (Q : unit -> state -> Prop) :
  objs st !! this = Some m -> well_formed (S k) m ->
  objs st !! q11 = Some Q11 -> objs st !! q12 = Some Q12 ->
  objs st !! q21 = Some Q21 -> objs st !! q22 = Some Q22 ->
  well_formed k Q11 -> well_formed k Q12 ->
  well_formed k Q21 -> well_formed k Q22 ->
  this <> q11 -> this <> q12 -> this <> q21 -> this <> q22 ->
  (forall st', objs st' = <[this := assemble Q11 Q12 Q21 Q22]> (objs st) ->
               trace st' = trace st ->
               steps st' = step_combine Q11 Q12 Q21 Q22 :: steps st ->
               Q tt st') ->
  wp (combine this q11 q12 q21 q22) Q st.
Proof.
  intros Hl Hwf H11 H12 H21 H22 W11 W12 W21 W22 N11 N12 N21 N22 HQ.
  eapply wp_run; [eapply combine_run; eassumption|].
  apply HQ; reflexivity.
Qed.

Lemma wp_at st l m i j (Q : Z -> state -> Prop) :
  objs st !! l = Some m ->
  length (m_data m) = N.to_nat (m_size m * m_size m) ->
  m_size m * m_size m < Size.modulus ->
  i < m_size m -> j < m_size m ->
  Q (entry m i j) st -> wp (at_ l i j) Q st.
Proof. intros. eapply wp_run; [eapply at_run; eassumption|assumption]. Qed.

Lemma store_run st l m p x :
  objs st !! l = Some m -> (N.to_nat p < length (m_data m))%nat ->
  store (l, p) x st =
  (Ok tt, set_objs st
     (<[l := mkMatrix (m_size m) (<[N.to_nat p := x]> (m_data m))]> (objs st))).
Proof.
  intros Hl Hp.
  pose proof (store_with_object st l (m_size m) (lookup_lt_Some _ _ _ Hl)
                (m_data m) p x Hp) as H.
  rewrite (with_object_id st l m Hl) in H. exact H.
Qed.

Lemma product_size_1 a b :
  m_size a = 1 ->
  product a b = mkMatrix 1 [Int.mul (entry a 0 0) (entry b 0 0)].
Proof.
  intros H. unfold product, tabulate, grid, product_entry. rewrite H.
  simpl. unfold Int.add, Int.mul. rewrite Z.add_0_l, wrap_wrap. reflexivity.
Qed.

Lemma wp_at_ref st l m i j (Q : int_ref -> state -> Prop) :
  objs st !! l = Some m ->
  length (m_data m) = N.to_nat (m_size m * m_size m) ->
  m_size m * m_size m < Size.modulus ->
  i < m_size m -> j < m_size m ->
  Q (l, i * m_size m + j) st -> wp (at_ref l i j) Q st.
Proof.
  intros. unfold at_ref. apply wp_bind.
  eapply wp_run; [eapply get_index_run; eassumption|assumption].
Qed.

Lemma wp_store st l m p x (Q : unit -> state -> Prop) :
  objs st !! l = Some m -> (N.to_nat p < length (m_data m))%nat ->
  (forall st',
     objs st' = <[l := mkMatrix (m_size m) (<[N.to_nat p := x]> (m_data m))]>
                  (objs st) ->
     trace st' = trace st -> Q tt st') ->
  wp (store (l, p) x) Q st.
Proof.
  intros Hl Hp HQ. eapply wp_run; [eapply store_run; eassumption|].
  apply HQ; reflexivity.
Qed.

Lemma well_formed_zeros k : (k <= 31)%nat -> well_formed k (zeros (2 ^ N.of_nat k)).
Proof.
  intros Hk. destruct (pow2_bounds k Hk) as (_ & _ & Hsz).
  split; [exact Hk|]. split; [reflexivity|]. split.
  - simpl. rewrite length_replicate. unfold Size.mul, Size.wrap.
    rewrite N.mod_small by exact Hsz. reflexivity.
  - simpl. apply Forall_replicate.
    unfold Int.in_range, Int.min_int, Int.max_int. lia.
Qed.

(** ** The call trace *)

Lemma calls_from_same n st st' :
  trace st' = trace st -> calls_from n st' = calls_from n st.
Proof. intros H. unfold calls_from. rewrite H. reflexivity. Qed.

Lemma calls_from_log n st st' c :
  trace st' = c :: trace st -> at_level n c = true ->
  calls_from n st' = c :: calls_from n st.
Proof. intros H Hc. unfold calls_from. rewrite H. simpl. rewrite Hc. reflexivity. Qed.

Lemma filter_level m n (t : list call) :
  m <= n ->
  List.filter (at_level n) (List.filter (at_level m) t) =
  List.filter (at_level n) t.
Proof.
  intros Hmn. induction t as [|c t IH]; [reflexivity|]. simpl.
  destruct (at_level m c) eqn:Em; simpl; rewrite IH; [reflexivity|].
  destruct c as [s|s]; simpl in *; [|discriminate].
  apply N.leb_gt in Em.
  destruct (N.leb_spec n s); [lia | reflexivity].
Qed.

(** A call of [multiply] at size [m] leaves no entry at a larger size. *)
Lemma quiet_above m n st st' :
  m < n ->
  calls_from m st' = call_multiply m :: calls_from m st ->
  calls_from n st' = calls_from n st.
Proof.
  intros Hmn H. unfold calls_from in *.
  rewrite <- (filter_level m n (trace st')), H by lia. simpl.
  destruct (N.leb_spec n m); [lia|]. apply filter_level. lia.
Qed.

Lemma pow2_pos (k : nat) : 1 <= 2 ^ N.of_nat k.
Proof.
  assert (2 ^ N.of_nat k <> 0) by (apply N.pow_nonzero; lia). lia.
Qed.

(** The entries of a call of [multiply] at size [2 ^ k] are entries of
    [multiply] at that size or below. *)
Lemma multiply_calls_below k :
  Forall (fun c => exists s, c = call_multiply s /\ s <= 2 ^ N.of_nat k)
         (multiply_calls k).
Proof.
  induction k as [|k IH].
  - repeat constructor. exists 1. split; [reflexivity | simpl; lia].
  - cbn [multiply_calls]. apply Forall_app. split.
    + apply Forall_concat, Forall_replicate.
      eapply Forall_impl; [exact IH|].
      intros c (s & -> & Hs). exists s. split; [reflexivity|].
      rewrite pow2_succ. lia.
    + repeat constructor. eexists. split; [reflexivity | lia].
Qed.

Lemma filter_calls_above k n :
  2 ^ N.of_nat k < n -> List.filter (at_level n) (multiply_calls k) = [].
Proof.
  intros Hn. pose proof (multiply_calls_below k) as H.
  induction H as [|c t (s & -> & Hs) _ IH]; [reflexivity|]. simpl.
  destruct (N.leb_spec n s); [lia | exact IH].
Qed.

Lemma filter_repeated {A} (f : A -> bool) n (t : list A) :
  List.filter f t = [] -> List.filter f (concat (replicate n t)) = [].
Proof.
  intros H. induction n as [|n IH]; [reflexivity|].
  cbn [replicate concat]. rewrite List.filter_app, H, IH. reflexivity.
Qed.

Lemma filter_multiply_calls k :
  List.filter (at_level (2 ^ N.of_nat k)) (multiply_calls k) =
  [call_multiply (2 ^ N.of_nat k)].
Proof.
  destruct k as [|k]; [reflexivity|].
  cbn [multiply_calls]. rewrite List.filter_app, filter_repeated.
  - simpl. rewrite N.leb_refl. reflexivity.
  - apply filter_calls_above. rewrite pow2_succ.
    pose proof (pow2_pos k). lia.
Qed.

(** ** The recorded steps *)

Lemma wp_store_steps st l m p x (Q : unit -> state -> Prop) :
  objs st !! l = Some m -> (N.to_nat p < length (m_data m))%nat ->
  (forall st',
     objs st' = <[l := mkMatrix (m_size m) (<[N.to_nat p := x]> (m_data m))]>
                  (objs st) ->
     trace st' = trace st -> steps st' = steps st -> Q tt st') ->
  wp (store (l, p) x) Q st.
Proof.
  intros Hl Hp HQ. eapply wp_run; [eapply store_run; eassumption|].
  apply HQ; reflexivity.
Qed.

Lemma steps_from_same n st st' :
  steps st' = steps st -> steps_from n st' = steps_from n st.
Proof. intros H. unfold steps_from. rewrite H. reflexivity. Qed.

Lemma steps_from_step n st st' e :
  steps st' = e :: steps st -> step_level n e = true ->
  steps_from n st' = e :: steps_from n st.
Proof.
  intros H He. unfold steps_from. rewrite H. simpl. rewrite He. reflexivity.
Qed.

Lemma steps_from_below n st st' e :
  steps st' = e :: steps st -> step_level n e = false ->
  steps_from n st' = steps_from n st.
Proof.
  intros H He. unfold steps_from. rewrite H. simpl. rewrite He. reflexivity.
Qed.

Lemma filter_step_level m n (t : list step) :
  m <= n ->
  List.filter (step_level n) (List.filter (step_level m) t) =
  List.filter (step_level n) t.
Proof.
  intros Hmn. induction t as [|e t IH]; [reflexivity|]. simpl.
  destruct (step_level m e) eqn:Em; simpl; rewrite IH; [reflexivity|].
  destruct e; simpl in *; try discriminate;
    apply N.leb_gt in Em;
    (match goal with
     | |- context [n <=? ?s] => destruct (N.leb_spec n s)
     end; [lia | reflexivity]).
Qed.

(** A call of [multiply] leaves no step at a size above its own. *)
Lemma steps_quiet_above m n st st' X Y :
  steps_from m st' = step_multiply X Y :: steps_from m st ->
  m_size X = m -> m < n ->
  steps_from n st' = steps_from n st.
Proof.
  intros H Hs Hmn. unfold steps_from in *.
  rewrite <- (filter_step_level m n (steps st')), H by lia. simpl.
  rewrite Hs. destruct (N.leb_spec n m); [lia|].
  apply filter_step_level. lia.
Qed.

Lemma wp_elementwise_steps what op st a b A B k (Q : loc -> state -> Prop) :
  objs st !! a = Some A -> objs st !! b = Some B ->
  well_formed k A -> well_formed k B ->
  (forall l st', allocated st (pointwise op A B) l st' ->
                 trace st' = trace st ->
                 steps st' = what A B :: steps st -> Q l st') ->
  wp (elementwise what op a b) Q st.
Proof.
  intros Ha Hb WA WB HQ.
  eapply wp_run; [eapply elementwise_run; eassumption|].
  apply HQ; [exact (allocated_alloc (add_step _ st) _) | reflexivity
            | reflexivity].
Qed.

(** The sum or difference of two quadrants of a matrix, whichever of the
    two is cut out first. *)
Lemma wp_elementwise_quadrants what op here st this m k r c u v
      (Q : loc -> state -> Prop) :
  objs st !! this = Some m -> well_formed (S k) m ->
  r + m_size m / 2 <= m_size m -> c + m_size m / 2 <= m_size m ->
  u + m_size m / 2 <= m_size m -> v + m_size m / 2 <= m_size m ->
  (forall l st',
     allocated st (pointwise op (quadrant m r c) (quadrant m u v)) l st' ->
     trace st' = trace st ->
     steps st' = what (quadrant m r c) (quadrant m u v) :: steps st ->
     Q l st') ->
  wp (binary here (elementwise what op)
        (partition this r c) (partition this u v)) Q st.
Proof.
  intros Hl Hwf Hr Hc Hu Hv HQ.
  assert (well_formed k (quadrant m r c)) as Wa by apply well_formed_quadrant, Hwf.
  assert (well_formed k (quadrant m u v)) as Wb by apply well_formed_quadrant, Hwf.
  apply wp_binary.
  - apply wp_bind. eapply wp_partition_steps; [eassumption ..|].
    intros a st1 (He1 & Hf1 & Hl1) Ht1 Hs1.
    apply wp_bind.
    eapply wp_partition_steps;
      [eapply extends_lookup; eassumption | eassumption ..|].
    intros b st2 (He2 & Hf2 & Hl2) Ht2 Hs2.
    eapply wp_elementwise_steps;
      [eapply extends_lookup; [exact He2 | exact Hl1] | exact Hl2
      | exact Wa | exact Wb |].
    intros l st3 (He3 & Hf3 & Hl3) Ht3 Hs3.
    pose proof (extends_length _ _ He1). pose proof (extends_length _ _ He2).
    apply HQ; [split; [|split] | congruence | congruence].
    + eapply extends_trans; [|exact He3].
      eapply extends_trans; eassumption.
    + lia.
    + exact Hl3.
  - apply wp_bind. eapply wp_partition_steps; [eassumption ..|].
    intros b st1 (He1 & Hf1 & Hl1) Ht1 Hs1.
    apply wp_bind.
    eapply wp_partition_steps;
      [eapply extends_lookup; eassumption | eassumption ..|].
    intros a st2 (He2 & Hf2 & Hl2) Ht2 Hs2.
    eapply wp_elementwise_steps;
      [exact Hl2 | eapply extends_lookup; [exact He2 | exact Hl1]
      | exact Wa | exact Wb |].
    intros l st3 (He3 & Hf3 & Hl3) Ht3 Hs3.
    pose proof (extends_length _ _ He1). pose proof (extends_length _ _ He2).
    apply HQ; [split; [|split] | congruence | congruence].
    + eapply extends_trans; [|exact He3].
      eapply extends_trans; eassumption.
    + lia.
    + exact Hl3.
Qed.

Lemma wp_plus_quadrants here st this m k r c u v (Q : loc -> state -> Prop) :
  objs st !! this = Some m -> well_formed (S k) m ->
  r + m_size m / 2 <= m_size m -> c + m_size m / 2 <= m_size m ->
  u + m_size m / 2 <= m_size m -> v + m_size m / 2 <= m_size m ->
  (forall l st',
     allocated st (madd (quadrant m r c) (quadrant m u v)) l st' ->
     trace st' = trace st ->
     steps st' = step_plus (quadrant m r c) (quadrant m u v) :: steps st ->
     Q l st') ->
  wp (binary here operator_plus (partition this r c) (partition this u v))
     Q st.
Proof. apply wp_elementwise_quadrants. Qed.

Lemma wp_minus_quadrants here st this m k r c u v (Q : loc -> state -> Prop) :
  objs st !! this = Some m -> well_formed (S k) m ->
  r + m_size m / 2 <= m_size m -> c + m_size m / 2 <= m_size m ->
  u + m_size m / 2 <= m_size m -> v + m_size m / 2 <= m_size m ->
  (forall l st',
     allocated st (msub (quadrant m r c) (quadrant m u v)) l st' ->
     trace st' = trace st ->
     steps st' = step_minus (quadrant m r c) (quadrant m u v) :: steps st ->
     Q l st') ->
  wp (binary here operator_minus (partition this r c) (partition this u v))
     Q st.
Proof. apply wp_elementwise_quadrants. Qed.

(** ** Blocks of a larger operand *)

Lemma well_formed_corner k j B :
  (k <= 31)%nat -> well_formed j B -> well_formed k (corner (2 ^ N.of_nat k) B).
Proof.
  intros Hk WB. apply well_formed_tabulate; [exact Hk|].
  intros i l. eapply well_formed_entry, WB.
Qed.

Lemma entry_corner k B i j :
  i < 2 ^ N.of_nat k -> j < 2 ^ N.of_nat k ->
  entry (corner (2 ^ N.of_nat k) B) i j = entry B i j.
Proof. intros Hi Hj. unfold corner. apply entry_tabulate; assumption. Qed.

Lemma pow2_le (k j : nat) : (k <= j)%nat -> 2 ^ N.of_nat k <= 2 ^ N.of_nat j.
Proof. intros H. apply N.pow_le_mono_r; lia. Qed.

Lemma corner_quadrant k j B r c :
  (S k <= 31)%nat -> (k <= j)%nat -> well_formed (S j) B ->
  r <= 2 ^ N.of_nat k -> c <= 2 ^ N.of_nat k ->
  quadrant (corner (2 ^ N.of_nat (S k)) B) r c =
  corner (2 ^ N.of_nat k) (quadrant B r c).
Proof.
  intros Hk Hkj WB Hr Hc.
  pose proof (pow2_le k j Hkj) as Hle.
  assert (well_formed (S k) (corner (2 ^ N.of_nat (S k)) B)) as WC
    by (eapply well_formed_corner; eassumption).
  apply (well_formed_eq k).
  - apply well_formed_quadrant, WC.
  - eapply (well_formed_corner k j); [lia|]. apply well_formed_quadrant, WB.
  - intros i l Hi Hl.
    rewrite (m_size_well_formed k) in Hi, Hl
      by (apply well_formed_quadrant, WC).
    rewrite (entry_quadrant k) by assumption.
    rewrite entry_corner by (rewrite pow2_succ; lia).
    rewrite entry_corner by assumption.
    rewrite (entry_quadrant j) by (assumption || lia). reflexivity.
Qed.

Lemma corner_same k B :
  well_formed k B -> corner (2 ^ N.of_nat k) B = B.
Proof.
  intros WB. pose proof WB as (Hk & _).
  apply (well_formed_eq k); [eapply well_formed_corner; eassumption | exact WB |].
  intros i j Hi Hj.
  rewrite (m_size_well_formed k) in Hi, Hj
    by (eapply well_formed_corner; eassumption).
  apply entry_corner; assumption.
Qed.

(** ** multiply *)

Ltac advance Hext :=
  match type of Hext with
  | extends ?st _ =>
      repeat match goal with
      | H : objs st !! _ = Some _ |- _ =>
          apply (extends_lookup _ _ _ _ Hext) in H
      | H : extends _ st |- _ =>
          apply (fun h => extends_trans _ _ _ h Hext) in H
      end
  end.

Ltac forward Hext :=
  pose proof (extends_length _ _ Hext); advance Hext; clear Hext.

(** The trace did not change: the recorded calls are those of before. *)
Ltac track Ht :=
  lazymatch type of Ht with
  | trace ?st' = trace ?st =>
      try match goal with
          | Htr : calls_from ?n st = _ |- _ =>
              rewrite <- (calls_from_same n st st' Ht) in Htr
          end;
      clear Ht
  end.

Ltac side := first [ eassumption | wf_solve | reflexivity ].

Tactic Notation "step" constr(lem) "as" ident(l) ident(st') :=
  let Hext := fresh "Hext" in
  let Hf := fresh "Hfresh" in
  let Hl := fresh "Hl" in
  let Ht := fresh "Ht" in
  apply wp_bind; eapply lem;
  [ side ..
  | intros l st' (Hext & Hf & Hl) Ht;
    pose proof (lookup_lt_Some _ _ _ Hl);
    forward Hext; track Ht ].

(** The trace and the steps of the run so far, from those of the state
    [st] in which it began. *)
Ltac begin_at st n :=
  let t0 := fresh "t0" in
  let s0 := fresh "s0" in
  pose proof (eq_refl (trace st)) as Htr;
  set (t0 := trace st) in Htr at 2;
  assert (Ht0 : t0 = trace st) by reflexivity;
  clearbody t0;
  pose proof (eq_refl (steps_from n st)) as Hst;
  set (s0 := steps_from n st) in Hst at 2;
  assert (Hs0 : s0 = steps_from n st) by reflexivity;
  clearbody s0.

(** The trace after an operation, from what the operation added. *)
Ltac chase Ht :=
  lazymatch type of Ht with
  | trace _ = ?rhs =>
      lazymatch rhs with
      | context [trace ?st] =>
          match goal with
          | Htr : trace st = _ |- _ =>
              rewrite Htr in Ht; clear Htr; rename Ht into Htr
          end
      end
  end.

Ltac level_true :=
  solve [ reflexivity
        | cbn [step_level]; apply N.leb_le;
          erewrite m_size_well_formed by wf_solve; rewrite ?pow2_succ; lia ].

Ltac level_false :=
  solve [ cbn [step_level]; apply N.leb_gt;
          erewrite m_size_well_formed by wf_solve; rewrite ?pow2_succ; lia ].

(** The steps at the level of the run after an operation, from what the
    operation recorded. *)
Ltac note Hs :=
  lazymatch type of Hs with
  | steps ?st' = steps ?st =>
      match goal with
      | Hst : steps_from ?n st = _ |- _ =>
          apply (steps_from_same n) in Hs;
          rewrite Hst in Hs; clear Hst; rename Hs into Hst
      end
  | steps ?st' = ?e :: steps ?st =>
      match goal with
      | Hst : steps_from ?n st = _ |- _ =>
          first [ apply (steps_from_step n) in Hs; [|level_true]
                | apply (steps_from_below n) in Hs; [|level_false] ];
          rewrite Hst in Hs; clear Hst; rename Hs into Hst
      end
  | steps_from ?n ?st' = steps_from ?n ?st =>
      match goal with
      | Hst : steps_from n st = _ |- _ =>
          rewrite Hst in Hs; clear Hst; rename Hs into Hst
      end
  | steps_from ?m ?st' = step_multiply ?X ?Y :: steps_from ?m ?st =>
      match goal with
      | Hst : steps_from ?n st = _ |- _ =>
          first [ rewrite Hst in Hs
                | apply (fun h => steps_quiet_above m n st st' X Y h) in Hs;
                  [ rewrite Hst in Hs
                  | apply m_size_well_formed; wf_solve
                  | first [ eassumption | rewrite ?pow2_succ; lia ] ] ];
          clear Hst; rename Hs into Hst
      end
  end.

(** An operation that returns a new object, followed by others. *)
Tactic Notation "go" constr(lem) "as" ident(l) ident(st') :=
  let Hext := fresh "Hext" in
  let Hf := fresh "Hfresh" in
  let Hl := fresh "Hl" in
  let Ht := fresh "Ht" in
  let Hs := fresh "Hs" in
  apply wp_bind; eapply lem;
  [ side ..
  | intros l st' (Hext & Hf & Hl) Ht Hs;
    pose proof (lookup_lt_Some _ _ _ Hl);
    forward Hext; chase Ht; note Hs ].

(** The same as the last operation of a sequence. *)
Tactic Notation "arrive" constr(lem) "as" ident(l) ident(st') :=
  let Hext := fresh "Hext" in
  let Hf := fresh "Hfresh" in
  let Hl := fresh "Hl" in
  let Ht := fresh "Ht" in
  let Hs := fresh "Hs" in
  eapply lem;
  [ side ..
  | intros l st' (Hext & Hf & Hl) Ht Hs;
    pose proof (lookup_lt_Some _ _ _ Hl);
    forward Hext; chase Ht; note Hs ].

(** An operation that returns nothing and constructs nothing. *)
Tactic Notation "pass" constr(lem) "as" ident(st') :=
  let Hext := fresh "Hext" in
  let Ht := fresh "Ht" in
  let Hs := fresh "Hs" in
  apply wp_bind; eapply lem;
  [ side ..
  | intros st' Hext Ht Hs; forward Hext; chase Ht; note Hs ].

Section Products.
Variables (k fuel : nat).
Hypothesis IH :
  forall j st this other A B (Q : loc -> state -> Prop),
    (k <= j)%nat ->
    objs st !! this = Some A -> objs st !! other = Some B ->
    well_formed k A -> well_formed j B ->
    (forall l st',
       allocated st (product A (corner (2 ^ N.of_nat k) B)) l st' ->
       trace st' = multiply_calls k ++ trace st ->
       steps_from (2 ^ N.of_nat k) st' =
         step_multiply A B :: steps_from (2 ^ N.of_nat k) st ->
       Q l st') ->
    wp (multiply_rec fuel this other) Q st.

(** The sum of two products of quadrants, whichever of the two is computed
    first. *)
Lemma wp_sum_of_products here j n st this other A B r c r' c' u v u' v'
      (Q : loc -> state -> Prop) :
  (k <= j)%nat -> 2 ^ N.of_nat k < n ->
  objs st !! this = Some A -> objs st !! other = Some B ->
  well_formed (S k) A -> well_formed (S j) B ->
  r + m_size A / 2 <= m_size A -> c + m_size A / 2 <= m_size A ->
  r' + m_size B / 2 <= m_size B -> c' + m_size B / 2 <= m_size B ->
  u + m_size A / 2 <= m_size A -> v + m_size A / 2 <= m_size A ->
  u' + m_size B / 2 <= m_size B -> v' + m_size B / 2 <= m_size B ->
  (forall l st',
     allocated st
       (madd (product (quadrant A r c)
                      (corner (2 ^ N.of_nat k) (quadrant B r' c')))
             (product (quadrant A u v)
                      (corner (2 ^ N.of_nat k) (quadrant B u' v')))) l st' ->
     trace st' = (multiply_calls k ++ multiply_calls k) ++ trace st ->
     steps_from n st' = steps_from n st ->
     Q l st') ->
  wp (binary here operator_plus
        (call_on (partition this r c) (partition other r' c')
                 (multiply_rec fuel))
        (call_on (partition this u v) (partition other u' v')
                 (multiply_rec fuel))) Q st.
Proof using IH.
  intros Hkj Hn HA HB WA WB Hr Hc Hr' Hc' Hu Hv Hu' Hv' HQ.
  pose proof (extends_refl st) as Hacc.
  pose proof (pow2_pos k) as Hge1.
  begin_at st n.
  unfold call_on. apply wp_binary.
  - apply wp_bind.
    go wp_partition_steps as a st1.
    go wp_partition_steps as b st2.
    arrive (IH j) as p st3.
    apply wp_bind.
    go wp_partition_steps as a0 st4.
    go wp_partition_steps as b0 st5.
    arrive (IH j) as q st6.
    arrive wp_plus_steps as l st7.
    apply HQ; [split; [|split] | |].
    + exact Hacc.
    + lia.
    + assumption.
    + rewrite Htr, Ht0, <- !app_assoc. reflexivity.
    + rewrite Hst, Hs0. reflexivity.
  - apply wp_bind.
    go wp_partition_steps as a st1.
    go wp_partition_steps as b st2.
    arrive (IH j) as p st3.
    apply wp_bind.
    go wp_partition_steps as a0 st4.
    go wp_partition_steps as b0 st5.
    arrive (IH j) as q st6.
    arrive wp_plus_steps as l st7.
    apply HQ; [split; [|split] | |].
    + exact Hacc.
    + lia.
    + assumption.
    + rewrite Htr, Ht0, <- !app_assoc. reflexivity.
    + rewrite Hst, Hs0. reflexivity.
Qed.

End Products.

(** What a call of [multiply] returns, enters and records. *)
Lemma multiply_rec_run k :
  forall fuel j st this other A B (Q : loc -> state -> Prop),
    (k < fuel)%nat -> (k <= j)%nat ->
    objs st !! this = Some A -> objs st !! other = Some B ->
    well_formed k A -> well_formed j B ->
    (forall l st',
       allocated st (product A (corner (2 ^ N.of_nat k) B)) l st' ->
       trace st' = multiply_calls k ++ trace st ->
       steps_from (2 ^ N.of_nat k) st' =
         step_multiply A B :: steps_from (2 ^ N.of_nat k) st ->
       Q l st') ->
    wp (multiply_rec fuel this other) Q st.
Proof.
  induction k as [|k IH];
    intros fuel j st this other A B Q Hfuel Hkj HA HB WA WB HQ;
    (destruct fuel as [|fuel]; [lia|]); cbn [multiply_rec];
    pose proof (extends_refl st) as Hacc;
    destruct (well_formed_bounds _ _ WA) as (_ & HzA & Hp2);
    destruct (well_formed_bounds _ _ WB) as (HB1 & HzB & _);
    pose proof WA as (Hk & HsA & HlA & _);
    pose proof WB as (_ & HsB & HlB & _);
    [ begin_at st (2 ^ N.of_nat 0) | begin_at st (2 ^ N.of_nat (S k)) ];
    (apply wp_bind; eapply wp_deref; [eassumption|]);
    pass wp_log_steps as st1;
    pass wp_record_steps as st2.
  - change (2 ^ N.of_nat 0) with 1 in HsA.
    go wp_new_matrix_steps as result st3.
    rewrite HsA in Hl, Htr |- *. change (1 =? 1) with true. cbv iota.
    change (zeros 1) with (mkMatrix 1 [0%Z]) in Hl.
    apply wp_bind.
    eapply wp_at; [eassumption | assumption | assumption | lia | lia |].
    apply wp_bind.
    eapply wp_at; [eassumption | assumption | assumption | lia | lia |].
    apply wp_bind.
    eapply wp_at_ref; [eassumption | reflexivity | reflexivity | reflexivity
                      | reflexivity |].
    apply wp_bind. eapply wp_store_steps; [eassumption | simpl; lia |].
    intros st4 Ho4 Hc4 Hs4. apply wp_ret, HQ; [split; [|split] | |].
    + eapply extends_update; [exact Hacc | exact Ho4 | lia].
    + lia.
    + rewrite Ho4, list_lookup_insert_eq by assumption.
      rewrite product_size_1 by assumption. reflexivity.
    + rewrite Hc4, Htr, Ht0. reflexivity.
    + rewrite (steps_from_same _ _ _ Hs4), Hst, Hs0. reflexivity.
  - destruct j as [|j]; [lia|].
    destruct (well_formed_half _ _ WA) as (HhA & HdA).
    destruct (well_formed_half _ _ WB) as (HhB & HdB).
    pose proof (pow2_pos k) as Hge1.
    pose proof (pow2_le k j ltac:(lia)) as Hle.
    rewrite <- HhA, <- HhB in Hle.
    assert (2 ^ N.of_nat k < 2 ^ N.of_nat (S k)) as Hlt
      by (rewrite pow2_succ; lia).
    pose proof (well_formed_zeros (S k) Hk) as Wz. rewrite <- HsA in Wz.
    assert (forall j0 st0 this0 other0 A0 B0 (Q0 : loc -> state -> Prop),
              (k <= j0)%nat ->
              objs st0 !! this0 = Some A0 -> objs st0 !! other0 = Some B0 ->
              well_formed k A0 -> well_formed j0 B0 ->
              (forall l st',
                 allocated st0 (product A0 (corner (2 ^ N.of_nat k) B0)) l st' ->
                 trace st' = multiply_calls k ++ trace st0 ->
                 steps_from (2 ^ N.of_nat k) st' =
                   step_multiply A0 B0 :: steps_from (2 ^ N.of_nat k) st0 ->
                 Q0 l st') ->
              wp (multiply_rec fuel this0 other0) Q0 st0) as Hrec.
    { intros j0 st0 this0 other0 A0 B0 Q0 Hj0. apply IH; lia. }
    go wp_new_matrix_steps as result st3.
    replace (m_size A =? 1) with false by (symmetry; apply N.eqb_neq; lia).
    unfold Size.div.
    go (wp_sum_of_products k fuel Hrec (112, 0)%nat j (2 ^ N.of_nat (S k)))
      as R_11 st4.
    go (wp_sum_of_products k fuel Hrec (115, 0)%nat j (2 ^ N.of_nat (S k)))
      as R_12 st5.
    go (wp_sum_of_products k fuel Hrec (118, 0)%nat j (2 ^ N.of_nat (S k)))
      as R_21 st6.
    go (wp_sum_of_products k fuel Hrec (121, 0)%nat j (2 ^ N.of_nat (S k)))
      as R_22 st7.
    apply wp_bind. eapply wp_combine_steps; [side ..|].
    intros st8 Ho Hc Hs. chase Hc. note Hs.
    apply wp_ret, HQ; [split; [|split] | |].
    + eapply extends_update; [exact Hacc | exact Ho | lia].
    + lia.
    + rewrite Ho, list_lookup_insert_eq
        by (eapply lookup_lt_Some; eassumption).
      f_equal.
      assert (well_formed (S k) (corner (2 ^ N.of_nat (S k)) B)) as WC
        by (eapply well_formed_corner; eassumption).
      rewrite <- (block_product_correct k A _ WA WC).
      unfold block_product. cbv zeta.
      rewrite !(corner_quadrant k j) by (assumption || lia).
      reflexivity.
    + rewrite Htr, Ht0, HsA. cbn [multiply_calls replicate concat].
      rewrite app_nil_r, <- !app_assoc. reflexivity.
    + rewrite Hst, Hs0. reflexivity.
Qed.


Lemma calls_from_multiply k st st' :
  trace st' = multiply_calls k ++ trace st ->
  calls_from (2 ^ N.of_nat k) st' =
  call_multiply (2 ^ N.of_nat k) :: calls_from (2 ^ N.of_nat k) st.
Proof.
  intros H. unfold calls_from.
  rewrite H, List.filter_app, filter_multiply_calls. reflexivity.
Qed.

Lemma multiply_rec_spec k :
  forall fuel st this other A B (Q : loc -> state -> Prop),
    (k < fuel)%nat ->
    objs st !! this = Some A -> objs st !! other = Some B ->
    well_formed k A -> well_formed k B ->
    (forall l st',
       allocated st (product A B) l st' ->
       calls_from (m_size A) st' =
         call_multiply (m_size A) :: calls_from (m_size A) st ->
       Q l st') ->
    wp (multiply_rec fuel this other) Q st.
Proof.
  intros fuel st this other A B Q Hfuel HA HB WA WB HQ.
  eapply (multiply_rec_run k fuel k); try eassumption; [lia|].
  intros l st' Hal Ht _. apply HQ.
  - rewrite (corner_same k B WB) in Hal. exact Hal.
  - rewrite (m_size_well_formed k A WA). apply calls_from_multiply, Ht.
Qed.

Lemma size_nat_pow2 (k : nat) : N.size_nat (2 ^ N.of_nat k) = S k.
Proof.
  induction k as [|k IH]; [reflexivity|].
  rewrite pow2_succ.
  destruct (2 ^ N.of_nat k) as [|p]; [discriminate IH|].
  change (2 * N.pos p) with (N.pos p~0).
  unfold N.size_nat in *. cbn [Pos.size_nat]. congruence.
Qed.

Lemma depth_suffices k A : well_formed k A -> (k < depth (m_size A))%nat.
Proof.
  intros WA. unfold depth.
  rewrite (m_size_well_formed k A WA), size_nat_pow2. lia.
Qed.

Lemma wp_multiply_run st this other A B k j (Q : loc -> state -> Prop) :
  objs st !! this = Some A -> objs st !! other = Some B ->
  well_formed k A -> well_formed j B -> (k <= j)%nat ->
  (forall l st',
     allocated st (product A (corner (2 ^ N.of_nat k) B)) l st' ->
     trace st' = multiply_calls k ++ trace st ->
     steps_from (2 ^ N.of_nat k) st' =
       step_multiply A B :: steps_from (2 ^ N.of_nat k) st ->
     Q l st') ->
  wp (multiply this other) Q st.
Proof.
  intros HA HB WA WB Hkj HQ. unfold multiply.
  apply wp_bind. eapply wp_deref; [eassumption|].
  apply (multiply_rec_run k _ j _ _ _ A B); try assumption.
  apply depth_suffices, WA.
Qed.

Lemma wp_multiply_steps st this other A B k (Q : loc -> state -> Prop) :
  objs st !! this = Some A -> objs st !! other = Some B ->
  well_formed k A -> well_formed k B ->
  (forall l st',
     allocated st (product A B) l st' ->
     trace st' = multiply_calls k ++ trace st ->
     steps_from (2 ^ N.of_nat k) st' =
       step_multiply A B :: steps_from (2 ^ N.of_nat k) st ->
     Q l st') ->
  wp (multiply this other) Q st.
Proof.
  intros HA HB WA WB HQ.
  apply (wp_multiply_run _ _ _ A B k k); try assumption; [lia|].
  rewrite (corner_same k B WB). exact HQ.
Qed.

Lemma wp_multiply st this other A B k (Q : loc -> state -> Prop) :
  objs st !! this = Some A -> objs st !! other = Some B ->
  well_formed k A -> well_formed k B ->
  (forall l st',
     allocated st (product A B) l st' ->
     calls_from (m_size A) st' =
       call_multiply (m_size A) :: calls_from (m_size A) st ->
     Q l st') ->
  wp (multiply this other) Q st.
Proof.
  intros HA HB WA WB HQ. unfold multiply.
  apply wp_bind. eapply wp_deref; [eassumption|].
  apply (multiply_rec_spec k _ _ _ _ A B); try assumption.
  apply depth_suffices, WA.
Qed.

(** ** strassen *)

(** What a call of [strassen] above size 1 returns, enters and records. *)
Lemma strassen_run k st this other A B (Q : loc -> state -> Prop) :
  objs st !! this = Some A -> objs st !! other = Some B ->
  well_formed (S k) A -> well_formed (S k) B ->
  (forall l st',
     allocated st (strassen_product product A B) l st' ->
     trace st' =
       concat (replicate 7 (multiply_calls k)) ++
       call_strassen (m_size A) :: trace st ->
     steps_from (2 ^ N.of_nat k) st' =
       rev (strassen_run_steps A B) ++ steps_from (2 ^ N.of_nat k) st ->
     Q l st') ->
  wp (strassen this other) Q st.
Proof.
  intros HA HB WA WB HQ. unfold strassen, call_on.
  pose proof (extends_refl st) as Hacc.
  destruct (well_formed_half _ _ WA) as (HhA & HdA).
  destruct (well_formed_half _ _ WB) as (HhB & HdB).
  pose proof (pow2_pos k) as Hge1.
  pose proof WA as (Hk & HsA & _).
  pose proof (well_formed_zeros (S k) Hk) as Wz. rewrite <- HsA in Wz.
  destruct (well_formed_bounds _ _ WA) as (_ & _ & Hp2).
  begin_at st (2 ^ N.of_nat k).
  apply wp_bind. eapply wp_deref; [eassumption|].
  pass wp_log_steps as st1.
  pass wp_record_steps as st2.
  replace (m_size A =? 1) with false by (symmetry; apply N.eqb_neq; lia).
  go wp_new_matrix_steps as result st3.
  unfold Size.div.
  (* P1 *)
  apply wp_bind.
  go wp_partition_steps as a1 st4.
  go wp_minus_quadrants as b1 st5.
  arrive wp_multiply_steps as P1 st6.
  (* P2 *)
  apply wp_bind.
  go wp_plus_quadrants as a2 st7.
  go wp_partition_steps as b2 st8.
  arrive wp_multiply_steps as P2 st9.
  (* P3 *)
  apply wp_bind.
  go wp_plus_quadrants as a3 st10.
  go wp_partition_steps as b3 st11.
  arrive wp_multiply_steps as P3 st12.
  (* P4 *)
  apply wp_bind.
  go wp_partition_steps as a4 st13.
  go wp_minus_quadrants as b4 st14.
  arrive wp_multiply_steps as P4 st15.
  (* P5 *)
  apply wp_bind.
  go wp_plus_quadrants as a5 st16.
  go wp_plus_quadrants as b5 st17.
  arrive wp_multiply_steps as P5 st18.
  (* P6 *)
  apply wp_bind.
  go wp_minus_quadrants as a6 st19.
  go wp_plus_quadrants as b6 st20.
  arrive wp_multiply_steps as P6 st21.
  (* P7 *)
  apply wp_bind.
  go wp_minus_quadrants as a7 st22.
  go wp_plus_quadrants as b7 st23.
  arrive wp_multiply_steps as P7 st24.
  go wp_plus_steps as u1 st25.
  go wp_minus_steps as u2 st26.
  go wp_plus_steps as R_11 st27.
  go wp_plus_steps as R_12 st28.
  go wp_plus_steps as R_21 st29.
  go wp_plus_steps as u3 st30.
  go wp_minus_steps as u4 st31.
  go wp_minus_steps as R_22 st32.
  apply wp_bind. eapply wp_combine_steps; [side ..|].
  intros st33 Ho Hc Hs. chase Hc. note Hs.
  apply wp_ret, HQ; [split; [|split] | |].
  - eapply extends_update; [exact Hacc | exact Ho | lia].
  - lia.
  - rewrite Ho, list_lookup_insert_eq
      by (eapply lookup_lt_Some; eassumption).
    reflexivity.
  - rewrite Htr, Ht0. cbn [replicate concat].
    rewrite app_nil_r, <- !app_assoc. reflexivity.
  - rewrite Hst, Hs0. reflexivity.
Qed.

Lemma filter_repeated_single {A} (f : A -> bool) n (t : list A) c :
  List.filter f t = [c] ->
  List.filter f (concat (replicate n t)) = replicate n c.
Proof.
  intros H. induction n as [|n IH]; [reflexivity|].
  cbn [replicate concat]. rewrite List.filter_app, H, IH. reflexivity.
Qed.

Lemma strassen_spec k st this other A B (Q : loc -> state -> Prop) :
  objs st !! this = Some A -> objs st !! other = Some B ->
  well_formed k A -> well_formed k B ->
  (forall l st',
     extends st st' ->
     (length (objs st) <= l)%nat ->
     objs st' !! l =
       Some (if m_size A =? 1 then product A B
             else strassen_product product A B) ->
     calls_from (strassen_level (m_size A)) st' =
       strassen_entries (m_size A) ++
       calls_from (strassen_level (m_size A)) st ->
     Q l st') ->
  wp (strassen this other) Q st.
Proof.
  intros HA HB WA WB HQ.
  unfold strassen_level, strassen_entries in *.
  destruct k as [|k].
  - unfold strassen.
    pose proof (extends_refl st) as Hacc.
    apply wp_bind. eapply wp_deref; [eassumption|].
    apply wp_bind. apply wp_log. intros st1 Hext1 Ht1.
    pose proof (calls_from_log 1 _ _ _ Ht1 eq_refl) as Htr.
    clear Ht1. forward Hext1.
    apply wp_bind. apply wp_record. intros st2 Hext2 Ht2.
    forward Hext2. track Ht2.
    pose proof (m_size_well_formed _ _ WA) as HsA.
    change (2 ^ N.of_nat 0) with 1 in HsA.
    rewrite HsA in HQ, Htr |- *.
    change (1 =? 1) with true in HQ |- *. cbv iota in HQ |- *.
    eapply wp_multiply; [eassumption ..|].
    intros l st' (Hext & Hf & Hl) Hm.
    rewrite HsA, Htr in Hm.
    apply HQ; [ eapply extends_trans; eassumption | lia | exact Hl | exact Hm ].
  - destruct (well_formed_half _ _ WA) as (HhA & HdA).
    pose proof (pow2_pos k) as Hge1.
    replace (m_size A =? 1) with false in HQ
      by (symmetry; apply N.eqb_neq; lia).
    eapply strassen_run; [eassumption ..|].
    intros l st' (Hext & Hf & Hl) Ht _.
    apply HQ; try assumption.
    rewrite HhA. unfold calls_from.
    rewrite Ht, List.filter_app.
    rewrite (filter_repeated_single _ 7 _ _ (filter_multiply_calls k)).
    rewrite <- app_assoc. reflexivity.
Qed.

(** ** What the two routines return *)

Lemma wp_returned (m : M loc) st R :
  wp m (fun l st' => objs st' !! l = Some R) st -> returned (m st) = Ok R.
Proof.
  unfold wp, returned. destruct (m st) as [[l|e] st']; [|contradiction].
  intros ->. reflexivity.
Qed.

Section Returns.
Variables (k : nat) (st : state) (a b : loc) (A B : Matrix).
Hypothesis HA : objs st !! a = Some A.
Hypothesis HB : objs st !! b = Some B.
Hypothesis WA : well_formed k A.
Hypothesis WB : well_formed k B.

Lemma multiply_returns : returned (multiply a b st) = Ok (product A B).
Proof using HA HB WA WB.
  apply wp_returned. eapply wp_multiply; try eassumption.
  intros l st' (_ & _ & Hl) _. exact Hl.
Qed.

Lemma strassen_returns_assembled :
  returned (strassen a b st) =
  Ok (if m_size A =? 1 then product A B else strassen_product product A B).
Proof using HA HB WA WB.
  apply wp_returned. eapply strassen_spec; try eassumption.
  intros l st' _ _ Hl _. exact Hl.
Qed.

Lemma strassen_returns : returned (strassen a b st) = Ok (product A B).
Proof using HA HB WA WB.
  rewrite strassen_returns_assembled. f_equal.
  destruct (m_size A =? 1) eqn:E; [reflexivity|].
  destruct k as [|k'].
  - pose proof (m_size_well_formed _ _ WA) as Hs.
    apply N.eqb_neq in E. contradiction.
  - apply (strassen_product_correct k'); assumption.
Qed.

Lemma multiply_trace :
  calls_from (m_size A) (snd (multiply a b st)) =
  call_multiply (m_size A) :: calls_from (m_size A) st.
Proof using HA HB WA WB.
  assert (wp (multiply a b)
            (fun _ st' => calls_from (m_size A) st' =
                          call_multiply (m_size A) :: calls_from (m_size A) st)
            st) as H.
  { eapply wp_multiply; try eassumption. intros l st' _ Ht. exact Ht. }
  apply wp_inv in H as (l & st' & Hrun & Ht). rewrite Hrun. exact Ht.
Qed.

Lemma strassen_trace :
  calls_from (strassen_level (m_size A)) (snd (strassen a b st)) =
  strassen_entries (m_size A) ++ calls_from (strassen_level (m_size A)) st.
Proof using HA HB WA WB.
  assert (wp (strassen a b)
            (fun _ st' =>
               calls_from (strassen_level (m_size A)) st' =
               strassen_entries (m_size A) ++
               calls_from (strassen_level (m_size A)) st) st) as H.
  { eapply strassen_spec; try eassumption. intros l st' _ _ _ Ht. exact Ht. }
  apply wp_inv in H as (l & st' & Hrun & Ht). rewrite Hrun. exact Ht.
Qed.

Lemma multiply_records :
  steps_from (m_size A) (snd (multiply a b st)) =
  step_multiply A B :: steps_from (m_size A) st.
Proof using HA HB WA WB.
  assert (wp (multiply a b)
            (fun _ st' => steps_from (m_size A) st' =
                          step_multiply A B :: steps_from (m_size A) st)
            st) as H.
  { eapply wp_multiply_steps; try eassumption. intros l st' _ _ Hs.
    rewrite (m_size_well_formed k A WA). exact Hs. }
  apply wp_inv in H as (l & st' & Hrun & Hs). rewrite Hrun. exact Hs.
Qed.

Lemma strassen_at_size_1 :
  m_size A = 1 ->
  strassen a b st =
  multiply a b (add_step (step_strassen A B) (snd (log (call_strassen 1) st))).
Proof using HA HB.
  intros Hs. unfold strassen.
  erewrite bind_ok by (unfold deref; rewrite HA; reflexivity).
  rewrite Hs. erewrite bind_ok by reflexivity.
  erewrite bind_ok by (apply record_run; [exact HA | exact HB]).
  reflexivity.
Qed.

End Returns.

Lemma entry_product_dot k A B i j :
  well_formed k A -> i < m_size A -> j < m_size A ->
  entry (product A B) i j = Int.wrap (dot A B i j).
Proof.
  intros WA Hi Hj. rewrite (m_size_well_formed k A WA) in Hi, Hj.
  apply (entry_product k); assumption.
Qed.

Example times_identity_4 :
  returned (operator_times 0%nat 1%nat (init [A4; I4])) = Ok A4 /\
  returned (multiply 0%nat 1%nat (init [A4; I4])) = Ok A4.
Proof. split; vm_compute; reflexivity. Qed.

Lemma well_formed_A2 : well_formed 1 A2.
Proof.
  split; [lia|]. split; [reflexivity|]. split; [reflexivity|].
  repeat constructor; unfold Int.min_int, Int.max_int; simpl; lia.
Defined.

Lemma well_formed_B2 : well_formed 1 B2.
Proof.
  split; [lia|]. split; [reflexivity|]. split; [reflexivity|].
  repeat constructor; unfold Int.min_int, Int.max_int; simpl; lia.
Defined.

(** C1. On matrices of the same power-of-two size, [multiply] and
    [strassen] both return the matrix product of their operands: entry
    [(i, j)] is the sum over [l] of [A(i,l) * B(l,j)], as the triple loop
    computes it in [int] arithmetic, which is the sum over the integers
    whenever that sum is an [int].  For [[1,2],[3,4]] and [[5,6],[7,8]]
    both return [[19,22],[43,50]], and for [[7]] and [[6]] both return
    [[42]]. *)
Theorem multiply_strassen_product :
  (forall k st a b A B,
     objs st !! a = Some A -> objs st !! b = Some B ->
     well_formed k A -> well_formed k B ->
     returned (multiply a b st) = Ok (product A B) /\
     returned (strassen a b st) = Ok (product A B) /\
     m_size (product A B) = m_size A /\
     forall i j, i < m_size A -> j < m_size A ->
       entry (product A B) i j = Int.wrap (dot A B i j) /\
       (Int.in_range (dot A B i j) ->
        entry (product A B) i j = dot A B i j)) /\
  returned (multiply 0%nat 1%nat (init [A2; B2])) =
    Ok (mkMatrix 2 [19; 22; 43; 50]%Z) /\
  returned (strassen 0%nat 1%nat (init [A2; B2])) =
    Ok (mkMatrix 2 [19; 22; 43; 50]%Z) /\
  returned (multiply 0%nat 1%nat (init [A1; B1])) = Ok (mkMatrix 1 [42]%Z) /\
  returned (strassen 0%nat 1%nat (init [A1; B1])) = Ok (mkMatrix 1 [42]%Z).
Proof.
  split; [|repeat split; vm_compute; reflexivity].
  intros k st a b A B HA HB WA WB. split; [|split; [|split]].
  - eapply multiply_returns; eassumption.
  - eapply strassen_returns; eassumption.
  - reflexivity.
  - intros i j Hi Hj.
    rewrite (entry_product_dot k A B i j) by assumption.
    split; [reflexivity | apply wrap_id].
Qed.

Lemma multiply_strassen_product_witness :
  returned (multiply 0%nat 1%nat (init [A2; B2])) = Ok (product A2 B2) /\
  returned (strassen 0%nat 1%nat (init [A2; B2])) = Ok (product A2 B2).
Proof.
  destruct (proj1 multiply_strassen_product 1%nat (init [A2; B2]) 0%nat 1%nat
              A2 B2 eq_refl eq_refl well_formed_A2 well_formed_B2)
    as (H1 & H2 & _).
  split; [exact H1 | exact H2].
Defined.

(** C2. On matrices of the same power-of-two size, [strassen] returns
    exactly the matrix that [multiply] returns. *)
Theorem strassen_equals_multiply k st a b A B :
  objs st !! a = Some A -> objs st !! b = Some B ->
  well_formed k A -> well_formed k B ->
  returned (strassen a b st) = returned (multiply a b st) /\
  exists R, returned (multiply a b st) = Ok R /\ well_formed k R.
Proof.
  intros HA HB WA WB.
  rewrite (strassen_returns k st a b A B), (multiply_returns k st a b A B)
    by assumption.
  split; [reflexivity|]. exists (product A B).
  split; [reflexivity | apply well_formed_product, WA].
Qed.

Lemma strassen_equals_multiply_witness :
  returned (strassen 0%nat 1%nat (init [A2; B2])) =
  returned (multiply 0%nat 1%nat (init [A2; B2])).
Proof.
  exact (proj1 (strassen_equals_multiply 1%nat (init [A2; B2]) 0%nat 1%nat
                  A2 B2 eq_refl eq_refl well_formed_A2 well_formed_B2)).
Defined.

(** C3 as stated fails: run on [[1,2],[3,4]] and [[5,6],[7,8]], [strassen]
    is entered once and each of its seven products is an entry of
    [multiply]; the algorithm of the specification, run on the same
    matrices, enters [strassen] again for each of the seven products.  The
    two return the same matrix. *)
Lemma strassen_products_call_multiply :
  trace (snd (strassen 0%nat 1%nat (init [A2; B2]))) =
    replicate 7 (call_multiply 1) ++ [call_strassen 2] /\
  trace (snd (strassen_as_specified 2 0%nat 1%nat (init [A2; B2]))) =
    concat (replicate 7 [call_multiply 1; call_strassen 1])
    ++ [call_strassen 2] /\
  trace (snd (strassen 0%nat 1%nat (init [A2; B2]))) <>
    trace (snd (strassen_as_specified 2 0%nat 1%nat (init [A2; B2]))) /\
  returned (strassen_as_specified 2 0%nat 1%nat (init [A2; B2])) =
    returned (strassen 0%nat 1%nat (init [A2; B2])).
Proof.
  split; [vm_compute; reflexivity|]. split; [vm_compute; reflexivity|].
  split; [vm_compute; discriminate | vm_compute; reflexivity].
Qed.

(** C3, amended.  At size 1 [strassen] is [multiply].  At every larger
    size it records, at the half size and in this order: for each of the
    seven products [P1 = A11*(B12-B22)], [P2 = (A11+A12)*B22],
    [P3 = (A21+A22)*B11], [P4 = A22*(B21-B11)], [P5 = (A11+A22)*(B11+B22)],
    [P6 = (A12-A22)*(B21+B22)], [P7 = (A11-A21)*(B11+B12)] the sums and
    differences of quadrants that make its operands and then a call of
    [multiply], not of [strassen], on these operands; the sums and
    differences [(P5+P4)], [(P5+P4)-P2], [((P5+P4)-P2)+P6] for [R11],
    [P1+P2] for [R12], [P3+P4] for [R21] and [(P5+P1)], [(P5+P1)-P3],
    [((P5+P1)-P3)-P7] for [R22]; and [combine] on the four.  It returns
    the matrix assembled from these four quadrants.  Of the calls at the
    half size or above, the run makes one of [strassen], its own, and then
    seven of [multiply] at the half size; a call of [multiply] returns the
    product of its operands, and it makes no call and records no step at
    its own size or above but its own. *)
Theorem strassen_steps k st a b A B :
  objs st !! a = Some A -> objs st !! b = Some B ->
  well_formed k A -> well_formed k B ->
  (m_size A = 1 ->
     strassen a b st =
     multiply a b
       (add_step (step_strassen A B) (snd (log (call_strassen 1) st)))) /\
  (m_size A <> 1 ->
     returned (strassen a b st) = Ok (strassen_product product A B) /\
     calls_from (m_size A / 2) (snd (strassen a b st)) =
       replicate 7 (call_multiply (m_size A / 2)) ++
       call_strassen (m_size A) :: calls_from (m_size A / 2) st /\
     steps_from (m_size A / 2) (snd (strassen a b st)) =
       rev (strassen_run_steps A B) ++ steps_from (m_size A / 2) st) /\
  (forall k' st' x y X Y,
     objs st' !! x = Some X -> objs st' !! y = Some Y ->
     well_formed k' X -> well_formed k' Y ->
     returned (multiply x y st') = Ok (product X Y) /\
     calls_from (m_size X) (snd (multiply x y st')) =
       call_multiply (m_size X) :: calls_from (m_size X) st' /\
     steps_from (m_size X) (snd (multiply x y st')) =
       step_multiply X Y :: steps_from (m_size X) st').
Proof.
  intros HA HB WA WB. split; [|split].
  - intros Hs. eapply strassen_at_size_1; eassumption.
  - intros Hs. pose proof Hs as Hne. apply N.eqb_neq in Hs.
    split; [|split].
    + rewrite (strassen_returns_assembled k st a b A B) by assumption.
      rewrite Hs. reflexivity.
    + pose proof (strassen_trace k st a b A B HA HB WA WB) as H.
      unfold strassen_level, strassen_entries in H. rewrite Hs in H.
      rewrite H, <- app_assoc. reflexivity.
    + destruct k as [|k];
        [exfalso; exact (Hne (m_size_well_formed _ _ WA))|].
      destruct (well_formed_half _ _ WA) as (HhA & _).
      assert (wp (strassen a b)
                (fun _ st' =>
                   steps_from (2 ^ N.of_nat k) st' =
                   rev (strassen_run_steps A B) ++
                   steps_from (2 ^ N.of_nat k) st) st) as H.
      { eapply strassen_run; try eassumption. intros l st' _ _ H. exact H. }
      apply wp_inv in H as (l & st' & Hrun & H).
      rewrite Hrun, HhA. exact H.
  - intros k' st' x y X Y HX HY WX WY. split; [|split].
    + eapply multiply_returns; eassumption.
    + eapply multiply_trace; eassumption.
    + eapply multiply_records; eassumption.
Qed.

Lemma strassen_steps_witness :
  returned (strassen 0%nat 1%nat (init [A2; B2])) =
    Ok (strassen_product product A2 B2) /\
  calls_from 1 (snd (strassen 0%nat 1%nat (init [A2; B2]))) =
    replicate 7 (call_multiply 1) ++ [call_strassen 2] /\
  steps_from 1 (snd (strassen 0%nat 1%nat (init [A2; B2]))) =
    rev (strassen_run_steps A2 B2) ++ [].
Proof.
  destruct (strassen_steps 1%nat (init [A2; B2]) 0%nat 1%nat A2 B2
              eq_refl eq_refl well_formed_A2 well_formed_B2)
    as (_ & H2 & _).
  apply H2. discriminate.
Defined.

(** ** Quadrants and their assembly *)

Lemma assemble_quadrants k m :
  well_formed (S k) m ->
  assemble (quadrant m 0 0) (quadrant m 0 (m_size m / 2))
           (quadrant m (m_size m / 2) 0)
           (quadrant m (m_size m / 2) (m_size m / 2)) = m.
Proof.
  intros Hm. destruct (well_formed_half _ _ Hm) as (Hh & _).
  pose proof Hm as (Hk & Hs & _). rewrite pow2_succ in Hs.
  rewrite Hh.
  apply (well_formed_eq (S k)); [apply well_formed_assemble; wf_solve | exact Hm |].
  intros i j Hi Hj.
  rewrite m_size_assemble in Hi, Hj.
  rewrite (m_size_well_formed k) in Hi, Hj by wf_solve.
  rewrite (entry_assemble k) by wf_solve. unfold quad_entry.
  destruct (N.ltb_spec i (2 ^ N.of_nat k)), (N.ltb_spec j (2 ^ N.of_nat k));
    rewrite (entry_quadrant k) by wf_solve;
    rewrite ?N.add_0_r; rewrite ?N.sub_add by lia; reflexivity.
Qed.

(** C4. Cutting a matrix of even size into its four quadrants and
    combining them into a matrix of the same size reproduces the matrix,
    element for element. *)
Theorem partition_combine_roundtrip k st m r X R :
  objs st !! m = Some X -> objs st !! r = Some R ->
  well_formed (S k) X -> well_formed (S k) R ->
  fst (quadrants_then_combine m r st) = Ok tt /\
  objs (snd (quadrants_then_combine m r st)) !! r = Some X.
Proof.
  intros HX HR WX WR.
  assert (wp (quadrants_then_combine m r)
            (fun _ st' => objs st' !! r = Some X) st) as H.
  { unfold quadrants_then_combine.
    destruct (well_formed_half _ _ WX) as (Hh & Hd).
    pose proof (lookup_lt_Some _ _ _ HR) as Hr.
    apply wp_bind. eapply wp_deref; [eassumption|]. unfold Size.div.
    step wp_partition as q11 st1.
    step wp_partition as q12 st2.
    step wp_partition as q21 st3.
    step wp_partition as q22 st4.
    eapply wp_combine; [side ..|].
    intros st5 Ho _.
    rewrite Ho, list_lookup_insert_eq by (eapply lookup_lt_Some; eassumption).
    f_equal. apply (assemble_quadrants k), WX. }
  apply wp_inv in H as ([] & st' & Hrun & Hl). rewrite Hrun.
  split; [reflexivity | exact Hl].
Qed.

Lemma partition_combine_roundtrip_witness :
  objs (snd (quadrants_then_combine 0%nat 1%nat (init [A2; B2]))) !! 1%nat
  = Some A2.
Proof.
  exact (proj2 (partition_combine_roundtrip 0%nat (init [A2; B2]) 0%nat 1%nat
                  A2 B2 eq_refl eq_refl well_formed_A2 well_formed_B2)).
Defined.

(** ** Sum and difference *)

Lemma msub_madd k A B :
  well_formed k A -> well_formed k B -> msub (madd A B) B = A.
Proof.
  intros WA WB.
  apply (well_formed_eq k); [wf_solve | exact WA |].
  intros i j Hi Hj.
  rewrite (m_size_well_formed k) in Hi, Hj by wf_solve.
  rewrite (entry_msub k), (entry_madd k) by wf_solve.
  unfold Int.sub, Int.add.
  rewrite <- (wrap_id (entry A i j)) at 2 by (eapply well_formed_entry, WA).
  apply eqm_wrap. rewrite wrap_eqm. apply eq_eqm. ring.
Qed.

(** C6. For matrices [A] and [B] of the same size, [(A + B) - B] is [A],
    element for element. *)
Theorem plus_minus_inverse k st a b A B :
  objs st !! a = Some A -> objs st !! b = Some B ->
  well_formed k A -> well_formed k B ->
  returned (plus_then_minus a b st) = Ok A.
Proof.
  intros HA HB WA WB. apply wp_returned. unfold plus_then_minus.
  step wp_plus as s st1.
  eapply wp_minus; [side ..|].
  intros l st2 (_ & _ & Hres) _. rewrite Hres. f_equal.
  apply (msub_madd k); assumption.
Qed.

Lemma plus_minus_inverse_witness :
  returned (plus_then_minus 0%nat 1%nat (init [A2; B2])) = Ok A2.
Proof.
  exact (plus_minus_inverse 1%nat (init [A2; B2]) 0%nat 1%nat A2 B2
           eq_refl eq_refl well_formed_A2 well_formed_B2).
Defined.

(** ** Element access *)

Lemma at_outcome st l m r c :
  objs st !! l = Some m ->
  at_ l r c st =
  (let off := Size.add (Size.mul r (m_size m)) c in
   if off <? vec_size (m_data m)
   then Ok (nth (N.to_nat off) (m_data m) 0%Z) else Err OutOfRange, st).
Proof.
  intros Hl. unfold at_, get_index, bind, deref at 1. rewrite Hl. cbv zeta.
  destruct (N.ltb_spec (Size.add (Size.mul r (m_size m)) c)
                       (vec_size (m_data m))) as [Hlt|Hge].
  - unfold ret. apply (load_run st l m Hl). unfold vec_size in Hlt. lia.
  - reflexivity.
Qed.

(** C5 as stated fails: on a matrix of size 2, the access at row 0 and
    column 3 is not rejected, it returns the element at offset 3; neither
    is the access at row [2 ^ 63] and column 1, whose offset wraps around
    to 1. *)
Lemma column_past_size_is_accepted :
  m_size A2 <= 3 /\
  at_ 0%nat 0 3 (init [A2]) = (Ok 4%Z, init [A2]) /\
  m_size A2 <= 2 ^ 63 /\
  at_ 0%nat (2 ^ 63) 1 (init [A2]) = (Ok 2%Z, init [A2]).
Proof. repeat split; vm_compute; congruence. Qed.

(** C5, amended.  Element access at [(r, c)] fails with [OutOfRange]
    exactly when the offset [r * size + c], computed in [size_t], falls
    outside the storage of [size * size] elements; otherwise it returns
    the element stored at that offset.  The check rejects every access
    with [r >= size] whose offset does not overflow; an access with
    [c >= size] is rejected only when its offset is outside the storage. *)
Theorem element_access st l m r c :
  objs st !! l = Some m ->
  length (m_data m) = N.to_nat (m_size m * m_size m) ->
  let off := Size.add (Size.mul r (m_size m)) c in
  (at_ l r c st = (Err OutOfRange, st) <-> m_size m * m_size m <= off) /\
  (off < m_size m * m_size m ->
     at_ l r c st = (Ok (nth (N.to_nat off) (m_data m) 0%Z), st)) /\
  (m_size m <= r -> r * m_size m + c < Size.modulus ->
     at_ l r c st = (Err OutOfRange, st)) /\
  (r < m_size m -> c < m_size m -> m_size m * m_size m < Size.modulus ->
     at_ l r c st = (Ok (entry m r c), st)).
Proof.
  intros Hl Hlen off.
  assert (vec_size (m_data m) = m_size m * m_size m) as Hv
    by (unfold vec_size; lia).
  rewrite (at_outcome st l m r c Hl). cbv zeta. fold off. rewrite Hv.
  split; [|split; [|split]].
  - destruct (N.ltb_spec off (m_size m * m_size m)); split;
      intros H'; try reflexivity; try lia; discriminate.
  - intros H'. destruct (N.ltb_spec off (m_size m * m_size m)); [reflexivity|lia].
  - intros Hr Hov.
    assert (off = r * m_size m + c) as ->.
    { unfold off, Size.add, Size.mul, Size.wrap.
      rewrite (N.mod_small (r * m_size m)) by lia. apply N.mod_small, Hov. }
    destruct (N.ltb_spec (r * m_size m + c) (m_size m * m_size m));
      [nia | reflexivity].
  - intros Hr Hc Hsz. pose proof (row_major_lt _ r c Hr Hc).
    assert (off = r * m_size m + c) as ->.
    { unfold off, Size.add, Size.mul, Size.wrap.
      rewrite (N.mod_small (r * m_size m)) by lia. apply N.mod_small. lia. }
    destruct (N.ltb_spec (r * m_size m + c) (m_size m * m_size m));
      [reflexivity | lia].
Qed.

Lemma element_access_witness :
  at_ 0%nat 1 0 (init [A2]) = (Ok 3%Z, init [A2]) /\
  at_ 0%nat 2 0 (init [A2]) = (Err OutOfRange, init [A2]).
Proof.
  destruct (element_access (init [A2]) 0%nat A2 1 0 eq_refl eq_refl)
    as (_ & H2 & _).
  destruct (element_access (init [A2]) 0%nat A2 2 0 eq_refl eq_refl)
    as (_ & _ & H3 & _).
  split.
  - apply H2. vm_compute. reflexivity.
  - apply H3; vm_compute; congruence.
Defined.

(** ** Operands of different sizes *)

Lemma elementwise_mismatch what op st a b A B :
  objs st !! a = Some A -> objs st !! b = Some B ->
  m_size A <> m_size B ->
  elementwise what op a b st = (Err InvalidArgument, st).
Proof.
  intros HA HB Hne. unfold elementwise, bind, deref.
  rewrite HA, HB. apply N.eqb_neq in Hne. rewrite Hne. reflexivity.
Qed.

Lemma times_mismatch st a b A B :
  objs st !! a = Some A -> objs st !! b = Some B ->
  m_size A <> m_size B ->
  operator_times a b st = (Err InvalidArgument, st).
Proof.
  intros HA HB Hne. unfold operator_times, bind, deref.
  rewrite HA, HB. apply N.eqb_neq in Hne. rewrite Hne. reflexivity.
Qed.

Lemma wp_returns {A} (m : M A) st :
  wp m (fun _ _ => True) st -> exists a st', m st = (Ok a, st').
Proof.
  intros H. apply wp_inv in H as (a & st' & Hrun & _). eauto.
Qed.

(** C7. When the sizes of [A] and [B] differ, [A + B], [A - B] and
    [A * B] fail with [InvalidArgument]: no matrix is constructed and the
    state, both operands included, is what it was before the call.  When
    the sizes are equal, the three operations return a matrix, so none of
    them raises [InvalidArgument]. *)
Theorem size_mismatch_rejected st a b A B :
  objs st !! a = Some A -> objs st !! b = Some B ->
  (m_size A <> m_size B ->
     operator_plus a b st = (Err InvalidArgument, st) /\
     operator_minus a b st = (Err InvalidArgument, st) /\
     operator_times a b st = (Err InvalidArgument, st)) /\
  (forall k, well_formed k A -> well_formed k B ->
     (exists l st', operator_plus a b st = (Ok l, st')) /\
     (exists l st', operator_minus a b st = (Ok l, st')) /\
     (exists l st', operator_times a b st = (Ok l, st'))).
Proof.
  intros HA HB. split.
  - intros Hne. split; [|split].
    + eapply elementwise_mismatch; eassumption.
    + eapply elementwise_mismatch; eassumption.
    + eapply times_mismatch; eassumption.
  - intros k WA WB. split; [|split]; apply wp_returns.
    + eapply wp_plus; [eassumption ..|]. trivial.
    + eapply wp_minus; [eassumption ..|]. trivial.
    + unfold operator_times.
      apply wp_bind. eapply wp_deref; [eassumption|].
      apply wp_bind. eapply wp_deref; [eassumption|].
      replace (m_size A =? m_size B) with true.
      * eapply strassen_spec; [eassumption ..|]. trivial.
      * symmetry. apply N.eqb_eq.
        rewrite (m_size_well_formed k A WA), (m_size_well_formed k B WB).
        reflexivity.
Qed.

Lemma size_mismatch_rejected_witness :
  operator_times 0%nat 1%nat (init [A2; B1]) =
    (Err InvalidArgument, init [A2; B1]) /\
  exists l st', operator_times 0%nat 1%nat (init [A2; B2]) = (Ok l, st').
Proof.
  split.
  - apply (proj1 (size_mismatch_rejected (init [A2; B1]) 0%nat 1%nat A2 B1
                    eq_refl eq_refl)).
    discriminate.
  - apply (proj2 (size_mismatch_rejected (init [A2; B2]) 0%nat 1%nat A2 B2
                    eq_refl eq_refl) 1%nat well_formed_A2 well_formed_B2).
Defined.

(** ** Construction *)

Lemma randomize_run_values st l m :
  objs st !! l = Some m ->
  randomize l st =
  (Ok tt,
   {| objs := <[l := mkMatrix (m_size m)
                        (random_values st (length (m_data m)))]> (objs st);
      trace := trace st; steps := steps st;
      drawn := (drawn st + length (m_data m))%nat; host := host st |}).
Proof.
  intros Hl. pose proof (lookup_lt_Some _ _ _ Hl) as Hlt.
  set (G := random_values st (length (m_data m))).
  assert (length G = length (m_data m)) as HG
    by (unfold G, random_values; rewrite length_fmap, length_seq; reflexivity).
  set (S := fun p : N =>
    {| objs := <[l := mkMatrix (m_size m)
                         (overwritten G (m_data m) (N.to_nat p))]> (objs st);
       trace := trace st; steps := steps st;
       drawn := (drawn st + N.to_nat p)%nat; host := host st |}).
  unfold randomize.
  erewrite bind_ok by (unfold deref; rewrite Hl; reflexivity).
  apply (for_range_progress _ S).
  - unfold S. rewrite overwritten_0.
    replace (mkMatrix (m_size m) (m_data m)) with m
      by (destruct m; reflexivity).
    rewrite list_insert_id by exact Hl.
    change (N.to_nat 0) with 0%nat. rewrite Nat.add_0_r.
    destruct st; reflexivity.
  - unfold S, vec_size. rewrite Nat2N.id.
    rewrite overwritten_all; [reflexivity | exact HG | lia].
  - intros p Hp. unfold vec_size in Hp.
    erewrite bind_ok by reflexivity.
    erewrite store_run;
      [| simpl; apply list_lookup_insert_eq, Hlt
       | simpl; rewrite length_overwritten; lia ].
    unfold S, set_objs. simpl.
    rewrite list_insert_insert_eq, overwritten_step; [| | lia].
    + rewrite N2Nat.inj_succ. do 2 f_equal. lia.
    + unfold G, random_values.
      rewrite list_lookup_fmap, lookup_seq_lt by lia. reflexivity.
Qed.




Lemma odd_not_power_of_two s :
  N.odd s = true -> s <> 1 -> ~ power_of_two s.
Proof.
  intros Hodd H1 [k Hk]. destruct (N.eq_dec k 0) as [->|Hne].
  - apply H1. exact Hk.
  - rewrite Hk, N.odd_pow in Hodd by exact Hne. discriminate.
Qed.

(** C8 fails on the code at sizes of more than 53 binary digits.  The
    size [2 ^ 63 + 1] is not a power of two; converted to [double] for
    [std::log2] it becomes [2 ^ 63], whose logarithm is 63, and the check
    passes: instead of failing with [InvalidArgument], the constructor
    returns a matrix of size [2 ^ 63 + 1], which has
    [(2 ^ 63 + 1) * (2 ^ 63 + 1) = 1] elements as [size_t] counts, on
    every platform. *)
Theorem constructor_accepts_rounded_size :
  ~ power_of_two (2 ^ 63 + 1) /\
  2 ^ 63 + 1 < Size.modulus /\
  Double.of_size (2 ^ 63 + 1) = 2 ^ 63 /\
  Double.log2 (2 ^ 63 + 1) = Double.log2 (2 ^ 63) /\
  Size.mul (2 ^ 63 + 1) (2 ^ 63 + 1) = 1 /\
  forall st,
    Matrix_ctor (2 ^ 63 + 1) true st =
    (Ok (length (objs st)),
     set_objs st (objs st ++ [mkMatrix (2 ^ 63 + 1) [0%Z]])).
Proof.
  split; [apply odd_not_power_of_two; [reflexivity | discriminate]|].
  split; [reflexivity|]. split; [reflexivity|]. split; [reflexivity|].
  split; [reflexivity|].
  intros st. unfold Matrix_ctor.
  erewrite bind_ok by reflexivity.
  replace (Double.ne_zero _) with false by reflexivity.
  erewrite bind_ok by reflexivity.
  erewrite bind_ok by apply push_back_loop.
  reflexivity.
Qed.

(** C10. Constructing a matrix of size 0 fails with [InvalidArgument]:
    [log2(0)] is minus infinity, its remainder modulo 1 is not a number,
    and that compares unequal to 0. *)
Theorem constructor_rejects_zero :
  Double.log2 0 = Double.Inf true /\
  Double.fmod_1 (Double.Inf true) = Double.NaN /\
  Double.ne_zero Double.NaN = true /\
  forall e st, Matrix_ctor 0 e st = (Err InvalidArgument, st).
Proof. repeat split. Qed.

(** ** What a run leaves untouched *)

Section Keeps.
Variable Inv : list Matrix -> Prop.
Variable writable : loc -> Prop.
Hypothesis grow : forall h m, Inv h -> Inv (h ++ [m]).
Hypothesis fresh : forall h, Inv h -> writable (length h).
Hypothesis update_store : forall h l m i x,
  writable l -> h !! l = Some m -> Inv h ->
  Inv (<[l := mkMatrix (m_size m) (<[i := x]> (m_data m))]> h).
Hypothesis update_push : forall h l m x,
  writable l -> h !! l = Some m -> Inv h ->
  Inv (<[l := mkMatrix (m_size m) (m_data m ++ [x])]> h).

Lemma keeps_ret {A} (a : A) (Q : A -> Prop) : Q a -> keeps Inv (ret a) Q.
Proof. intros H st Hst. split; assumption. Qed.

Lemma keeps_throw {A} e (Q : A -> Prop) : keeps Inv (throw e) Q.
Proof. intros st Hst. split; [assumption | exact Logic.I]. Qed.

Lemma keeps_bind {A B} (m : M A) (f : A -> M B) Q Q' :
  keeps Inv m Q -> (forall a, Q a -> keeps Inv (f a) Q') ->
  keeps Inv (bind m f) Q'.
Proof.
  intros Hm Hf st Hst. destruct (Hm st Hst) as [H1 H2]. unfold bind.
  destruct (m st) as [[a|e] st1]; simpl in *.
  - apply (Hf a H2 st1 H1).
  - split; [assumption | exact Logic.I].
Qed.

Lemma keeps_weaken {A} (m : M A) (Q Q' : A -> Prop) :
  keeps Inv m Q -> (forall a, Q a -> Q' a) -> keeps Inv m Q'.
Proof.
  intros Hm HQ st Hst. destruct (Hm st Hst) as [H1 H2]. split; [exact H1|].
  destruct (fst (m st)); [apply HQ, H2 | exact Logic.I].
Qed.

Lemma keeps_same_objs {A} (m : M A) :
  (forall st, objs (snd (m st)) = objs st) -> keeps Inv m (fun _ => True).
Proof.
  intros H st Hst. rewrite H. split; [assumption|].
  destruct (fst (m st)); exact Logic.I.
Qed.

Lemma keeps_deref l : keeps Inv (deref l) (fun _ => True).
Proof.
  apply keeps_same_objs. intros st. unfold deref.
  destruct (objs st !! l); reflexivity.
Qed.

Lemma keeps_log c : keeps Inv (log c) (fun _ => True).
Proof. apply keeps_same_objs. reflexivity. Qed.

Lemma keeps_draw : keeps Inv draw (fun _ => True).
Proof. apply keeps_same_objs. reflexivity. Qed.

Lemma keeps_ask : keeps Inv ask (fun _ => True).
Proof. apply keeps_same_objs. reflexivity. Qed.

Lemma keeps_record what a b : keeps Inv (record what a b) (fun _ => True).
Proof.
  apply keeps_same_objs. intros st. unfold record.
  destruct (objs st !! a), (objs st !! b); reflexivity.
Qed.

Lemma keeps_record_combine q11 q12 q21 q22 :
  keeps Inv (record_combine q11 q12 q21 q22) (fun _ => True).
Proof.
  apply keeps_same_objs. intros st. unfold record_combine.
  destruct (objs st !! q11), (objs st !! q12), (objs st !! q21),
    (objs st !! q22); reflexivity.
Qed.

Lemma keeps_alloc m : keeps Inv (alloc m) writable.
Proof using grow fresh.
  intros st Hst. simpl. split; [apply grow, Hst | apply fresh, Hst].
Qed.

Lemma keeps_for_loop n i body :
  (forall j, keeps Inv (body j) (fun _ => True)) ->
  keeps Inv (for_loop n i body) (fun _ => True).
Proof.
  intros Hb. revert i. induction n as [|n IH]; intros i; simpl.
  - apply keeps_ret. exact Logic.I.
  - eapply keeps_bind; [apply Hb | intros _ _; apply IH].
Qed.

Lemma keeps_for_range hi body :
  (forall j, keeps Inv (body j) (fun _ => True)) ->
  keeps Inv (for_range hi body) (fun _ => True).
Proof. apply keeps_for_loop. Qed.

Ltac keeps_lemma :=
  first [ apply keeps_deref | apply keeps_log | apply keeps_draw
        | apply keeps_ask | apply keeps_record | apply keeps_record_combine
        | apply keeps_alloc ].

Ltac keeps_prog lemma :=
  repeat (cbv zeta; cbv beta in *; lazymatch goal with
  | |- keeps _ (bind _ _) _ =>
      eapply keeps_bind; [ | intros ? ? ]
  | |- keeps _ (for_range _ _) _ => apply keeps_for_range; intros ?
  | |- keeps _ (ret _) ?Q =>
      first [ is_evar Q; apply (keeps_ret _ (fun _ => True)); exact Logic.I
            | apply keeps_ret;
              first [exact Logic.I | reflexivity | assumption] ]
  | |- keeps _ (throw _) _ => apply keeps_throw
  | |- keeps _ (if ?c then _ else _) _ => destruct c
  | |- keeps _ (match ?c with _ => _ end) _ => destruct c
  | |- keeps _ _ _ => lemma
  end).

Lemma keeps_push_back l x :
  writable l -> keeps Inv (push_back l x) (fun _ => True).
Proof using update_push.
  intros Hl st Hst. unfold push_back, bind, deref, set_data.
  destruct (objs st !! l) as [m|] eqn:E; simpl; [rewrite E; simpl|]; auto.
Qed.

Lemma keeps_load r : keeps Inv (load r) (fun _ => True).
Proof. unfold load. keeps_prog keeps_lemma. Qed.

Lemma keeps_store r x :
  writable (fst r) -> keeps Inv (store r x) (fun _ => True).
Proof using update_store.
  intros Hl st Hst. unfold store, bind, deref, set_data.
  destruct (objs st !! fst r) as [m|] eqn:E; simpl; [|auto].
  destruct (decide _); simpl; [rewrite E; simpl|]; auto.
Qed.

Lemma keeps_get_index l r c : keeps Inv (get_index l r c) (fun _ => True).
Proof. unfold get_index. keeps_prog keeps_lemma. Qed.

Lemma keeps_at l r c : keeps Inv (at_ l r c) (fun _ => True).
Proof.
  unfold at_. keeps_prog ltac:(first [apply keeps_get_index | apply keeps_load]).
Qed.

Lemma keeps_at_ref l r c : keeps Inv (at_ref l r c) (fun x => fst x = l).
Proof. unfold at_ref. keeps_prog ltac:(apply keeps_get_index). Qed.

Ltac keeps_store_ref :=
  apply keeps_store;
  first [ assumption
        | match goal with H : fst _ = _ |- _ => rewrite H; assumption end ].

Ltac keeps_methods :=
  first [ keeps_lemma
        | apply keeps_push_back; assumption
        | apply keeps_load | apply keeps_at | apply keeps_at_ref
        | keeps_store_ref ].

Lemma keeps_randomize this :
  writable this -> keeps Inv (randomize this) (fun _ => True).
Proof using update_store.
  intros Hw. unfold randomize. keeps_prog keeps_methods.
Qed.

Lemma keeps_ctor s e : keeps Inv (Matrix_ctor s e) writable.
Proof using grow fresh update_store update_push.
  unfold Matrix_ctor.
  keeps_prog ltac:(first [keeps_methods | apply keeps_randomize; assumption]).
Qed.

Lemma keeps_partition this r c : keeps Inv (partition this r c) writable.
Proof using grow fresh update_store update_push.
  unfold partition, new_matrix.
  keeps_prog ltac:(first [keeps_methods | apply keeps_ctor]).
Qed.

Lemma keeps_determine_quad k q11 q12 q21 q22 i j :
  keeps Inv (determine_quad k q11 q12 q21 q22 i j) (fun _ => True).
Proof. unfold determine_quad. keeps_prog keeps_methods. Qed.

Lemma keeps_combine this q11 q12 q21 q22 :
  writable this ->
  keeps Inv (combine this q11 q12 q21 q22) (fun _ => True).
Proof using update_store.
  intros Hw. unfold combine.
  keeps_prog ltac:(first [keeps_methods | apply keeps_determine_quad]).
Qed.

Lemma keeps_elementwise what op a b :
  keeps Inv (elementwise what op a b) writable.
Proof using grow fresh update_store update_push.
  unfold elementwise, new_matrix.
  keeps_prog ltac:(first [keeps_methods | apply keeps_ctor]).
Qed.

Ltac keeps_operations :=
  first [ keeps_methods | apply keeps_ctor | apply keeps_partition
        | apply keeps_elementwise
        | apply keeps_combine; assumption ].

Lemma keeps_multiply_rec fuel :
  forall a b, keeps Inv (multiply_rec fuel a b) writable.
Proof using grow fresh update_store update_push.
  induction fuel as [|fuel IH]; intros a b; cbn [multiply_rec].
  - apply keeps_throw.
  - unfold binary, call_on, new_matrix, operator_plus.
    keeps_prog ltac:(first [keeps_operations | apply IH]).
Qed.

Lemma keeps_multiply a b : keeps Inv (multiply a b) writable.
Proof using grow fresh update_store update_push.
  unfold multiply.
  keeps_prog ltac:(first [keeps_operations | apply keeps_multiply_rec]).
Qed.

Lemma keeps_strassen a b : keeps Inv (strassen a b) writable.
Proof using grow fresh update_store update_push.
  unfold strassen, binary, call_on, new_matrix, operator_plus,
    operator_minus.
  keeps_prog ltac:(first [keeps_operations | apply keeps_multiply]).
Qed.

Lemma keeps_times a b : keeps Inv (operator_times a b) writable.
Proof using grow fresh update_store update_push.
  unfold operator_times.
  keeps_prog ltac:(first [keeps_operations | apply keeps_strassen]).
Qed.

End Keeps.

Section Frames.
Variable h0 : list Matrix.

Let kept (h : list Matrix) : Prop := h0 `prefix_of` h.
Let is_new (l : loc) : Prop := (length h0 <= l)%nat.

Lemma kept_grow h m : kept h -> kept (h ++ [m]).
Proof. apply prefix_app_r. Qed.

Lemma kept_fresh h : kept h -> is_new (length h).
Proof. apply prefix_length. Qed.

Lemma kept_store h l m i x :
  is_new l -> h !! l = Some m -> kept h ->
  kept (<[l := mkMatrix (m_size m) (<[i := x]> (m_data m))]> h).
Proof. intros Hl _ Hh. apply prefix_insert_fresh; assumption. Qed.

Lemma kept_push h l m x :
  is_new l -> h !! l = Some m -> kept h ->
  kept (<[l := mkMatrix (m_size m) (m_data m ++ [x])]> h).
Proof. intros Hl _ Hh. apply prefix_insert_fresh; assumption. Qed.

Lemma kept_unchanged h : kept h -> unchanged h0 h.
Proof. intros Hh l x Hl. eapply prefix_lookup_Some; eassumption. Qed.

Lemma const_method_frame {A} (m : M A) (Q : A -> Prop) st :
  keeps kept m Q -> objs st = h0 -> unchanged h0 (objs (snd (m st))).
Proof.
  intros Hk Hst. apply kept_unchanged, Hk. unfold kept. rewrite Hst.
  reflexivity.
Qed.

End Frames.

Lemma changed_at_most_store t h0 h l m i x :
  l = t -> h !! l = Some m -> changed_at_most t h0 h ->
  changed_at_most t h0
    (<[l := mkMatrix (m_size m) (<[i := x]> (m_data m))]> h).
Proof.
  intros -> _ [H1 H2]. split.
  - rewrite length_insert. exact H1.
  - intros l Hl. rewrite list_lookup_insert_ne by congruence. apply H2, Hl.
Qed.

Lemma same_shape_store h0 h l m (i : nat) x :
  True -> h !! l = Some m -> same_shape h0 h ->
  same_shape h0 (<[l := mkMatrix (m_size m) (<[i := x]> (m_data m))]> h).
Proof.
  intros _ Hl H l' m' Hl'. destruct (H l' m' Hl') as (d & Hd & Hlen).
  destruct (decide (l = l')) as [<-|Hne].
  - rewrite Hl in Hd. injection Hd as ->.
    exists (<[i := x]> d). split.
    + apply list_lookup_insert_eq. eapply lookup_lt_Some, Hl.
    + rewrite length_insert. exact Hlen.
  - exists d. rewrite list_lookup_insert_ne by exact Hne.
    split; [exact Hd | exact Hlen].
Qed.

Lemma same_shape_refl h : same_shape h h.
Proof.
  intros l m Hl. exists (m_data m). split; [|reflexivity].
  rewrite Hl. destruct m; reflexivity.
Qed.

Lemma combine_frame this q11 q12 q21 q22 st :
  changed_at_most this (objs st)
    (objs (snd (combine this q11 q12 q21 q22 st))).
Proof.
  apply (keeps_combine (changed_at_most this (objs st)) (fun l => l = this)
           (changed_at_most_store this (objs st))
           this q11 q12 q21 q22 eq_refl st).
  split; [reflexivity | intros; reflexivity].
Qed.

Lemma combine_shape this q11 q12 q21 q22 st :
  same_shape (objs st) (objs (snd (combine this q11 q12 q21 q22 st))).
Proof.
  apply (keeps_combine (same_shape (objs st)) (fun _ => True)
           (same_shape_store (objs st))
           this q11 q12 q21 q22 Logic.I st).
  apply same_shape_refl.
Qed.

(** C9. Whatever their outcome, [partition], [+], [-], [multiply],
    [strassen] and [*] leave every matrix that existed before the call,
    both operands included, with the size and the data it had.  [combine]
    is the operation that writes into an existing matrix: it changes the
    buffer of its receiver, which keeps its size and its length, and no
    other matrix, its four quadrant arguments included when they are other
    objects than the receiver. *)
Theorem operands_not_mutated st this other r c q11 q12 q21 q22 :
  unchanged (objs st) (objs (snd (partition this r c st))) /\
  unchanged (objs st) (objs (snd (operator_plus this other st))) /\
  unchanged (objs st) (objs (snd (operator_minus this other st))) /\
  unchanged (objs st) (objs (snd (multiply this other st))) /\
  unchanged (objs st) (objs (snd (strassen this other st))) /\
  unchanged (objs st) (objs (snd (operator_times this other st))) /\
  changed_at_most this (objs st)
    (objs (snd (combine this q11 q12 q21 q22 st))) /\
  same_shape (objs st) (objs (snd (combine this q11 q12 q21 q22 st))) /\
  objs (snd (quadrants_then_combine 0%nat 1%nat (init [A2; B2]))) !! 1%nat
    = Some A2.
Proof.
  pose proof (kept_grow (objs st)) as Hg.
  pose proof (kept_fresh (objs st)) as Hf.
  pose proof (kept_store (objs st)) as Hs.
  pose proof (kept_push (objs st)) as Hp.
  split; [|split; [|split; [|split; [|split; [|split; [|split; [|split]]]]]]].
  - eapply const_method_frame; [apply keeps_partition; eassumption | reflexivity].
  - eapply const_method_frame; [apply keeps_elementwise; eassumption | reflexivity].
  - eapply const_method_frame; [apply keeps_elementwise; eassumption | reflexivity].
  - eapply const_method_frame; [apply keeps_multiply; eassumption | reflexivity].
  - eapply const_method_frame; [apply keeps_strassen; eassumption | reflexivity].
  - eapply const_method_frame; [apply keeps_times; eassumption | reflexivity].
  - apply combine_frame.
  - apply combine_shape.
  - vm_compute. reflexivity.
Qed.
(** * Further properties of the methods *)

(** ** partition at any offset *)

Lemma partition_run_offsets st this m k r c :
  objs st !! this = Some m -> well_formed (S k) m ->
  (m_size m / 2 - 1 + r) * m_size m + (m_size m / 2 - 1 + c)
    < m_size m * m_size m ->
  partition this r c st =
  (Ok (length (objs st)), set_objs st (objs st ++ [quadrant m r c])).
Proof.
  intros Hl Hwf Hlast.
  destruct (well_formed_bounds _ _ Hwf) as (H1 & Hsz & _).
  destruct (well_formed_half _ _ Hwf) as (Hh & Hd).
  pose proof Hwf as (Hk & _ & Hlen & _).
  destruct (pow2_bounds k ltac:(lia)) as (Hh1 & Hh31 & Hhsz).
  pose proof (lookup_lt_Some _ _ _ Hl) as Hthis.
  unfold partition, quadrant, Size.div.
  erewrite bind_ok by (unfold deref; rewrite Hl; reflexivity).
  set (h := m_size m / 2) in *.
  erewrite bind_ok by (apply new_matrix_run; exists (N.of_nat k); exact Hh).
  set (st1 := set_objs st (objs st ++ [zeros h])).
  erewrite bind_ok.
  2:{ apply (fill_run_at st1 (length (objs st)) h
               (replicate (N.to_nat (Size.mul h h)) 0%Z)
               (fun i j => at_ this (Size.add i r) (Size.add j c))
               (fun i j => entry m (i + r) (j + c))).
      - unfold st1. simpl. apply list_lookup_middle. reflexivity.
      - rewrite Hh. exact Hhsz.
      - rewrite length_replicate. unfold Size.mul, Size.wrap.
        rewrite N.mod_small by (rewrite Hh; exact Hhsz). reflexivity.
      - intros i j d Hi Hj Hlend.
        assert (objs (with_object st1 (length (objs st)) h d) !! this = Some m)
          as Hl'.
        { rewrite lookup_with_object_ne by lia.
          unfold st1. simpl. rewrite lookup_app_l by exact Hthis. exact Hl. }
        rewrite (at_outcome _ _ _ _ _ Hl'). cbv zeta.
        rewrite Hh in Hi, Hj. clearbody h. subst h.
        assert ((i + r) * m_size m <= (2 ^ N.of_nat k - 1 + r) * m_size m)
          as Hrow by (apply N.mul_le_mono_r; lia).
        assert (m_size m <= 2 ^ 32) as Hs32 by lia.
        assert (m_size m * m_size m <= 2 ^ 32 * 2 ^ 32) as Hsq
          by (apply N.mul_le_mono; assumption).
        change (2 ^ 32 * 2 ^ 32) with (2 ^ 64) in Hsq.
        unfold Size.modulus in *.
        assert (r < m_size m) as Hr by nia.
        assert (Size.add i r = i + r) as -> by (apply size_add_small;
          unfold Size.modulus; change (2 ^ 64) with 18446744073709551616; lia).
        assert (Size.add j c = j + c) as ->
          by (apply size_add_small; unfold Size.modulus; lia).
        assert (Size.mul (i + r) (m_size m) = (i + r) * m_size m) as ->
          by (apply N.mod_small; unfold Size.modulus; lia).
        rewrite size_add_small by (unfold Size.modulus; lia).
        unfold vec_size. rewrite Hlen, N2Nat.id.
        destruct (N.ltb_spec ((i + r) * m_size m + (j + c))
                             (m_size m * m_size m)); [reflexivity | lia]. }
  unfold st1. rewrite with_object_alloc. reflexivity.
Qed.

(** A square block inside the matrix ends inside its storage. *)
Lemma block_inside n h r c :
  1 <= h -> r + h <= n -> c + h <= n ->
  (h - 1 + r) * n + (h - 1 + c) < n * n.
Proof.
  intros H1 Hr Hc.
  assert ((h - 1 + r) * n <= (n - 1) * n) by (apply N.mul_le_mono_r; lia).
  assert ((n - 1) * n + n = n * n) by nia. lia.
Qed.

(** X1. [partition(r, c)] on a matrix of size [2 ^ (k + 1)] returns a new
    matrix of half that size whose element [(i, j)] is the element at
    offset [(i + r) * size + (j + c)] of the receiver's storage, provided
    that the last such offset lies inside the storage.  For a block that
    lies inside the matrix this is the element [(i + r, j + c)]; the
    offsets are not required to be those of a quadrant, and a column
    [j + c] past the end of a row reads on into the next row. *)
Theorem partition_copies_block k st this m r c :
  objs st !! this = Some m -> well_formed (S k) m ->
  (m_size m / 2 - 1 + r) * m_size m + (m_size m / 2 - 1 + c)
    < m_size m * m_size m ->
  exists l st' R,
    partition this r c st = (Ok l, st') /\
    objs st !! l = None /\ objs st' !! l = Some R /\
    well_formed k R /\ m_size R = m_size m / 2 /\
    (forall i j, i < m_size R -> j < m_size R ->
       entry R i j =
       nth (N.to_nat ((i + r) * m_size m + (j + c))) (m_data m) 0%Z) /\
    (forall i j, i < m_size R -> j < m_size R -> m_size m <= j + c ->
       entry R i j = entry m (i + r + 1) (j + c - m_size m)).
Proof.
  intros Hl Hwf Hlast.
  destruct (well_formed_half _ _ Hwf) as (Hh & Hd).
  exists (length (objs st)), (set_objs st (objs st ++ [quadrant m r c])),
         (quadrant m r c).
  split; [apply (partition_run_offsets _ _ _ k); assumption|].
  split; [apply lookup_ge_None; lia|].
  split; [simpl; apply list_lookup_middle; reflexivity|].
  split; [apply well_formed_quadrant, Hwf|].
  split; [reflexivity|].
  cbn [quadrant tabulate m_size]. rewrite Hh. split.
  - intros i j Hi Hj. rewrite (entry_quadrant k) by assumption. reflexivity.
  - intros i j Hi Hj Hc. rewrite (entry_quadrant k) by assumption.
    unfold entry. f_equal. nia.
Qed.

Lemma well_formed_A4 : well_formed 2 A4.
Proof.
  split; [lia|]. split; [reflexivity|]. split; [reflexivity|].
  repeat constructor; unfold Int.min_int, Int.max_int; simpl; lia.
Defined.

Lemma partition_copies_block_witness :
  exists l st' R,
    partition 0%nat 1 3 (init [A4]) = (Ok l, st') /\
    objs (init [A4]) !! l = None /\ objs st' !! l = Some R /\
    well_formed 1 R /\ m_size R = m_size A4 / 2 /\
    (forall i j, i < m_size R -> j < m_size R ->
       entry R i j =
       nth (N.to_nat ((i + 1) * m_size A4 + (j + 3))) (m_data A4) 0%Z) /\
    (forall i j, i < m_size R -> j < m_size R -> m_size A4 <= j + 3 ->
       entry R i j = entry A4 (i + 1 + 1) (j + 3 - m_size A4)).
Proof.
  apply (partition_copies_block 1%nat (init [A4]) 0%nat A4 1 3).
  - reflexivity.
  - exact well_formed_A4.
  - vm_compute. reflexivity.
Defined.

(** ** partition of a matrix of size 1 *)

Lemma not_power_of_two_0 : ~ power_of_two 0.
Proof. intros [k Hk]. symmetry in Hk. apply N.pow_eq_0_iff in Hk. lia. Qed.

Lemma partition_invalid st this m r c :
  objs st !! this = Some m -> m_size m = 1 ->
  partition this r c st = (Err InvalidArgument, st).
Proof.
  intros Hl Hs. unfold partition.
  erewrite bind_ok by (unfold deref; rewrite Hl; reflexivity).
  cbv zeta. unfold Size.div, new_matrix. rewrite Hs. change (1 / 2) with 0.
  erewrite bind_err
    by (apply new_matrix_invalid; [apply not_power_of_two_0 | reflexivity]).
  reflexivity.
Qed.

(** X2. [partition] on a matrix of size 1 fails with [InvalidArgument],
    whatever the offsets: the sub-matrix would have size 0, which the
    constructor rejects.  Nothing is constructed or written. *)
Theorem partition_of_size_1 st this m r c :
  objs st !! this = Some m -> m_size m = 1 ->
  partition this r c st = (Err InvalidArgument, st).
Proof.
  intros Hl Hs. apply (partition_invalid _ _ m); assumption.
Qed.

Lemma partition_of_size_1_witness :
  partition 0%nat 0 0 (init [A1]) = (Err InvalidArgument, init [A1]).
Proof.
  apply (partition_of_size_1 (init [A1]) 0%nat A1 0 0); reflexivity.
Defined.

(** ** Runs that end with an error *)

Lemma fails_bind {A B} e (m : M A) (f : A -> M B) st :
  wp m (fun a st' => fails e (f a) st') st -> fails e (bind m f) st.
Proof.
  unfold wp, fails, bind. destruct (m st) as [[a|e'] st']; intros H;
    [exact H | contradiction].
Qed.

Lemma fails_first {A B} e (m : M A) (f : A -> M B) st :
  fails e m st -> fails e (bind m f) st.
Proof.
  intros [st' H]. exists st'. apply bind_err, H.
Qed.

(** ** partition past the last row *)

(** A loop whose iteration [k0] fails, the earlier ones leading from
    [S k] to [S (k + 1)]. *)
Lemma for_loop_fails body (S : N -> state) cnt i k0 e st0 ste :
  st0 = S i -> i <= k0 -> k0 < i + N.of_nat cnt ->
  (forall k, i <= k -> k < k0 -> body k (S k) = (Ok tt, S (N.succ k))) ->
  body k0 (S k0) = (Err e, ste) ->
  for_loop cnt i body st0 = (Err e, ste).
Proof.
  revert i st0. induction cnt as [|cnt IH]; intros i st0 -> Hle Hlt Hstep Hfail.
  - lia.
  - simpl. destruct (N.eq_dec i k0) as [->|Hne].
    + apply bind_err, Hfail.
    + erewrite bind_ok by (apply Hstep; lia).
      apply IH; [reflexivity | lia | lia | | exact Hfail].
      intros k Hk1 Hk2. apply Hstep; lia.
Qed.

Section FillUntil.
Variables (st : state) (t : loc) (n : N) (d0 : list Z).
Variables (f : N -> N -> M Z) (g : N -> N -> Z) (i0 : N) (e : error).
Hypothesis Ht : (t < length (objs st))%nat.
Hypothesis Hn : n * n < Size.modulus.
Hypothesis Hd0 : length d0 = N.to_nat (n * n).
Hypothesis Hi0 : i0 < n.
Hypothesis Hf : forall i j d, i < i0 -> j < n ->
  length d = N.to_nat (n * n) ->
  f i j (with_object st t n d) = (Ok (g i j), with_object st t n d).
Hypothesis Hfail : forall d, length d = N.to_nat (n * n) ->
  f i0 0 (with_object st t n d) = (Err e, with_object st t n d).

Let cell (i j : N) : M unit :=
  do x <- f i j; do r <- at_ref t i j; store r x.

Let progress (p : N) : state :=
  with_object st t n (overwritten (grid n g) d0 (N.to_nat p)).

Lemma length_progress p :
  length (overwritten (grid n g) d0 (N.to_nat p)) = N.to_nat (n * n).
Proof using Hd0.
  rewrite length_overwritten; [exact Hd0|].
  rewrite length_grid, Hd0. reflexivity.
Qed.

Lemma fill_until_cell i j :
  i < i0 -> j < n ->
  cell i j (progress (i * n + j)) = (Ok tt, progress (i * n + N.succ j)).
Proof using Ht Hn Hd0 Hi0 Hf.
  intros Hi Hj. unfold cell, progress.
  assert (i < n) as Hin by lia.
  pose proof (row_major_lt n i j Hin Hj) as Hlt.
  pose proof (length_progress (i * n + j)) as Hlen.
  erewrite bind_ok by (apply Hf; assumption).
  unfold at_ref.
  erewrite bind_ok;
    [|erewrite bind_ok by (apply get_index_with_object; assumption);
      reflexivity].
  rewrite store_with_object by (try assumption; lia).
  rewrite overwritten_step by (try apply lookup_grid; try assumption; lia).
  do 3 f_equal. lia.
Qed.

Lemma fill_until_row i :
  i < i0 ->
  for_range n (cell i) (progress (i * n)) =
  (Ok tt, progress (N.succ i * n)).
Proof using Ht Hn Hd0 Hi0 Hf.
  intros Hi.
  apply (for_range_progress _ (fun j => progress (i * n + j))).
  - f_equal. lia.
  - f_equal. lia.
  - intros j Hj. apply fill_until_cell; assumption.
Qed.

Lemma fill_until_fails :
  for_range n (fun i => for_range n (cell i)) (with_object st t n d0) =
  (Err e, progress (i0 * n)).
Proof using Ht Hn Hd0 Hi0 Hf Hfail.
  unfold for_range at 1.
  apply (for_loop_fails _ (fun i => progress (i * n)) _ 0 i0).
  - unfold progress. rewrite N.mul_0_l. reflexivity.
  - lia.
  - lia.
  - intros i _ Hi. apply fill_until_row, Hi.
  - unfold for_range.
    destruct (N.to_nat n) as [|n'] eqn:En; [lia|]. simpl.
    apply bind_err. unfold cell. apply bind_err.
    apply Hfail, length_progress.
Qed.

End FillUntil.

Lemma partition_beyond_rows k st this m r c :
  objs st !! this = Some m -> well_formed (S k) m ->
  m_size m < r + m_size m / 2 -> r <= 2 ^ 32 ->
  c + m_size m / 2 <= m_size m ->
  fails OutOfRange (partition this r c) st.
Proof.
  intros Hl Hwf Hr Hr32 Hc.
  destruct (well_formed_bounds _ _ Hwf) as (H1 & Hsz & _).
  destruct (well_formed_half _ _ Hwf) as (Hh & Hd).
  pose proof Hwf as (Hk & Hs & Hlen & _).
  destruct (pow2_bounds k ltac:(lia)) as (Hh1 & Hh31 & Hhsz).
  destruct (pow2_bounds (S k) Hk) as (_ & Hs31 & _). rewrite <- Hs in Hs31.
  pose proof (lookup_lt_Some _ _ _ Hl) as Hthis.
  unfold partition, Size.div.
  apply fails_bind. eapply wp_deref; [eassumption|].
  set (h := m_size m / 2) in *.
  apply fails_bind.
  eapply wp_run; [apply new_matrix_run; exists (N.of_nat k); exact Hh|].
  set (st1 := set_objs st (objs st ++ [zeros h])).
  apply fails_first. eexists.
  assert (st1 = with_object st1 (length (objs st)) h
                  (replicate (N.to_nat (Size.mul h h)) 0%Z)) as E.
  { symmetry. apply (with_object_id st1 _ (zeros h)).
    unfold st1. simpl. apply list_lookup_middle. reflexivity. }
  rewrite E at 1.
  assert (forall d, objs (with_object st1 (length (objs st)) h d) !! this
                    = Some m) as Hthis'.
  { intros d. rewrite lookup_with_object_ne by lia.
    unfold st1. simpl. rewrite lookup_app_l by exact Hthis. exact Hl. }
  change (2 ^ 32) with 4294967296 in Hr32.
  change (2 ^ 31) with 2147483648 in Hs31, Hh31.
  assert (Size.modulus = 18446744073709551616) as Emod by reflexivity.
  apply (fill_until_fails st1 (length (objs st)) h _
           (fun i j => at_ this (Size.add i r) (Size.add j c))
           (fun i j => entry m (i + r) (j + c))
           (m_size m - r) OutOfRange).
  - unfold st1. rewrite length_alloc. lia.
  - rewrite Hh. exact Hhsz.
  - rewrite length_replicate. unfold Size.mul, Size.wrap.
    rewrite N.mod_small by (rewrite Hh; exact Hhsz). reflexivity.
  - lia.
  - intros i j d Hi Hj _.
    rewrite !size_add_small by lia.
    apply (at_run _ this m); try apply Hthis'; try assumption; lia.
  - intros d _. rewrite !size_add_small by lia.
    rewrite (at_outcome _ _ _ _ _ (Hthis' d)). cbv zeta.
    assert (m_size m <= m_size m - r + r) as Hrow by lia.
    assert (m_size m * m_size m <= (m_size m - r + r) * m_size m) as Hge
      by (apply N.mul_le_mono_r; exact Hrow).
    assert ((m_size m - r + r) * m_size m <= 4294967296 * 2147483648) as Hup
      by (apply N.mul_le_mono; lia).
    assert (Size.mul (m_size m - r + r) (m_size m)
            = (m_size m - r + r) * m_size m) as ->
      by (apply N.mod_small; lia).
    rewrite size_add_small by lia.
    unfold vec_size. rewrite Hlen, N2Nat.id.
    destruct (N.ltb_spec ((m_size m - r + r) * m_size m + (0 + c))
                         (m_size m * m_size m)); [lia | reflexivity].
Qed.

(** X3. [partition] with a row offset that takes the block past the last
    row of the matrix fails with [OutOfRange]: the rows that lie inside
    the matrix are copied, and the first read in a row past the end is
    rejected by the bounds check.  (A column offset past the end is not
    detected in this way, as X1 shows.) *)
Theorem partition_past_last_row k st this m r c :
  objs st !! this = Some m -> well_formed (S k) m ->
  m_size m < r + m_size m / 2 -> r <= 2 ^ 32 ->
  c + m_size m / 2 <= m_size m ->
  fails OutOfRange (partition this r c) st.
Proof. apply partition_beyond_rows. Qed.

Lemma partition_past_last_row_witness :
  fails OutOfRange (partition 0%nat 3 0) (init [A4]).
Proof.
  apply (partition_past_last_row 1%nat (init [A4]) 0%nat A4 3 0).
  - reflexivity.
  - exact well_formed_A4.
  - reflexivity.
  - discriminate.
  - discriminate.
Defined.
(** ** combine, quadrant by quadrant *)

Lemma quadrant_assemble k Q11 Q12 Q21 Q22 :
  (S k <= 31)%nat ->
  well_formed k Q11 -> well_formed k Q12 ->
  well_formed k Q21 -> well_formed k Q22 ->
  let R := assemble Q11 Q12 Q21 Q22 in
  let h := 2 ^ N.of_nat k in
  quadrant R 0 0 = Q11 /\ quadrant R 0 h = Q12 /\
  quadrant R h 0 = Q21 /\ quadrant R h h = Q22.
Proof.
  intros Hk W11 W12 W21 W22 R h.
  assert (well_formed (S k) R) as WR
    by (apply well_formed_assemble; assumption).
  assert (forall r c Q, well_formed k Q -> r <= h -> c <= h ->
            (forall i j, i < h -> j < h ->
               quad_entry h Q11 Q12 Q21 Q22 (i + r) (j + c) = entry Q i j) ->
            quadrant R r c = Q) as Hq'.
  { intros r c Q WQ Hr Hc HQ.
    apply (well_formed_eq k); [apply well_formed_quadrant, WR | exact WQ |].
    intros i j Hi Hj.
    rewrite (m_size_well_formed k) in Hi, Hj
      by (apply well_formed_quadrant, WR).
    rewrite (entry_quadrant k) by assumption.
    unfold R.
    rewrite (entry_assemble k) by (assumption || (unfold h in *; lia)).
    apply HQ; assumption. }
  repeat split; apply Hq'; try assumption; try lia;
    intros i j Hi Hj; unfold quad_entry;
    repeat match goal with
           | |- context [?x <? h] => destruct (N.ltb_spec x h); try lia
           end;
    rewrite ?N.add_0_r, ?N.add_sub; reflexivity.
Qed.

Lemma combine_run_entries k Q11 Q12 Q21 Q22 i j :
  well_formed k Q11 ->
  i < 2 ^ N.of_nat k -> j < 2 ^ N.of_nat k ->
  let R := assemble Q11 Q12 Q21 Q22 in
  let h := 2 ^ N.of_nat k in
  entry R i j = entry Q11 i j /\ entry R i (j + h) = entry Q12 i j /\
  entry R (i + h) j = entry Q21 i j /\ entry R (i + h) (j + h) = entry Q22 i j.
Proof.
  intros W11 Hi Hj R h. unfold R.
  rewrite !(entry_assemble k) by (assumption || (unfold h; lia)).
  fold h. unfold quad_entry.
  repeat match goal with
         | |- context [?x <? h] =>
             destruct (N.ltb_spec x h); try (unfold h in *; lia)
         end.
  rewrite ?N.add_sub. repeat split.
Qed.

(** X4. [combine] writes the four quadrants into its receiver: on a
    receiver of size [2 ^ (k + 1)] and four other matrices of half that
    size, it succeeds; afterwards the element [(i, j)] of the receiver is
    that of [R_11], the element [(i, j + size/2)] that of [R_12], the
    element [(i + size/2, j)] that of [R_21] and the element
    [(i + size/2, j + size/2)] that of [R_22]; the receiver keeps its
    size, and no other matrix changes. *)
Theorem combine_places_quadrants k st this m q11 q12 q21 q22 Q11 Q12 Q21 Q22 :
  objs st !! this = Some m -> well_formed (S k) m ->
  objs st !! q11 = Some Q11 -> objs st !! q12 = Some Q12 ->
  objs st !! q21 = Some Q21 -> objs st !! q22 = Some Q22 ->
  well_formed k Q11 -> well_formed k Q12 ->
  well_formed k Q21 -> well_formed k Q22 ->
  this <> q11 -> this <> q12 -> this <> q21 -> this <> q22 ->
  exists st' R,
    combine this q11 q12 q21 q22 st = (Ok tt, st') /\
    objs st' !! this = Some R /\
    well_formed (S k) R /\ m_size R = m_size m /\
    (forall i j, i < m_size m / 2 -> j < m_size m / 2 ->
       entry R i j = entry Q11 i j /\
       entry R i (j + m_size m / 2) = entry Q12 i j /\
       entry R (i + m_size m / 2) j = entry Q21 i j /\
       entry R (i + m_size m / 2) (j + m_size m / 2) = entry Q22 i j) /\
    (forall l, l <> this -> objs st' !! l = objs st !! l).
Proof.
  intros Hl Hwf H11 H12 H21 H22 W11 W12 W21 W22 N11 N12 N21 N22.
  destruct (well_formed_half _ _ Hwf) as (Hh & Hd).
  pose proof Hwf as (Hk & Hs & _).
  exists (set_objs (add_step (step_combine Q11 Q12 Q21 Q22) st)
                   (<[this := assemble Q11 Q12 Q21 Q22]> (objs st))),
         (assemble Q11 Q12 Q21 Q22).
  split; [eapply combine_run; eassumption|].
  split; [simpl; apply list_lookup_insert_eq; eapply lookup_lt_Some, Hl|].
  split; [apply well_formed_assemble; assumption|].
  split.
  { rewrite m_size_assemble, (m_size_well_formed k Q11 W11), Hs, pow2_succ.
    reflexivity. }
  split.
  - rewrite Hh. intros i j Hi Hj.
    apply (combine_run_entries k); assumption.
  - intros l Hne. simpl. apply list_lookup_insert_ne. congruence.
Qed.

Lemma well_formed_single x :
  Int.in_range x -> well_formed 0 (mkMatrix 1 [x]).
Proof.
  intros Hx. split; [lia|]. split; [reflexivity|]. split; [reflexivity|].
  repeat constructor; apply Hx.
Defined.

Lemma in_range_small x : (-9 <= x <= 9)%Z -> Int.in_range x.
Proof. unfold Int.in_range, Int.min_int, Int.max_int. lia. Defined.

Lemma combine_places_quadrants_witness :
  fst (combine 0%nat 1%nat 2%nat 3%nat 4%nat (init [B2; Q_1; Q_2; Q_3; Q_4]))
  = Ok tt.
Proof.
  destruct (combine_places_quadrants 0%nat (init [B2; Q_1; Q_2; Q_3; Q_4])
              0%nat B2 1%nat 2%nat 3%nat 4%nat Q_1 Q_2 Q_3 Q_4
              eq_refl well_formed_B2 eq_refl eq_refl eq_refl eq_refl
              (well_formed_single 1 (in_range_small 1 ltac:(lia)))
              (well_formed_single 2 (in_range_small 2 ltac:(lia)))
              (well_formed_single 3 (in_range_small 3 ltac:(lia)))
              (well_formed_single 4 (in_range_small 4 ltac:(lia)))
              ltac:(discriminate) ltac:(discriminate)
              ltac:(discriminate) ltac:(discriminate))
    as (st' & R & Hrun & _).
  rewrite Hrun. reflexivity.
Defined.

(** X5. The round trip in the other direction: after [combine] has
    written four matrices of size [2 ^ k] into a receiver of twice that
    size, [partition] of the receiver at [(0, 0)], [(0, size/2)],
    [(size/2, 0)] and [(size/2, size/2)] returns matrices equal to the
    first, second, third and fourth of them. *)
Theorem combine_partition_roundtrip
        k st this m q11 q12 q21 q22 Q11 Q12 Q21 Q22 :
  objs st !! this = Some m -> well_formed (S k) m ->
  objs st !! q11 = Some Q11 -> objs st !! q12 = Some Q12 ->
  objs st !! q21 = Some Q21 -> objs st !! q22 = Some Q22 ->
  well_formed k Q11 -> well_formed k Q12 ->
  well_formed k Q21 -> well_formed k Q22 ->
  this <> q11 -> this <> q12 -> this <> q21 -> this <> q22 ->
  let h := m_size m / 2 in
  let after r c := combine_then_partition this q11 q12 q21 q22 r c st in
  returned (after 0 0) = Ok Q11 /\ returned (after 0 h) = Ok Q12 /\
  returned (after h 0) = Ok Q21 /\ returned (after h h) = Ok Q22.
Proof.
  intros Hl Hwf H11 H12 H21 H22 W11 W12 W21 W22 N11 N12 N21 N22 h after.
  destruct (well_formed_half _ _ Hwf) as (Hh & Hd).
  pose proof Hwf as (Hk & Hs & _).
  pose proof (well_formed_assemble k _ _ _ _ Hk W11 W12 W21 W22) as WR.
  destruct (quadrant_assemble k Q11 Q12 Q21 Q22 Hk W11 W12 W21 W22)
    as (E11 & E12 & E21 & E22).
  assert (m_size (assemble Q11 Q12 Q21 Q22) / 2 = h) as HhR.
  { destruct (well_formed_half _ _ WR) as (-> & _). unfold h. congruence. }
  assert (forall r c, r + h <= m_size m -> c + h <= m_size m ->
            returned (after r c) =
            Ok (quadrant (assemble Q11 Q12 Q21 Q22) r c)) as Hgo.
  { intros r c Hr Hc. apply wp_returned.
    unfold after, combine_then_partition.
    apply wp_bind. eapply wp_combine; [eassumption ..|].
    intros st1 Ho _.
    eapply wp_partition.
    - rewrite Ho. apply list_lookup_insert_eq. eapply lookup_lt_Some, Hl.
    - exact WR.
    - rewrite HhR, (m_size_well_formed _ _ WR), <- Hs. exact Hr.
    - rewrite HhR, (m_size_well_formed _ _ WR), <- Hs. exact Hc.
    - intros l st2 (_ & _ & Hres) _. exact Hres. }
  unfold h in *. rewrite Hh in *.
  rewrite !Hgo by lia. rewrite E11, E12, E21, E22. repeat split.
Qed.

Lemma combine_partition_roundtrip_witness :
  returned (combine_then_partition 0%nat 1%nat 2%nat 3%nat 4%nat 1 0
              (init [B2; Q_1; Q_2; Q_3; Q_4])) = Ok Q_3.
Proof.
  exact (proj1 (proj2 (proj2
    (combine_partition_roundtrip 0%nat (init [B2; Q_1; Q_2; Q_3; Q_4])
       0%nat B2 1%nat 2%nat 3%nat 4%nat Q_1 Q_2 Q_3 Q_4
       eq_refl well_formed_B2 eq_refl eq_refl eq_refl eq_refl
       (well_formed_single 1 (in_range_small 1 ltac:(lia)))
       (well_formed_single 2 (in_range_small 2 ltac:(lia)))
       (well_formed_single 3 (in_range_small 3 ltac:(lia)))
       (well_formed_single 4 (in_range_small 4 ltac:(lia)))
       ltac:(discriminate) ltac:(discriminate)
       ltac:(discriminate) ltac:(discriminate))))).
Defined.

(** ** Writing an element through at_ref *)

Lemma assign_at_outcome st l m r c x :
  objs st !! l = Some m ->
  assign_at l r c x st =
  (let off := Size.add (Size.mul r (m_size m)) c in
   if off <? vec_size (m_data m)
   then (Ok tt, with_object st l (m_size m) (<[N.to_nat off := x]> (m_data m)))
   else (Err OutOfRange, st)).
Proof.
  intros Hl. unfold assign_at, at_ref, get_index, bind, deref at 1.
  rewrite Hl. cbv zeta.
  destruct (N.ltb_spec (Size.add (Size.mul r (m_size m)) c)
                       (vec_size (m_data m))) as [Hlt|Hge].
  - unfold ret. apply (store_run st l m _ x Hl). unfold vec_size in Hlt. lia.
  - reflexivity.
Qed.

Lemma row_major_inj n i j i' j' :
  j < n -> j' < n -> i * n + j = i' * n + j' -> i = i' /\ j = j'.
Proof.
  intros Hj Hj' H. split.
  - rewrite <- (div_row_major n i j Hj), <- (div_row_major n i' j' Hj'), H.
    reflexivity.
  - rewrite <- (mod_row_major n i j Hj), <- (mod_row_major n i' j' Hj'), H.
    reflexivity.
Qed.

(** X6. Writing through [at_ref]: for [r] and [c] below the size,
    [m.at_ref(r, c) = x] succeeds; afterwards [at(r, c)] returns [x],
    [at] returns at every other position what the matrix held there
    before, and no other matrix has changed.  When the offset
    [r * size + c] is outside the storage, the write fails with
    [OutOfRange] and changes nothing. *)
Theorem write_then_read st l m r c x :
  objs st !! l = Some m ->
  length (m_data m) = N.to_nat (m_size m * m_size m) ->
  m_size m * m_size m < Size.modulus ->
  r < m_size m -> c < m_size m ->
  (exists st',
     assign_at l r c x st = (Ok tt, st') /\
     at_ l r c st' = (Ok x, st') /\
     (forall r' c', r' < m_size m -> c' < m_size m -> (r', c') <> (r, c) ->
        at_ l r' c' st' = (Ok (entry m r' c'), st')) /\
     (forall l', l' <> l -> objs st' !! l' = objs st !! l')) /\
  (forall r' c' y,
     vec_size (m_data m) <= Size.add (Size.mul r' (m_size m)) c' ->
     assign_at l r' c' y st = (Err OutOfRange, st)).
Proof.
  intros Hl Hlen Hsz Hr Hc.
  pose proof (lookup_lt_Some _ _ _ Hl) as Hlt.
  pose proof (row_major_lt _ r c Hr Hc) as Hoff.
  split.
  - set (d := <[N.to_nat (r * m_size m + c) := x]> (m_data m)).
    set (m' := mkMatrix (m_size m) d).
    exists (with_object st l (m_size m) d).
    assert (assign_at l r c x st = (Ok tt, with_object st l (m_size m) d))
      as Hrun.
    { rewrite (assign_at_outcome _ _ _ _ _ _ Hl). cbv zeta.
      assert (Size.add (Size.mul r (m_size m)) c = r * m_size m + c) as ->.
      { unfold Size.add, Size.mul, Size.wrap.
        rewrite (N.mod_small (r * m_size m)) by lia. apply N.mod_small. lia. }
      unfold vec_size. rewrite Hlen, N2Nat.id.
      destruct (N.ltb_spec (r * m_size m + c) (m_size m * m_size m));
        [reflexivity | lia]. }
    assert (objs (with_object st l (m_size m) d) !! l = Some m') as Hl'
      by (apply lookup_with_object, Hlt).
    assert (length (m_data m') = N.to_nat (m_size m' * m_size m')) as Hlen'
      by (unfold m', d; cbn [m_data m_size]; rewrite length_insert; exact Hlen).
    split; [exact Hrun|]. split; [|split].
    + rewrite (at_run _ l m' Hl' Hlen' Hsz r c Hr Hc). do 2 f_equal.
      unfold entry, m', d. cbn [m_data m_size].
      rewrite nth_lookup, list_lookup_insert_eq by lia. reflexivity.
    + intros r' c' Hr' Hc' Hne.
      rewrite (at_run _ l m' Hl' Hlen' Hsz r' c' Hr' Hc'). do 2 f_equal.
      unfold entry, m', d. cbn [m_data m_size].
      rewrite !nth_lookup, list_lookup_insert_ne; [reflexivity|].
      intros E. apply Hne.
      destruct (row_major_inj (m_size m) r c r' c' Hc Hc') as [-> ->];
        [lia | reflexivity].
    + intros l' Hne. apply lookup_with_object_ne. exact Hne.
  - intros r' c' y Hge. rewrite (assign_at_outcome _ _ _ _ _ _ Hl). cbv zeta.
    destruct (N.ltb_spec (Size.add (Size.mul r' (m_size m)) c')
                         (vec_size (m_data m))); [lia | reflexivity].
Qed.

Lemma write_then_read_witness :
  exists st',
    assign_at 0%nat 1 0 9%Z (init [A2]) = (Ok tt, st') /\
    at_ 0%nat 1 0 st' = (Ok 9%Z, st') /\
    at_ 0%nat 0 1 st' = (Ok 2%Z, st').
Proof.
  destruct (write_then_read (init [A2]) 0%nat A2 1 0 9%Z eq_refl eq_refl
              eq_refl eq_refl eq_refl) as ((st' & H1 & H2 & H3 & _) & _).
  exists st'. split; [exact H1|]. split; [exact H2|].
  apply (H3 0 1); [reflexivity | reflexivity | discriminate].
Defined.
(** ** Laws of the sum and the difference *)

Lemma madd_comm k A B :
  well_formed k A -> well_formed k B -> madd A B = madd B A.
Proof.
  intros WA WB. apply (well_formed_eq k); [wf_solve | wf_solve |].
  intros i j Hi Hj.
  rewrite (m_size_well_formed k) in Hi, Hj by wf_solve.
  rewrite !(entry_madd k) by wf_solve.
  unfold Int.add. f_equal. ring.
Qed.

Lemma madd_assoc k A B C :
  well_formed k A -> well_formed k B -> well_formed k C ->
  madd (madd A B) C = madd A (madd B C).
Proof.
  intros WA WB WC. apply (well_formed_eq k); [wf_solve | wf_solve |].
  intros i j Hi Hj.
  rewrite (m_size_well_formed k) in Hi, Hj by wf_solve.
  rewrite !(entry_madd k) by wf_solve.
  unfold Int.add. apply eqm_wrap. rewrite !wrap_eqm. apply eq_eqm. ring.
Qed.

Lemma madd_msub k A B :
  well_formed k A -> well_formed k B -> madd (msub A B) B = A.
Proof.
  intros WA WB.
  apply (well_formed_eq k); [wf_solve | exact WA |].
  intros i j Hi Hj.
  rewrite (m_size_well_formed k) in Hi, Hj by wf_solve.
  rewrite (entry_madd k), (entry_msub k) by wf_solve.
  unfold Int.sub, Int.add.
  rewrite <- (wrap_id (entry A i j)) at 2 by (eapply well_formed_entry, WA).
  apply eqm_wrap. rewrite wrap_eqm. apply eq_eqm. ring.
Qed.

Lemma nth_replicate_default {A} (x : A) n i : nth i (replicate n x) x = x.
Proof.
  revert i. induction n as [|n IH]; intros [|i]; simpl; auto.
Qed.

Lemma entry_zeros n i j : entry (zeros n) i j = 0%Z.
Proof. unfold entry, zeros. cbn [m_data]. apply nth_replicate_default. Qed.

Lemma msub_self k A : well_formed k A -> msub A A = zeros (m_size A).
Proof.
  intros WA. pose proof WA as (Hk & Hs & _). rewrite Hs.
  apply (well_formed_eq k); [wf_solve | apply well_formed_zeros, Hk |].
  intros i j Hi Hj.
  rewrite (m_size_well_formed k) in Hi, Hj by wf_solve.
  rewrite (entry_msub k), entry_zeros by wf_solve.
  unfold Int.sub. rewrite Z.sub_diag. reflexivity.
Qed.

(** X7. For matrices [A] and [B] of the same size, [A + B] and [A - B]
    return new matrices of that size whose element [(i, j)] is the sum,
    respectively the difference, of the two elements at [(i, j)], wrapped
    to 32 bits; when the exact sum or difference is an [int], that is the
    element. *)
Theorem sum_and_difference k st a b A B :
  objs st !! a = Some A -> objs st !! b = Some B ->
  well_formed k A -> well_formed k B ->
  exists S D,
    returned (operator_plus a b st) = Ok S /\
    returned (operator_minus a b st) = Ok D /\
    well_formed k S /\ well_formed k D /\
    forall i j, i < m_size A -> j < m_size A ->
      entry S i j = Int.wrap (entry A i j + entry B i j) /\
      entry D i j = Int.wrap (entry A i j - entry B i j) /\
      (Int.in_range (entry A i j + entry B i j) ->
       entry S i j = (entry A i j + entry B i j)%Z) /\
      (Int.in_range (entry A i j - entry B i j) ->
       entry D i j = (entry A i j - entry B i j)%Z).
Proof.
  intros HA HB WA WB. exists (madd A B), (msub A B).
  split; [|split; [|split; [|split]]].
  - apply wp_returned. eapply wp_plus; [eassumption ..|].
    intros l st' (_ & _ & Hl) _. exact Hl.
  - apply wp_returned. eapply wp_minus; [eassumption ..|].
    intros l st' (_ & _ & Hl) _. exact Hl.
  - wf_solve.
  - wf_solve.
  - intros i j Hi Hj.
    rewrite (m_size_well_formed k) in Hi, Hj by wf_solve.
    rewrite (entry_madd k), (entry_msub k) by wf_solve.
    unfold Int.add, Int.sub.
    repeat split; intros H; apply wrap_id, H.
Qed.

Lemma sum_and_difference_witness :
  exists S D,
    returned (operator_plus 0%nat 1%nat (init [A2; B2])) = Ok S /\
    returned (operator_minus 0%nat 1%nat (init [A2; B2])) = Ok D /\
    well_formed 1 S /\ well_formed 1 D /\
    forall i j, i < m_size A2 -> j < m_size A2 ->
      entry S i j = Int.wrap (entry A2 i j + entry B2 i j) /\
      entry D i j = Int.wrap (entry A2 i j - entry B2 i j) /\
      (Int.in_range (entry A2 i j + entry B2 i j) ->
       entry S i j = (entry A2 i j + entry B2 i j)%Z) /\
      (Int.in_range (entry A2 i j - entry B2 i j) ->
       entry D i j = (entry A2 i j - entry B2 i j)%Z).
Proof.
  exact (sum_and_difference 1%nat (init [A2; B2]) 0%nat 1%nat A2 B2
           eq_refl eq_refl well_formed_A2 well_formed_B2).
Defined.

(** X8. The sum is commutative and associative: [A + B] and [B + A]
    return equal matrices, and so do [(A + B) + C] and [A + (B + C)], for
    matrices of the same size; the intermediate sums may wrap around. *)
Theorem plus_commutative_associative k st a b c A B C :
  objs st !! a = Some A -> objs st !! b = Some B -> objs st !! c = Some C ->
  well_formed k A -> well_formed k B -> well_formed k C ->
  (exists R, returned (operator_plus a b st) = Ok R /\
             returned (operator_plus b a st) = Ok R) /\
  (exists R, returned (sum_left a b c st) = Ok R /\
             returned (sum_right a b c st) = Ok R).
Proof.
  intros HA HB HC WA WB WC. split.
  - exists (madd A B). split; apply wp_returned.
    + eapply wp_plus; [eassumption ..|].
      intros l st' (_ & _ & Hl) _. exact Hl.
    + eapply wp_plus; [eassumption ..|].
      intros l st' (_ & _ & Hl) _. rewrite Hl. f_equal.
      apply (madd_comm k); assumption.
  - exists (madd (madd A B) C). split; apply wp_returned.
    + unfold sum_left. step wp_plus as s st1.
      eapply wp_plus; [side ..|].
      intros l st2 (_ & _ & Hres) _. exact Hres.
    + unfold sum_right. step wp_plus as s st1.
      eapply wp_plus; [side ..|].
      intros l st2 (_ & _ & Hres) _. rewrite Hres. f_equal.
      symmetry. apply (madd_assoc k); assumption.
Qed.

Lemma plus_commutative_associative_witness :
  exists R, returned (sum_left 0%nat 1%nat 0%nat (init [A2; B2])) = Ok R /\
            returned (sum_right 0%nat 1%nat 0%nat (init [A2; B2])) = Ok R.
Proof.
  exact (proj2 (plus_commutative_associative 1%nat (init [A2; B2])
                  0%nat 1%nat 0%nat A2 B2 A2 eq_refl eq_refl eq_refl
                  well_formed_A2 well_formed_B2 well_formed_A2)).
Defined.

(** X9. [A - A] returns the zero matrix of the size of [A], the two
    operands being one and the same object; and [(A - B) + B] returns a
    matrix equal to [A], as [(A + B) - B] does. *)
Theorem minus_cancels k st a b A B :
  objs st !! a = Some A -> objs st !! b = Some B ->
  well_formed k A -> well_formed k B ->
  returned (operator_minus a a st) = Ok (zeros (m_size A)) /\
  returned (minus_then_plus a b st) = Ok A.
Proof.
  intros HA HB WA WB. split; apply wp_returned.
  - eapply wp_minus; [eassumption ..|].
    intros l st' (_ & _ & Hl) _. rewrite Hl. f_equal.
    apply (msub_self k), WA.
  - unfold minus_then_plus. step wp_minus as d st1.
    eapply wp_plus; [side ..|].
    intros l st2 (_ & _ & Hres) _. rewrite Hres. f_equal.
    apply (madd_msub k); assumption.
Qed.

Lemma minus_cancels_witness :
  returned (operator_minus 0%nat 0%nat (init [A2; B2])) = Ok (zeros 2) /\
  returned (minus_then_plus 0%nat 1%nat (init [A2; B2])) = Ok A2.
Proof.
  exact (minus_cancels 1%nat (init [A2; B2]) 0%nat 1%nat A2 B2
           eq_refl eq_refl well_formed_A2 well_formed_B2).
Defined.
(** ** operator* *)

Lemma strassen_result_product k A B :
  well_formed k A -> well_formed k B ->
  (if m_size A =? 1 then product A B else strassen_product product A B)
  = product A B.
Proof.
  intros WA WB. destruct (m_size A =? 1) eqn:E; [reflexivity|].
  destruct k as [|k'].
  - pose proof (m_size_well_formed _ _ WA) as Hs.
    apply N.eqb_neq in E. contradiction.
  - apply (strassen_product_correct k'); assumption.
Qed.

Lemma wp_times st this other A B k (Q : loc -> state -> Prop) :
  objs st !! this = Some A -> objs st !! other = Some B ->
  well_formed k A -> well_formed k B ->
  (forall l st', allocated st (product A B) l st' -> Q l st') ->
  wp (operator_times this other) Q st.
Proof.
  intros HA HB WA WB HQ. unfold operator_times.
  apply wp_bind. eapply wp_deref; [eassumption|].
  apply wp_bind. eapply wp_deref; [eassumption|].
  replace (m_size A =? m_size B) with true.
  - eapply strassen_spec; [eassumption ..|].
    intros l st' Hext Hf Hl _. apply HQ. split; [exact Hext|].
    split; [exact Hf|].
    rewrite Hl, (strassen_result_product k) by assumption. reflexivity.
  - symmetry. apply N.eqb_eq.
    rewrite (m_size_well_formed k A WA), (m_size_well_formed k B WB).
    reflexivity.
Qed.

(** A step whose effect on the trace is not followed. *)
Tactic Notation "step_over" constr(lem) "as" ident(l) ident(st') :=
  let Hext := fresh "Hext" in
  let Hf := fresh "Hfresh" in
  let Hl := fresh "Hl" in
  apply wp_bind; eapply lem;
  [ side ..
  | intros l st' (Hext & Hf & Hl); try (intros _);
    pose proof (lookup_lt_Some _ _ _ Hl);
    forward Hext ].

(** ** Laws of the product *)

Lemma sum_upto_zero n f :
  (forall l, l < N.of_nat n -> f l = 0%Z) -> sum_upto n f = 0%Z.
Proof.
  induction n as [|n IH]; intros H; simpl; [reflexivity|].
  rewrite IH by (intros; apply H; lia).
  rewrite (H (N.of_nat n)) by lia. reflexivity.
Qed.

Lemma sum_upto_single n f j :
  j < N.of_nat n ->
  (forall l, l < N.of_nat n -> l <> j -> f l = 0%Z) ->
  sum_upto n f = f j.
Proof.
  induction n as [|n IH]; intros Hj H; simpl; [lia|].
  destruct (N.eq_dec j (N.of_nat n)) as [->|Hne].
  - rewrite sum_upto_zero; [reflexivity|].
    intros l Hl. apply H; lia.
  - rewrite IH; [| lia | intros; apply H; lia].
    rewrite (H (N.of_nat n)) by lia. lia.
Qed.

Lemma sum_upto_mul_r n f c :
  (sum_upto n f * c = sum_upto n (fun l => f l * c))%Z.
Proof. induction n as [|n IH]; simpl; [reflexivity|]. rewrite <- IH. ring. Qed.

Lemma sum_upto_mul_l n f c :
  (c * sum_upto n f = sum_upto n (fun l => c * f l))%Z.
Proof. induction n as [|n IH]; simpl; [ring|]. rewrite <- IH. ring. Qed.

Lemma sum_upto_swap n m (F : N -> N -> Z) :
  sum_upto n (fun l => sum_upto m (fun p => F l p)) =
  sum_upto m (fun p => sum_upto n (fun l => F l p)).
Proof.
  induction m as [|m IH]; simpl.
  - apply sum_upto_zero. reflexivity.
  - rewrite <- IH, <- sum_upto_plus. reflexivity.
Qed.

Lemma in_range_bit (b : bool) : Int.in_range (if b then 1 else 0)%Z.
Proof. unfold Int.in_range, Int.min_int, Int.max_int. destruct b; lia. Qed.

Lemma well_formed_identity k :
  (k <= 31)%nat -> well_formed k (identity (2 ^ N.of_nat k)).
Proof.
  intros Hk. apply well_formed_tabulate; [exact Hk|].
  intros i j. apply in_range_bit.
Qed.

Lemma entry_identity k i j :
  i < 2 ^ N.of_nat k -> j < 2 ^ N.of_nat k ->
  entry (identity (2 ^ N.of_nat k)) i j = (if i =? j then 1%Z else 0%Z).
Proof. intros Hi Hj. unfold identity. apply entry_tabulate; assumption. Qed.

Lemma product_identity k A :
  well_formed k A ->
  product A (identity (m_size A)) = A /\ product (identity (m_size A)) A = A.
Proof.
  intros WA. pose proof WA as (Hk & Hs & _). rewrite Hs.
  pose proof (well_formed_identity k Hk) as WI.
  split; (apply (well_formed_eq k); [wf_solve | exact WA |]);
    intros i j Hi Hj;
    rewrite (m_size_well_formed k) in Hi, Hj by wf_solve;
    rewrite (entry_product k) by wf_solve;
    rewrite <- (wrap_id (entry A i j)) by (eapply well_formed_entry, WA);
    f_equal.
  - rewrite (dot_ext k _ _ (fun l => entry A i l)
               (fun l => if l =? j then 1%Z else 0%Z) i j);
      [| exact WA | reflexivity
       | intros l Hl; apply entry_identity; assumption].
    rewrite (sum_upto_single _ _ j).
    + rewrite N.eqb_refl. ring.
    + lia.
    + intros l _ Hne. apply N.eqb_neq in Hne. rewrite Hne. ring.
  - rewrite (dot_ext k _ _ (fun l => if i =? l then 1%Z else 0%Z)
               (fun l => entry A l j) i j);
      [| exact WI | intros l Hl; apply entry_identity; assumption
       | reflexivity].
    rewrite (sum_upto_single _ _ i).
    + rewrite N.eqb_refl. ring.
    + lia.
    + intros l _ Hne. assert (i <> l) as Hne' by congruence.
      apply N.eqb_neq in Hne'. rewrite Hne'. ring.
Qed.

Lemma product_madd_r k A B C :
  well_formed k A -> well_formed k B -> well_formed k C ->
  product A (madd B C) = madd (product A B) (product A C).
Proof.
  intros WA WB WC. apply (well_formed_eq k); [wf_solve | wf_solve |].
  intros i j Hi Hj.
  rewrite (m_size_well_formed k) in Hi, Hj by wf_solve.
  entries k. rewrite !(entry_product k) by wf_solve. dots k. sums.
Qed.

Lemma product_madd_l k A B C :
  well_formed k A -> well_formed k B -> well_formed k C ->
  product (madd A B) C = madd (product A C) (product B C).
Proof.
  intros WA WB WC. apply (well_formed_eq k); [wf_solve | wf_solve |].
  intros i j Hi Hj.
  rewrite (m_size_well_formed k) in Hi, Hj by wf_solve.
  entries k. rewrite !(entry_product k) by wf_solve. dots k. sums.
Qed.

Lemma product_assoc k A B C :
  well_formed k A -> well_formed k B -> well_formed k C ->
  product (product A B) C = product A (product B C).
Proof.
  intros WA WB WC. apply (well_formed_eq k); [wf_solve | wf_solve |].
  intros i j Hi Hj.
  rewrite (m_size_well_formed k) in Hi, Hj by wf_solve.
  rewrite !(entry_product k) by wf_solve.
  rewrite (dot_ext k (product A B) C
             (fun l => Int.wrap (dot A B i l)) (fun l => entry C l j) i j);
    [| wf_solve | intros l Hl; apply (entry_product k); assumption
     | reflexivity].
  rewrite (dot_ext k A (product B C)
             (fun l => entry A i l) (fun l => Int.wrap (dot B C l j)) i j);
    [| wf_solve | reflexivity
     | intros l Hl; apply (entry_product k); assumption].
  apply eqm_wrap. setoid_rewrite wrap_eqm. apply eq_eqm.
  unfold dot.
  rewrite (m_size_well_formed k A WA), (m_size_well_formed k B WB).
  erewrite sum_upto_ext by (intros l _; apply sum_upto_mul_r).
  erewrite (sum_upto_ext _ (fun l => (entry A i l * _)%Z))
    by (intros l _; apply sum_upto_mul_l).
  rewrite sum_upto_swap.
  apply sum_upto_ext. intros l _. apply sum_upto_ext. intros p _. ring.
Qed.

(** X10. [A * B], the operator, returns for matrices of the same size the
    matrix that [multiply] returns: the product, whose element [(i, j)]
    is the sum over [l] of [A(i,l) * B(l,j)] wrapped to 32 bits. *)
Theorem times_is_the_product k st a b A B :
  objs st !! a = Some A -> objs st !! b = Some B ->
  well_formed k A -> well_formed k B ->
  returned (operator_times a b st) = Ok (product A B) /\
  returned (multiply a b st) = Ok (product A B) /\
  well_formed k (product A B) /\
  forall i j, i < m_size A -> j < m_size A ->
    entry (product A B) i j = Int.wrap (dot A B i j).
Proof.
  intros HA HB WA WB. split; [|split; [|split]].
  - apply wp_returned. eapply wp_times; [eassumption ..|].
    intros l st' (_ & _ & Hl). exact Hl.
  - apply (multiply_returns k); assumption.
  - wf_solve.
  - intros i j. apply (entry_product_dot k), WA.
Qed.

Lemma times_is_the_product_witness :
  returned (operator_times 0%nat 1%nat (init [A2; B2])) = Ok (product A2 B2).
Proof.
  exact (proj1 (times_is_the_product 1%nat (init [A2; B2]) 0%nat 1%nat A2 B2
                  eq_refl eq_refl well_formed_A2 well_formed_B2)).
Defined.

(** X11. Multiplying by the identity matrix, on either side, returns a
    matrix equal to the other operand, with [multiply], [strassen] and
    the operator [*] alike and at every size [2 ^ k]. *)
Theorem identity_is_neutral k st a i A :
  objs st !! a = Some A -> objs st !! i = Some (identity (m_size A)) ->
  well_formed k A ->
  returned (multiply a i st) = Ok A /\ returned (multiply i a st) = Ok A /\
  returned (strassen a i st) = Ok A /\ returned (strassen i a st) = Ok A /\
  returned (operator_times a i st) = Ok A /\
  returned (operator_times i a st) = Ok A.
Proof.
  intros HA HI WA.
  destruct (product_identity k A WA) as [Er El].
  assert (well_formed k (identity (m_size A))) as WI.
  { pose proof WA as (Hk & -> & _). apply well_formed_identity, Hk. }
  set (I := identity (m_size A)) in *.
  assert (forall m : M loc,
            wp m (fun l st' => allocated st (product A I) l st') st ->
            returned (m st) = Ok A) as Hr.
  { intros m H. apply wp_returned. eapply wp_mono; [exact H|].
    intros l st' (_ & _ & Hl). rewrite Hl, Er. reflexivity. }
  assert (forall m : M loc,
            wp m (fun l st' => allocated st (product I A) l st') st ->
            returned (m st) = Ok A) as Hl.
  { intros m H. apply wp_returned. eapply wp_mono; [exact H|].
    intros l st' (_ & _ & Hl). rewrite Hl, El. reflexivity. }
  repeat split.
  - rewrite (multiply_returns k st a i _ _ HA HI WA WI), Er. reflexivity.
  - rewrite (multiply_returns k st i a _ _ HI HA WI WA), El. reflexivity.
  - rewrite (strassen_returns k st a i _ _ HA HI WA WI), Er. reflexivity.
  - rewrite (strassen_returns k st i a _ _ HI HA WI WA), El. reflexivity.
  - apply Hr. eapply wp_times; [eassumption ..|]. auto.
  - apply Hl. eapply wp_times; [eassumption ..|]. auto.
Qed.

Lemma identity_is_neutral_witness :
  returned (operator_times 0%nat 1%nat (init [B2; identity 2])) = Ok B2 /\
  returned (operator_times 1%nat 0%nat (init [B2; identity 2])) = Ok B2.
Proof.
  pose proof (identity_is_neutral 1%nat (init [B2; identity 2]) 0%nat 1%nat B2
                eq_refl eq_refl well_formed_B2) as (_ & _ & _ & _ & H1 & H2).
  split; [exact H1 | exact H2].
Defined.

(** X12. The product distributes over the sum on both sides:
    [A * (B + C)] and [A * B + A * C] return equal matrices, and so do
    [(A + B) * C] and [A * C + B * C], whatever wraps around on the
    way. *)
Theorem times_distributes_over_plus k st a b c A B C :
  objs st !! a = Some A -> objs st !! b = Some B -> objs st !! c = Some C ->
  well_formed k A -> well_formed k B -> well_formed k C ->
  (exists R, returned (times_sum a b c st) = Ok R /\
             returned (sum_of_times a b c st) = Ok R) /\
  (exists R, returned (sum_times a b c st) = Ok R /\
             returned (sum_of_times_right a b c st) = Ok R).
Proof.
  intros HA HB HC WA WB WC. split.
  - exists (product A (madd B C)). split; apply wp_returned.
    + unfold times_sum. step wp_plus as s st1.
      eapply wp_times; [side ..|].
      intros l st2 (_ & _ & Hres). exact Hres.
    + unfold sum_of_times.
      step_over wp_times as p st1.
      step_over wp_times as q st2.
      eapply wp_plus; [side ..|].
      intros l st3 (_ & _ & Hres) _. rewrite Hres. f_equal.
      symmetry. apply (product_madd_r k); assumption.
  - exists (product (madd A B) C). split; apply wp_returned.
    + unfold sum_times. step wp_plus as s st1.
      eapply wp_times; [side ..|].
      intros l st2 (_ & _ & Hres). exact Hres.
    + unfold sum_of_times_right.
      step_over wp_times as p st1.
      step_over wp_times as q st2.
      eapply wp_plus; [side ..|].
      intros l st3 (_ & _ & Hres) _. rewrite Hres. f_equal.
      symmetry. apply (product_madd_l k); assumption.
Qed.

Lemma times_distributes_over_plus_witness :
  exists R, returned (times_sum 0%nat 1%nat 0%nat (init [A2; B2])) = Ok R /\
            returned (sum_of_times 0%nat 1%nat 0%nat (init [A2; B2])) = Ok R.
Proof.
  exact (proj1 (times_distributes_over_plus 1%nat (init [A2; B2])
                  0%nat 1%nat 0%nat A2 B2 A2 eq_refl eq_refl eq_refl
                  well_formed_A2 well_formed_B2 well_formed_A2)).
Defined.

(** X13. The product is associative: [(A * B) * C] and [A * (B * C)]
    return equal matrices, for matrices of the same size. *)
Theorem times_associative k st a b c A B C :
  objs st !! a = Some A -> objs st !! b = Some B -> objs st !! c = Some C ->
  well_formed k A -> well_formed k B -> well_formed k C ->
  exists R, returned (times_left a b c st) = Ok R /\
            returned (times_right a b c st) = Ok R.
Proof.
  intros HA HB HC WA WB WC.
  exists (product (product A B) C). split; apply wp_returned.
  - unfold times_left. step_over wp_times as p st1.
    eapply wp_times; [side ..|].
    intros l st2 (_ & _ & Hres). exact Hres.
  - unfold times_right. step_over wp_times as q st1.
    eapply wp_times; [side ..|].
    intros l st2 (_ & _ & Hres). rewrite Hres. f_equal.
    symmetry. apply (product_assoc k); assumption.
Qed.

Lemma times_associative_witness :
  exists R, returned (times_left 0%nat 1%nat 0%nat (init [A2; B2])) = Ok R /\
            returned (times_right 0%nat 1%nat 0%nat (init [A2; B2])) = Ok R.
Proof.
  exact (times_associative 1%nat (init [A2; B2])
           0%nat 1%nat 0%nat A2 B2 A2 eq_refl eq_refl eq_refl
           well_formed_A2 well_formed_B2 well_formed_A2).
Defined.

(** ** multiply on operands of different sizes *)

Lemma fails_run {A B} e (m : M A) (f : A -> M B) st a st' :
  m st = (Ok a, st') -> fails e (f a) st' -> fails e (bind m f) st.
Proof.
  intros H [st'' Hf]. exists st''. rewrite (bind_ok _ _ _ _ _ H). exact Hf.
Qed.

Lemma fails_after_new_matrix {B} e st s (f : loc -> M B) :
  power_of_two s ->
  (forall l st', allocated st (zeros s) l st' -> host st' = host st ->
                 fails e (f l) st') ->
  fails e (bind (new_matrix s) f) st.
Proof.
  intros Hs H. eapply fails_run; [apply new_matrix_run, Hs|].
  apply H; [apply allocated_alloc | reflexivity].
Qed.

Lemma fails_after_partition {B} e st this m k r c (f : loc -> M B) :
  objs st !! this = Some m -> well_formed (S k) m ->
  r + m_size m / 2 <= m_size m -> c + m_size m / 2 <= m_size m ->
  (forall l st', allocated st (quadrant m r c) l st' -> host st' = host st ->
                 fails e (f l) st') ->
  fails e (bind (partition this r c) f) st.
Proof.
  intros Hl Hwf Hr Hc H. eapply fails_run; [eapply partition_run; eassumption|].
  apply H; [apply allocated_alloc | reflexivity].
Qed.

(** The run of [multiply] on a receiver above size 1, up to the first of
    its four sums. *)
Ltac enter_multiply st HA HB Hp2 :=
  let Hext := fresh "Hext" in
  let Hf := fresh "Hfresh" in
  let Hl := fresh "Hl" in
  let result := fresh "result" in
  let st1 := fresh "st" in
  cbn [multiply_rec];
  eapply fails_run; [unfold deref; rewrite HA; reflexivity|];
  eapply fails_run; [reflexivity|];
  eapply fails_run; [apply record_run; [exact HA | exact HB]|];
  apply fails_after_new_matrix; [exact Hp2|];
  intros result st1 (Hext & Hf & Hl) Hhost;
  change (extends st st1) in Hext;
  change (host st1 = host st) in Hhost;
  forward Hext;
  match goal with
  | |- context [m_size ?A =? 1] =>
      replace (m_size A =? 1) with false by (symmetry; apply N.eqb_neq; lia)
  end;
  unfold Size.div;
  apply fails_first; unfold binary, call_on;
  (eapply fails_run; [reflexivity|]); cbv beta;
  rewrite Hhost.

Lemma multiply_rec_smaller_left j :
  forall k fuel st this other A B,
    (j < fuel)%nat -> (j < k)%nat ->
    objs st !! this = Some A -> objs st !! other = Some B ->
    well_formed k A -> well_formed j B ->
    right_first (host st) (112, 0)%nat = false ->
    fails InvalidArgument (multiply_rec fuel this other) st.
Proof.
  induction j as [|j IH];
    intros k fuel st this other A B Hfuel Hjk HA HB WA WB Hrf;
    (destruct fuel as [|fuel]; [lia|]);
    (destruct k as [|k]; [lia|]);
    destruct (well_formed_bounds _ _ WA) as (_ & _ & Hp2);
    destruct (well_formed_half _ _ WA) as (HhA & HdA);
    pose proof (pow2_pos k) as Hge1;
    enter_multiply st HA HB Hp2; rewrite Hrf;
    apply fails_first;
    (eapply fails_after_partition; [eassumption | eassumption | lia | lia |]);
    intros a st2 (Hext2 & Hf2 & Hl2) Hhost2; forward Hext2.
  - apply fails_first. exists st2.
    apply (partition_invalid _ _ B); [assumption|].
    apply (m_size_well_formed _ _ WB).
  - destruct (well_formed_half _ _ WB) as (HhB & HdB).
    eapply fails_after_partition; [eassumption | eassumption | lia | lia |].
    intros b st3 (Hext3 & Hf3 & Hl3) Hhost3; forward Hext3.
    apply (IH k fuel st3 a b (quadrant A 0 0) (quadrant B 0 0));
      try assumption; try lia; try wf_solve.
    rewrite Hhost3, Hhost2, Hhost. exact Hrf.
Qed.

(** An operand of size 1 cannot be partitioned, whichever sum comes
    first. *)
Lemma multiply_rec_single k fuel st this other A B :
  objs st !! this = Some A -> objs st !! other = Some B ->
  well_formed (S k) A -> well_formed 0 B ->
  fails InvalidArgument (multiply_rec (S fuel) this other) st.
Proof.
  intros HA HB WA WB.
  destruct (well_formed_bounds _ _ WA) as (_ & _ & Hp2).
  destruct (well_formed_half _ _ WA) as (HhA & HdA).
  pose proof (pow2_pos k) as Hge1.
  enter_multiply st HA HB Hp2.
  destruct (right_first (host st) (112, 0)%nat);
    apply fails_first;
    (eapply fails_after_partition; [eassumption | eassumption | lia | lia |]);
    intros a st2 (Hext2 & Hf2 & Hl2) Hhost2; forward Hext2;
    apply fails_first; exists st2;
    (apply (partition_invalid _ _ B); [assumption|]);
    apply (m_size_well_formed _ _ WB).
Qed.

(** With the right operand of the first sum evaluated first, the quadrant
    of the other operand is taken from below its last row. *)
Lemma multiply_rec_smaller_right k j fuel st this other A B :
  (j < k)%nat ->
  objs st !! this = Some A -> objs st !! other = Some B ->
  well_formed (S k) A -> well_formed (S j) B ->
  right_first (host st) (112, 0)%nat = true ->
  fails OutOfRange (multiply_rec (S fuel) this other) st.
Proof.
  intros Hjk HA HB WA WB Hrf.
  destruct (well_formed_bounds _ _ WA) as (_ & _ & Hp2).
  destruct (well_formed_half _ _ WA) as (HhA & HdA).
  destruct (well_formed_half _ _ WB) as (HhB & HdB).
  pose proof (pow2_pos k) as Hge1. pose proof (pow2_pos j) as Hge1'.
  pose proof (pow2_le (S j) k ltac:(lia)) as Hle. rewrite pow2_succ in Hle.
  destruct (pow2_bounds k ltac:(destruct WA; lia)) as (_ & H31 & _).
  change (2 ^ 31) with 2147483648 in H31.
  enter_multiply st HA HB Hp2; rewrite Hrf.
  apply fails_first.
  eapply fails_after_partition; [eassumption | eassumption | lia | lia |].
  intros a st2 (Hext2 & Hf2 & Hl2) Hhost2; forward Hext2.
  apply fails_first.
  apply (partition_beyond_rows j _ _ B); try assumption.
  - lia.
  - change (2 ^ 32) with 4294967296. lia.
  - lia.
Qed.

(** X14. [multiply] does not compare the sizes of its operands.  When the
    receiver has size 1, it returns the 1x1 matrix holding the product of
    the two elements at [(0, 0)], whatever the size of the other operand;
    so does [strassen], which delegates to it.  When the receiver is
    larger than the other operand, [multiply] fails, in a way that depends
    on which operand of its first sum the compiler evaluates first.  With
    the left operand first, or when the other operand has size 1, it fails
    with [InvalidArgument]: halving both, it comes to partition an operand
    of size 1.  With the right operand first, as g++ evaluates it, and an
    operand above size 1, it fails with [OutOfRange]:
    [other.partition(k, 0)] reads below the last row of the operand.  In
    no case does it return. *)
Theorem multiply_on_different_sizes st a b A B :
  objs st !! a = Some A -> objs st !! b = Some B ->
  (m_size A = 1 -> m_data A <> [] -> m_data B <> [] ->
   returned (multiply a b st)
     = Ok (mkMatrix 1 [Int.mul (entry A 0 0) (entry B 0 0)]) /\
   returned (strassen a b st)
     = Ok (mkMatrix 1 [Int.mul (entry A 0 0) (entry B 0 0)])) /\
  (forall k j, (j < k)%nat -> well_formed k A -> well_formed j B ->
     (j = 0%nat \/ right_first (host st) (112, 0)%nat = false ->
      fails InvalidArgument (multiply a b) st) /\
     (j <> 0%nat -> right_first (host st) (112, 0)%nat = true ->
      fails OutOfRange (multiply a b) st) /\
     (fails InvalidArgument (multiply a b) st \/
      fails OutOfRange (multiply a b) st)).
Proof.
  intros HA HB. split.
  - intros Hs HdA HdB.
    assert (forall st0 l m, objs st0 !! l = Some m -> m_data m <> [] ->
              at_ l 0 0 st0 = (Ok (entry m 0 0), st0)) as Hat.
    { intros st0 l m Hl Hd. rewrite (at_outcome _ _ _ _ _ Hl). cbv zeta.
      change (Size.add (Size.mul 0 (m_size m)) 0) with 0.
      unfold vec_size. destruct (m_data m) as [|x d] eqn:E; [congruence|].
      unfold entry. rewrite E. reflexivity. }
    assert (power_of_two (m_size A)) as Hp2
      by (rewrite Hs; exists 0; reflexivity).
    assert (forall st0,
              objs st0 !! a = Some A -> objs st0 !! b = Some B ->
              wp (multiply_rec (depth 1) a b)
                 (fun l st' => objs st' !! l =
                    Some (mkMatrix 1 [Int.mul (entry A 0 0) (entry B 0 0)]))
                 st0) as Hmul.
    { clear HA HB. intros st0 HA HB.
      change (depth 1) with 2%nat. cbn [multiply_rec].
      apply wp_bind. eapply wp_deref; [eassumption|].
      apply wp_bind. apply wp_log. intros st1 Hext1 _. forward Hext1.
      apply wp_bind. apply wp_record. intros st1' Hext1' _. forward Hext1'.
      step wp_new_matrix as result st2.
      rewrite Hs in Hl |- *. change (1 =? 1) with true. cbv iota.
      change (zeros 1) with (mkMatrix 1 [0%Z]) in Hl.
      apply wp_bind. eapply wp_run; [apply (Hat _ _ A); auto|].
      apply wp_bind. eapply wp_run; [apply (Hat _ _ B); auto|].
      apply wp_bind.
      eapply wp_at_ref; [eassumption | reflexivity | reflexivity | reflexivity
                        | reflexivity |].
      apply wp_bind. eapply wp_store; [eassumption | simpl; lia |].
      intros st3 Ho3 _. apply wp_ret.
      rewrite Ho3, list_lookup_insert_eq by assumption. reflexivity. }
    split; apply wp_returned.
    + unfold multiply. apply wp_bind. eapply wp_deref; [eassumption|].
      rewrite Hs. apply Hmul; assumption.
    + unfold strassen. apply wp_bind. eapply wp_deref; [eassumption|].
      apply wp_bind. apply wp_log. intros st1 Hext1 _. forward Hext1.
      apply wp_bind. apply wp_record. intros st1' Hext1' _. forward Hext1'.
      rewrite Hs. change (1 =? 1) with true. cbv iota.
      unfold multiply. apply wp_bind. eapply wp_deref; [eassumption|].
      rewrite Hs. apply Hmul; assumption.
  - intros k j Hjk WA WB.
    pose proof (depth_suffices k A WA) as Hfuel.
    destruct (depth (m_size A)) as [|fuel] eqn:Ed; [lia|].
    destruct k as [|k]; [lia|].
    assert (j = 0%nat \/ right_first (host st) (112, 0)%nat = false ->
            fails InvalidArgument (multiply a b) st) as Hleft.
    { intros Hcase. unfold multiply.
      eapply fails_run; [unfold deref; rewrite HA; reflexivity|].
      rewrite Ed. destruct j as [|j].
      - apply (multiply_rec_single k _ _ _ _ A B); assumption.
      - destruct Hcase as [Hj|Hrf]; [discriminate|].
        apply (multiply_rec_smaller_left (S j) (S k) _ _ _ _ A B);
          try assumption; lia. }
    assert (j <> 0%nat -> right_first (host st) (112, 0)%nat = true ->
            fails OutOfRange (multiply a b) st) as Hright.
    { intros Hj Hrf. unfold multiply.
      eapply fails_run; [unfold deref; rewrite HA; reflexivity|].
      rewrite Ed. destruct j as [|j]; [congruence|].
      apply (multiply_rec_smaller_right k j _ _ _ _ A B);
        try assumption; lia. }
    split; [exact Hleft|]. split; [exact Hright|].
    destruct (Nat.eq_dec j 0%nat) as [Hj|Hj]; [left; auto|].
    destruct (right_first (host st) (112, 0)%nat) eqn:Hrf;
      [right | left]; auto.
Qed.

Lemma well_formed_A1 : well_formed 0 A1.
Proof. apply well_formed_single, in_range_small. lia. Defined.

Lemma multiply_on_different_sizes_witness :
  returned (multiply 0%nat 1%nat (init [A1; B2])) = Ok (mkMatrix 1 [35%Z]) /\
  fails InvalidArgument (multiply 1%nat 0%nat) (init [A1; B2]) /\
  fails InvalidArgument (multiply 0%nat 1%nat) (init [A4; B2]) /\
  fails OutOfRange (multiply 0%nat 1%nat) (init_on right_to_left [A4; B2]).
Proof.
  split; [|split; [|split]].
  - apply (proj1 (multiply_on_different_sizes (init [A1; B2]) 0%nat 1%nat
                    A1 B2 eq_refl eq_refl)); [reflexivity | |]; discriminate.
  - apply (proj1 (proj2 (multiply_on_different_sizes (init [A1; B2])
                           1%nat 0%nat B2 A1 eq_refl eq_refl)
                    1%nat 0%nat ltac:(lia) well_formed_B2 well_formed_A1)).
    left. reflexivity.
  - apply (proj1 (proj2 (multiply_on_different_sizes (init [A4; B2])
                           0%nat 1%nat A4 B2 eq_refl eq_refl)
                    2%nat 1%nat ltac:(lia) well_formed_A4 well_formed_B2)).
    right. reflexivity.
  - apply (proj1 (proj2 (proj2 (multiply_on_different_sizes
                                  (init_on right_to_left [A4; B2])
                                  0%nat 1%nat A4 B2 eq_refl eq_refl)
                           2%nat 1%nat ltac:(lia)
                           well_formed_A4 well_formed_B2)));
      [discriminate | reflexivity].
Defined.

(** ** multiply with a larger right operand *)

Lemma multiply_rec_corner k :
  forall j fuel st this other A B (Q : loc -> state -> Prop),
    (k < fuel)%nat -> (k <= j)%nat ->
    objs st !! this = Some A -> objs st !! other = Some B ->
    well_formed k A -> well_formed j B ->
    (forall l st',
       allocated st (product A (corner (m_size A) B)) l st' -> Q l st') ->
    wp (multiply_rec fuel this other) Q st.
Proof.
  intros j fuel st this other A B Q Hfuel Hkj HA HB WA WB HQ.
  eapply (multiply_rec_run k fuel j); try eassumption.
  intros l st' Hal _ _. apply HQ.
  rewrite (m_size_well_formed k A WA). exact Hal.
Qed.

(** X15. [multiply] with a right operand at least as large as the
    receiver: for a receiver [A] of size [2 ^ k] and an operand [B] of
    size [2 ^ j] with [k <= j], the call returns, without any error, the
    product of [A] and the block of the first [size A] rows and columns of
    [B]; the rest of [B] is not read into the result.  Element [(i, l)] is
    the sum over [p] of [A(i,p) * B(p,l)], in [int] arithmetic. *)
Theorem multiply_with_larger_operand k j st a b A B :
  objs st !! a = Some A -> objs st !! b = Some B ->
  well_formed k A -> well_formed j B -> (k <= j)%nat ->
  exists R,
    returned (multiply a b st) = Ok R /\
    well_formed k R /\
    R = product A (corner (m_size A) B) /\
    forall i l, i < m_size A -> l < m_size A ->
      entry R i l =
      Int.wrap (sum_upto (N.to_nat (m_size A))
                  (fun p => entry A i p * entry B p l)%Z).
Proof.
  intros HA HB WA WB Hkj. exists (product A (corner (m_size A) B)).
  split; [|split; [|split]].
  - apply wp_returned. unfold multiply.
    apply wp_bind. eapply wp_deref; [eassumption|].
    apply (multiply_rec_corner k j _ _ _ _ A B); try assumption.
    + unfold depth. rewrite (m_size_well_formed k A WA), size_nat_pow2. lia.
    + intros l st' (_ & _ & Hl). exact Hl.
  - wf_solve.
  - reflexivity.
  - intros i l Hi Hl. pose proof WA as (Hk & Hs & _).
    rewrite Hs in Hi, Hl |- *.
    rewrite (entry_product k) by assumption. f_equal.
    apply (dot_ext k); [exact WA | reflexivity |].
    intros p Hp. apply entry_corner; assumption.
Qed.

Lemma well_formed_B4 : well_formed 2 B4.
Proof.
  split; [lia|]. split; [reflexivity|]. split; [reflexivity|].
  repeat constructor; unfold Int.min_int, Int.max_int; simpl; lia.
Defined.

Lemma multiply_with_larger_operand_witness :
  exists R,
    returned (multiply 0%nat 1%nat (init [A2; B4])) = Ok R /\
    well_formed 1 R /\
    R = product A2 (corner (m_size A2) B4) /\
    forall i l, i < m_size A2 -> l < m_size A2 ->
      entry R i l =
      Int.wrap (sum_upto (N.to_nat (m_size A2))
                  (fun p => entry A2 i p * entry B4 p l)%Z).
Proof.
  apply (multiply_with_larger_operand 1%nat 2%nat (init [A2; B4])
           0%nat 1%nat A2 B4 eq_refl eq_refl well_formed_A2 well_formed_B4).
  lia.
Defined.

(** ** The calls of a run, in full *)

Lemma multiply_rec_calls k :
  forall fuel st this other A B (Q : loc -> state -> Prop),
    (k < fuel)%nat ->
    objs st !! this = Some A -> objs st !! other = Some B ->
    well_formed k A -> well_formed k B ->
    (forall l st',
       allocated st (product A B) l st' ->
       trace st' = multiply_calls k ++ trace st ->
       Q l st') ->
    wp (multiply_rec fuel this other) Q st.
Proof.
  intros fuel st this other A B Q Hfuel HA HB WA WB HQ.
  eapply (multiply_rec_run k fuel k); try eassumption; [lia|].
  intros l st' Hal Ht _. apply HQ; [|exact Ht].
  rewrite (corner_same k B WB) in Hal. exact Hal.
Qed.

Lemma wp_multiply_calls st this other A B k (Q : loc -> state -> Prop) :
  objs st !! this = Some A -> objs st !! other = Some B ->
  well_formed k A -> well_formed k B ->
  (forall l st',
     allocated st (product A B) l st' ->
     trace st' = multiply_calls k ++ trace st ->
     Q l st') ->
  wp (multiply this other) Q st.
Proof.
  intros HA HB WA WB HQ. unfold multiply.
  apply wp_bind. eapply wp_deref; [eassumption|].
  apply (multiply_rec_calls k _ _ _ _ A B); try assumption.
  unfold depth. rewrite (m_size_well_formed k A WA), size_nat_pow2. lia.
Qed.

Lemma strassen_calls k st this other A B (Q : loc -> state -> Prop) :
  objs st !! this = Some A -> objs st !! other = Some B ->
  well_formed (S k) A -> well_formed (S k) B ->
  (forall l st',
     allocated st (product A B) l st' ->
     trace st' =
       concat (replicate 7 (multiply_calls k)) ++
       call_strassen (m_size A) :: trace st ->
     Q l st') ->
  wp (strassen this other) Q st.
Proof.
  intros HA HB WA WB HQ. eapply strassen_run; try eassumption.
  intros l st' Hal Ht _. apply HQ; [|exact Ht].
  rewrite <- (strassen_product_correct k A B WA WB). exact Hal.
Qed.

Lemma scalar_products_app t1 t2 :
  scalar_products (t1 ++ t2) = (scalar_products t1 + scalar_products t2)%nat.
Proof.
  unfold scalar_products. rewrite List.filter_app, length_app. reflexivity.
Qed.

Lemma scalar_products_repeated n t :
  scalar_products (concat (replicate n t)) = (n * scalar_products t)%nat.
Proof.
  induction n as [|n IH]; [reflexivity|].
  cbn [replicate concat]. rewrite scalar_products_app, IH. reflexivity.
Qed.

Lemma length_repeated {A} n (t : list A) :
  length (concat (replicate n t)) = (n * length t)%nat.
Proof.
  induction n as [|n IH]; [reflexivity|].
  cbn [replicate concat]. rewrite length_app, IH. reflexivity.
Qed.

Lemma scalar_products_multiply_calls k :
  scalar_products (multiply_calls k) = (8 ^ k)%nat.
Proof.
  induction k as [|k IH]; [reflexivity|].
  cbn [multiply_calls].
  rewrite scalar_products_app, scalar_products_repeated, IH.
  unfold scalar_products at 1. cbn [List.filter].
  replace (2 ^ N.of_nat (S k) =? 1) with false.
  - simpl length. rewrite Nat.pow_succ_r'. lia.
  - symmetry. apply N.eqb_neq. rewrite pow2_succ. lia.
Qed.

Lemma length_multiply_calls k :
  (7 * length (multiply_calls k) + 1 = 8 ^ S k)%nat.
Proof.
  induction k as [|k IH]; [reflexivity|].
  cbn [multiply_calls]. rewrite length_app, length_repeated.
  rewrite (Nat.pow_succ_r' 8 (S k)), <- IH. simpl length. lia.
Qed.

(** X16. The cost of [multiply]: on matrices of size [2 ^ k] it adds to
    the call trace exactly the entries of [multiply_calls k], those of
    eight calls at half the size followed by its own.  It enters
    [multiply] [(8 ^ (k + 1) - 1) / 7] times in all and multiplies two
    elements [8 ^ k] times, which is [size ^ 3]; it never enters
    [strassen]. *)
Theorem multiply_cost k st a b A B :
  objs st !! a = Some A -> objs st !! b = Some B ->
  well_formed k A -> well_formed k B ->
  let t' := trace (snd (multiply a b st)) in
  t' = multiply_calls k ++ trace st /\
  (7 * (length t' - length (trace st)) + 1 = 8 ^ S k)%nat /\
  scalar_products t' = (8 ^ k + scalar_products (trace st))%nat /\
  Forall (fun c => exists s, c = call_multiply s) (multiply_calls k).
Proof.
  intros HA HB WA WB t'.
  assert (t' = multiply_calls k ++ trace st) as Ht.
  { assert (wp (multiply a b)
              (fun _ st' => trace st' = multiply_calls k ++ trace st) st) as H.
    { eapply wp_multiply_calls; try eassumption. intros l st' _ Ht. exact Ht. }
    apply wp_inv in H as (l & st' & Hrun & Ht). unfold t'. rewrite Hrun.
    exact Ht. }
  split; [exact Ht|]. rewrite Ht. split; [|split].
  - rewrite length_app, Nat.add_sub. apply length_multiply_calls.
  - rewrite scalar_products_app, scalar_products_multiply_calls. reflexivity.
  - clear. induction k as [|k IH].
    + repeat constructor. eauto.
    + cbn [multiply_calls]. apply Forall_app. split.
      * apply Forall_concat, Forall_replicate, IH.
      * repeat constructor. eauto.
Qed.

Lemma multiply_cost_witness :
  scalar_products (trace (snd (multiply 0%nat 1%nat (init [A2; B2])))) = 8%nat.
Proof.
  exact (proj1 (proj2 (proj2
    (multiply_cost 1%nat (init [A2; B2]) 0%nat 1%nat A2 B2
       eq_refl eq_refl well_formed_A2 well_formed_B2)))).
Defined.

(** X17. The cost of [strassen] as written: on matrices of size
    [2 ^ (k + 1)] it adds to the call trace its own entry and the entries
    of seven runs of [multiply] at size [2 ^ k], so it multiplies two
    elements [7 * 8 ^ k] times where [multiply] on the same operands does
    so [8 * 8 ^ k] times: it saves one product in eight, at the top level
    only. *)
Theorem strassen_cost k st a b A B :
  objs st !! a = Some A -> objs st !! b = Some B ->
  well_formed (S k) A -> well_formed (S k) B ->
  let t' := trace (snd (strassen a b st)) in
  t' = concat (replicate 7 (multiply_calls k)) ++
       call_strassen (m_size A) :: trace st /\
  scalar_products t' = (7 * 8 ^ k + scalar_products (trace st))%nat /\
  scalar_products (trace (snd (multiply a b st))) =
    (8 * 8 ^ k + scalar_products (trace st))%nat.
Proof.
  intros HA HB WA WB t'.
  assert (t' = concat (replicate 7 (multiply_calls k)) ++
               call_strassen (m_size A) :: trace st) as Ht.
  { assert (wp (strassen a b)
              (fun _ st' => trace st' =
                 concat (replicate 7 (multiply_calls k)) ++
                 call_strassen (m_size A) :: trace st) st) as H.
    { eapply strassen_calls; try eassumption. intros l st' _ Ht. exact Ht. }
    apply wp_inv in H as (l & st' & Hrun & Ht). unfold t'. rewrite Hrun.
    exact Ht. }
  split; [exact Ht|]. split.
  - rewrite Ht, scalar_products_app, scalar_products_repeated,
      scalar_products_multiply_calls.
    reflexivity.
  - assert (wp (multiply a b)
              (fun _ st' => trace st' = multiply_calls (S k) ++ trace st) st)
      as H.
    { eapply wp_multiply_calls; try eassumption. intros l st' _ Hm. exact Hm. }
    apply wp_inv in H as (l & st' & Hrun & Hm). rewrite Hrun. cbn [snd].
    rewrite Hm, scalar_products_app, scalar_products_multiply_calls.
    rewrite Nat.pow_succ_r'. reflexivity.
Qed.

Lemma strassen_cost_witness :
  scalar_products (trace (snd (strassen 0%nat 1%nat (init [A2; B2])))) = 7%nat.
Proof.
  exact (proj1 (proj2
    (strassen_cost 0%nat (init [A2; B2]) 0%nat 1%nat A2 B2
       eq_refl eq_refl well_formed_A2 well_formed_B2))).
Defined.

(** ** Randomization *)

Lemma random_values_small st n :
  Forall (fun x => (-9 <= x <= 9)%Z) (random_values st n).
Proof.
  unfold random_values. apply Forall_fmap, Forall_forall. intros i _. simpl.
  pose proof (Z.mod_pos_bound
                (random_int (host st) (drawn st + i)%nat) 19 ltac:(lia)).
  lia.
Qed.

Lemma length_random_values st n : length (random_values st n) = n.
Proof. unfold random_values. rewrite length_fmap, length_seq. reflexivity. Qed.

(** X18. [randomize] never fails on an existing matrix: it overwrites
    every element of its receiver with a value between -9 and 9, the size
    and the number of elements stay what they were, and no other matrix
    changes.  Which values these are is not determined by the program. *)
Theorem randomize_fills st l m :
  objs st !! l = Some m ->
  exists st' d,
    randomize l st = (Ok tt, st') /\
    objs st' !! l = Some (mkMatrix (m_size m) d) /\
    length d = length (m_data m) /\
    Forall (fun x => (-9 <= x <= 9)%Z) d /\
    length (objs st') = length (objs st) /\
    (forall l', l' <> l -> objs st' !! l' = objs st !! l').
Proof.
  intros Hl. pose proof (lookup_lt_Some _ _ _ Hl) as Hlt.
  eexists _, (random_values st (length (m_data m))).
  split; [apply randomize_run_values, Hl|].
  split; [simpl; apply list_lookup_insert_eq, Hlt|].
  split; [apply length_random_values|].
  split; [apply random_values_small|].
  split; [simpl; apply length_insert|].
  intros l' Hne. simpl. apply list_lookup_insert_ne. congruence.
Qed.

Lemma randomize_fills_witness :
  fst (randomize 0%nat (init [A2])) = Ok tt.
Proof.
  destruct (randomize_fills (init [A2]) 0%nat A2 eq_refl)
    as (st' & d & Hrun & _).
  rewrite Hrun. reflexivity.
Defined.




(** ** The constructor's check on sizes below [2 ^ 32] *)




(** ** Results are new objects *)

Lemma result_is_new (m : M loc) st :
  keeps (fun h => objs st `prefix_of` h) m
        (fun l => (length (objs st) <= l)%nat) ->
  forall l st', m st = (Ok l, st') -> objs st !! l = None.
Proof.
  intros Hk l st' Hrun.
  destruct (Hk st) as [_ H]; [reflexivity|].
  rewrite Hrun in H. simpl in H. apply lookup_ge_None. exact H.
Qed.

(** X20. Every operation that returns a matrix returns a new object:
    the matrix returned by the constructor, [partition], [+], [-],
    [multiply], [strassen] or [*] is none of the matrices that existed
    before the call, so a result never shares its storage with an
    operand. *)
Theorem results_are_new st this other r c s e :
  forall l st',
    (Matrix_ctor s e st = (Ok l, st') \/
     partition this r c st = (Ok l, st') \/
     operator_plus this other st = (Ok l, st') \/
     operator_minus this other st = (Ok l, st') \/
     multiply this other st = (Ok l, st') \/
     strassen this other st = (Ok l, st') \/
     operator_times this other st = (Ok l, st')) ->
    objs st !! l = None.
Proof.
  intros l st' H.
  pose proof (kept_grow (objs st)) as Hg.
  pose proof (kept_fresh (objs st)) as Hf.
  pose proof (kept_store (objs st)) as Hs.
  pose proof (kept_push (objs st)) as Hp.
  destruct H as [H|[H|[H|[H|[H|[H|H]]]]]];
    (eapply result_is_new; [|exact H]).
  - apply keeps_ctor; assumption.
  - apply keeps_partition; assumption.
  - apply keeps_elementwise; assumption.
  - apply keeps_elementwise; assumption.
  - apply keeps_multiply; assumption.
  - apply keeps_strassen; assumption.
  - apply keeps_times; assumption.
Qed.

Lemma results_are_new_witness : objs (init [A2; B2]) !! 2%nat = None.
Proof.
  apply (results_are_new (init [A2; B2]) 0%nat 1%nat 0 0 1 true 2%nat
           (snd (multiply 0%nat 1%nat (init [A2; B2])))).
  do 4 right. left. vm_compute. reflexivity.
Defined.

(** ** print *)

Lemma io_bind_ok {A B} (m : IO A) (f : A -> IO B) c a c' :
  m c = (Ok a, c') -> io_bind m f c = f a c'.
Proof. intros H. unfold io_bind. rewrite H. reflexivity. Qed.

Lemma io_for_loop_progress body (S : N -> console) cnt i c0 c1 :
  c0 = S i -> c1 = S (i + N.of_nat cnt) ->
  (forall k, i <= k -> k < i + N.of_nat cnt ->
             body k (S k) = (Ok tt, S (N.succ k))) ->
  io_for_loop cnt i body c0 = (Ok tt, c1).
Proof.
  revert i c0. induction cnt as [|cnt IH]; intros i c0 -> -> Hstep.
  - simpl. replace (i + N.of_nat 0) with i by lia. reflexivity.
  - simpl. erewrite io_bind_ok by (apply Hstep; lia).
    apply IH; [reflexivity | f_equal; lia |].
    intros k Hk1 Hk2. apply Hstep; lia.
Qed.

Lemma io_for_range_progress body (S : N -> console) hi c0 c1 :
  c0 = S 0 -> c1 = S hi ->
  (forall k, k < hi -> body k (S k) = (Ok tt, S (N.succ k))) ->
  io_for_range hi body c0 = (Ok tt, c1).
Proof.
  intros -> -> Hstep. unfold io_for_range.
  apply (io_for_loop_progress body S); [reflexivity | f_equal; lia |].
  intros k _ Hk. apply Hstep. lia.
Qed.

Lemma concat_indices_succ {A} (g : N -> list A) n :
  concat (g <$> indices (N.succ n)) = concat (g <$> indices n) ++ g n.
Proof.
  rewrite indices_succ, fmap_app, concat_app. simpl.
  rewrite app_nil_r. reflexivity.
Qed.

Lemma print_run c l m k :
  objs (world c) !! l = Some m -> well_formed k m ->
  print l c = (Ok tt, mkConsole (written c ++ matrix_text m) (world c)).
Proof.
  intros Hl Hwf.
  destruct (well_formed_bounds _ _ Hwf) as (_ & Hsz & _).
  pose proof Hwf as (_ & _ & Hlen & _).
  unfold print.
  erewrite io_bind_ok by (unfold lift, deref; rewrite Hl; reflexivity).
  set (n := m_size m) in *.
  set (rows := fun i => concat (row_text m <$> indices i)).
  set (cells := fun i j =>
         concat ((fun j => field (entry m i j)) <$> indices j)).
  erewrite io_bind_ok.
  2:{ apply (io_for_range_progress _
               (fun i => mkConsole (written c ++ rows i) (world c)));
        [unfold rows; simpl; rewrite app_nil_r; destruct c; reflexivity
        | reflexivity |].
      intros i Hi.
      erewrite io_bind_ok.
      2:{ apply (io_for_range_progress _
                   (fun j => mkConsole (written c ++ rows i ++ cells i j)
                                       (world c)));
            [unfold cells; simpl; rewrite app_nil_r; reflexivity
            | reflexivity |].
          intros j Hj.
          erewrite io_bind_ok.
          2:{ unfold lift. cbn [world written].
              rewrite (at_run _ l m Hl Hlen Hsz i j Hi Hj). reflexivity. }
          unfold put. cbn [world written]. do 2 f_equal.
          unfold cells. rewrite concat_indices_succ.
          rewrite <- !app_assoc. reflexivity. }
      unfold put. cbn [world written]. do 2 f_equal.
      unfold rows. rewrite concat_indices_succ.
      rewrite <- !app_assoc. reflexivity. }
  unfold put. cbn [world written]. do 2 f_equal.
  rewrite <- app_assoc. reflexivity.
Qed.

Lemma length_decimal (k : nat) :
  forall fuel n acc,
    (1 <= k <= fuel)%nat -> n < 10 ^ N.of_nat k ->
    (length (decimal fuel n acc) <= length acc + k)%nat.
Proof.
  induction k as [|k IH]; intros fuel n acc Hk Hn; [lia|].
  destruct fuel as [|fuel]; [lia|]. cbn [decimal]. cbv zeta.
  destruct (N.eqb_spec (n / 10) 0) as [E|E]; [simpl; lia|].
  destruct k as [|k].
  - change (10 ^ N.of_nat 1) with 10 in Hn.
    rewrite N.div_small in E by exact Hn. contradiction.
  - assert (n / 10 < 10 ^ N.of_nat (S k)) as Hq.
    { apply N.Div0.div_lt_upper_bound.
      rewrite (Nat2N.inj_succ (S k)), N.pow_succ_r' in Hn. exact Hn. }
    pose proof (IH fuel (n / 10) (digit (n mod 10) :: acc) ltac:(lia) Hq)
      as H.
    simpl length in H. lia.
Qed.

Lemma length_show_int x :
  (-999 <= x <= 9999)%Z -> (length (show_int x) <= 4)%nat.
Proof.
  intros Hx. unfold show_int. cbv zeta.
  destruct (Z.ltb_spec x 0) as [Hneg|Hpos].
  - assert (Z.abs_N x < 10 ^ N.of_nat 3) as Hlt
      by (change (10 ^ N.of_nat 3) with 1000; lia).
    pose proof (length_decimal 3 10 (Z.abs_N x) [] ltac:(lia) Hlt) as H.
    cbn [length] in *. lia.
  - assert (Z.abs_N x < 10 ^ N.of_nat 4) as Hlt
      by (change (10 ^ N.of_nat 4) with 10000; lia).
    pose proof (length_decimal 4 10 (Z.abs_N x) [] ltac:(lia) Hlt) as H.
    cbn [length] in *. lia.
Qed.

Lemma length_setw w s : length (setw w s) = Nat.max w (length s).
Proof. unfold setw. rewrite length_app, length_replicate. lia. Qed.

Lemma length_field x :
  (5 <= length (field x))%nat /\
  ((-999 <= x <= 9999)%Z -> length (field x) = 5%nat).
Proof.
  unfold field. rewrite length_app, length_setw. simpl length.
  split; [lia|].
  intros Hx. apply length_show_int in Hx. lia.
Qed.

Lemma digit_not_newline d : digit d <> newline.
Proof.
  unfold digit, newline. destruct d as [|p]; [discriminate|].
  do 4 (try destruct p as [p|p|]); discriminate.
Qed.

Lemma decimal_no_newline fuel :
  forall n acc,
    Forall (fun b => b <> newline) acc ->
    Forall (fun b => b <> newline) (decimal fuel n acc).
Proof.
  induction fuel as [|fuel IH]; intros n acc Hacc; simpl; [exact Hacc|].
  assert (Forall (fun b => b <> newline) (digit (n mod 10) :: acc)) as H
    by (constructor; [apply digit_not_newline | exact Hacc]).
  destruct (n / 10 =? 0); [exact H | apply IH, H].
Qed.

Lemma field_no_newline x : Forall (fun b => b <> newline) (field x).
Proof.
  unfold field, setw, show_int. cbv zeta.
  apply Forall_app. split; [apply Forall_app; split|].
  - apply Forall_replicate. discriminate.
  - destruct (x <? 0)%Z.
    + constructor; [discriminate|]. apply decimal_no_newline. constructor.
    + apply decimal_no_newline. constructor.
  - repeat constructor. discriminate.
Qed.

Lemma concat_indices_all {A} (P : A -> Prop) (g : N -> list A) (n : nat) :
  (forall j, j < N.of_nat n -> Forall P (g j)) ->
  Forall P (concat (g <$> indices (N.of_nat n))).
Proof.
  induction n as [|n IH]; intros H; [constructor|].
  rewrite Nat2N.inj_succ, concat_indices_succ. apply Forall_app. split.
  - apply IH. intros j Hj. apply H. lia.
  - apply H. lia.
Qed.

Lemma concat_indices_length_ge {A} (g : N -> list A) (n lo : nat) :
  (forall j, j < N.of_nat n -> (lo <= length (g j))%nat) ->
  (n * lo <= length (concat (g <$> indices (N.of_nat n))))%nat.
Proof.
  induction n as [|n IH]; intros H; [simpl; lia|].
  rewrite Nat2N.inj_succ, concat_indices_succ, length_app.
  pose proof (H (N.of_nat n) ltac:(lia)).
  pose proof (IH ltac:(intros j Hj; apply H; lia)). lia.
Qed.

Lemma concat_indices_length {A} (g : N -> list A) (n len : nat) :
  (forall j, j < N.of_nat n -> length (g j) = len) ->
  length (concat (g <$> indices (N.of_nat n))) = (n * len)%nat.
Proof.
  induction n as [|n IH]; intros H; [reflexivity|].
  rewrite Nat2N.inj_succ, concat_indices_succ, length_app.
  rewrite (H (N.of_nat n)) by lia.
  rewrite IH by (intros j Hj; apply H; lia). lia.
Qed.

Lemma entry_in_data (P : Z -> Prop) m i j :
  length (m_data m) = N.to_nat (m_size m * m_size m) ->
  i < m_size m -> j < m_size m ->
  Forall P (m_data m) -> P (entry m i j).
Proof.
  intros Hlen Hi Hj HP. pose proof (row_major_lt _ i j Hi Hj).
  unfold entry. eapply Forall_lookup_1; [exact HP|].
  apply entry_lookup. lia.
Qed.

(** X21. [print] writes the matrix to the output stream and changes
    nothing else: after what was written before come one line per row, in
    order, and then an empty line.  The line of a row holds, for each
    element of the row in order, the element in decimal, padded on the
    left to four characters, and a space; so it has at least five
    characters per element, and exactly five, all columns aligned, when
    every element is between -999 and 9999. *)
Theorem print_writes_rows k c l m :
  objs (world c) !! l = Some m -> well_formed k m ->
  print l c = (Ok tt, mkConsole (written c ++ matrix_text m) (world c)) /\
  matrix_text m = concat (row_text m <$> indices (m_size m)) ++ [newline] /\
  forall i, i < m_size m ->
    exists line,
      row_text m i = line ++ [newline] /\
      line = concat ((fun j => setw 4 (show_int (entry m i j)) ++ [space])
                       <$> indices (m_size m)) /\
      Forall (fun b => b <> newline) line /\
      (5 * N.to_nat (m_size m) <= length line)%nat /\
      (Forall (fun x => (-999 <= x <= 9999)%Z) (m_data m) ->
       length line = (5 * N.to_nat (m_size m))%nat).
Proof.
  intros Hl Hwf. split; [apply (print_run _ _ _ k); assumption|].
  split; [reflexivity|].
  intros i Hi. pose proof Hwf as (_ & _ & Hlen & _).
  eexists. split; [reflexivity|]. split; [reflexivity|].
  destruct (well_formed_bounds _ _ Hwf) as (_ & Hsz & _).
  change (fun j => setw 4 (show_int (entry m i j)) ++ [space])
    with (fun j => field (entry m i j)).
  remember (N.to_nat (m_size m)) as nn eqn:Enn.
  assert (m_size m = N.of_nat nn) as Es by lia.
  rewrite Es at 1 2 3. clear Enn.
  split; [|split].
  - apply concat_indices_all. intros j _. apply field_no_newline.
  - rewrite Nat.mul_comm. apply concat_indices_length_ge.
    intros j _. apply length_field.
  - intros Hsmall. rewrite Nat.mul_comm. apply concat_indices_length.
    intros j Hj. apply length_field.
    apply (entry_in_data (fun x => (-999 <= x <= 9999)%Z));
      try assumption; lia.
Qed.

Lemma print_writes_rows_witness :
  print 0%nat (mkConsole [] (init [A2])) =
  (Ok tt,
   mkConsole
     [space; space; space; Byte.x31; space;
      space; space; space; Byte.x32; space; newline;
      space; space; space; Byte.x33; space;
      space; space; space; Byte.x34; space; newline;
      newline]
     (init [A2])).
Proof.
  exact (proj1 (print_writes_rows 1%nat (mkConsole [] (init [A2])) 0%nat A2
                  eq_refl well_formed_A2)).
Defined.
